(** * CoreBlas: band bulge-chasing kernels and validating tile kernels

    A shallow embedding of

    - [core_blas/core_zgbtype1cb.c]  ([coreblas_zgbtype1cb]),
    - [core_blas/core_zgbtype2cb.c]  ([coreblas_zgbtype2cb]),
    - [core_blas/core_ztradd.c]      ([coreblas_ztradd]),
    - [core_blas/core_zpemv.c]       ([coreblas_zpemv]),
    - [coreblas_ztsmqr] and [coreblas_zlarfb_gemm],

    together with the properties of these kernels that the design
    document of the library states (parts I and II), and of

    - [core_blas/core_ztrmm.c]       ([coreblas_zparfb]),
    - [core_blas/core_ztrtri.c]      ([coreblas_zunmqr]),
    - [core_blas/core_zgelqt.c]      ([coreblas_zgelqt]),
    - [core_blas/core_ztsqrt.c]      ([coreblas_ztsqrt]),
    - [core_blas/core_zgeswp.c]      ([coreblas_zgeswp]),
    - [coreblas_ztslqt] and [coreblas_zlaset],

    with further properties that the code shows (part III).

    Conventions.  C [int]s are unbounded integers [Z] (signed overflow is
    undefined behaviour in C and does not occur for the indices the
    kernels compute).  The scalar type [coreblas_complex64_t], the
    constants of [coreblas_types.h], [findVTpos] of [bulge.h] and the
    vendor BLAS/LAPACK routines are declared in headers and libraries
    outside these files: they are fields of the interfaces below and are
    used only through their documented behaviour (which cells they read,
    which they overwrite). *)

From Stdlib Require Import ZArith List Lia Bool String QArith.
Import ListNotations.
Open Scope Z_scope.

(** * Part I: the model *)

(** ** Counted loops *)

(** [iter_from k i body s] runs [body i], [body (i+1)], ... [k] times. *)
Fixpoint iter_from {St : Type} (k : nat) (i : Z) (body : Z -> St -> St) (s : St) : St :=
  match k with
  | O => s
  | S k' => iter_from k' (i + 1) body (body i s)
  end.

(** [for (i = lo; i < hi; i++) body] *)
Definition for_loop {St : Type} (lo hi : Z) (body : Z -> St -> St) (s : St) : St :=
  iter_from (Z.to_nat (hi - lo)) lo body s.

(** The list [lo, lo+1, ..., lo+k-1]. *)
Fixpoint zrange (k : nat) (lo : Z) : list Z :=
  match k with
  | O => []
  | S k' => lo :: zrange k' (lo + 1)
  end.

(** [imin] and [imax] of [coreblas_internal.h]. *)
Definition imin (a b : Z) : Z := if a <? b then a else b.
Definition imax (a b : Z) : Z := if a >? b then a else b.

(** ** Interfaces for what the sources include but do not define *)

(** The scalar type of a precision ([coreblas_complex64_t] for [z]; the
    [d], [s] and [c] variants are generated from the same text). *)
Class Scalars : Type := {
  scalar : Type;
  czero : scalar;
  cone : scalar;
  conj : scalar -> scalar;
  cadd : scalar -> scalar -> scalar;
  cmul : scalar -> scalar -> scalar;
  ceqb : scalar -> scalar -> bool;
  (* the constant [-1.0] *)
  cmone : scalar
}.

(** The enumeration constants of [coreblas_types.h] and the position
    function [findVTpos] of [bulge.h], which returns
    [(vpos, taupos, tpos, blkid)]. *)
Class Headers : Type := {
  CoreBlasSuccess : Z;
  CoreBlasErrorNotSupported : Z;
  CoreBlasNoTrans : Z;
  CoreBlasTrans : Z;
  CoreBlasConjTrans : Z;
  CoreBlas_ConjTrans : Z;
  CoreBlasUpper : Z;
  CoreBlasLower : Z;
  CoreBlasLeft : Z;
  CoreBlasRight : Z;
  CoreBlasForward : Z;
  CoreBlasBackward : Z;
  CoreBlasColumnwise : Z;
  CoreBlasRowwise : Z;
  CoreBlasNonUnit : Z;
  findVTpos : Z -> Z -> Z -> Z -> Z -> Z * Z * Z * Z
}.

(** LAPACK's [side] character: ['L'] or ['R']. *)
Inductive lapack_side : Type := SideL | SideR.

(** The two LAPACK routines the bulge-chasing kernels call, as functions
    of the data they read.

    - [larfg n alpha x] is [(beta, v, tau)]: the new [alpha], the
      overwritten [x] (the [n-1] trailing entries of the reflector) and
      the scalar factor.
    - [larfx side m n v tau c] is the block [c] (list of columns)
      overwritten by [H*c] or [c*H], [H = I - tau v v^H].
    - [larfx_work] is what the call leaves in its scratch workspace. *)
Class Lapacke `{Scalars} : Type := {
  larfg : Z -> scalar -> list scalar -> scalar * list scalar * scalar;
  larfx : lapack_side -> Z -> Z -> list scalar -> scalar ->
          list (list scalar) -> list (list scalar);
  larfx_work : lapack_side -> Z -> Z -> list scalar -> scalar ->
               list (list scalar) -> list scalar
}.

(** ** Memory of the bulge-chasing kernels *)

(** The six buffers a bulge-chasing kernel receives; they are distinct
    allocations.  A pointer is a buffer with an element offset, so the
    pointer arithmetic of the source ([A + nb + lda*n + ...], [VP + m])
    is arithmetic on offsets, and nothing bounds an offset: an index out
    of range reads or writes the cell it names. *)
Inductive buffer : Type := BufA | BufVQ | BufTAUQ | BufVP | BufTAUP | BufWORK.

Definition buffer_eqb (a b : buffer) : bool :=
  match a, b with
  | BufA, BufA | BufVQ, BufVQ | BufTAUQ, BufTAUQ
  | BufVP, BufVP | BufTAUP, BufTAUP | BufWORK, BufWORK => true
  | _, _ => false
  end.

Definition ptr : Type := (buffer * Z)%type.

Definition ptr_add (p : ptr) (k : Z) : ptr := (fst p, snd p + k).

Definition ptr_eqb (p q : ptr) : bool :=
  buffer_eqb (fst p) (fst q) && (snd p =? snd q).

Definition mem `{Scalars} : Type := ptr -> scalar.

Definition load `{Scalars} (m : mem) (p : ptr) : scalar := m p.

Definition store `{Scalars} (m : mem) (p : ptr) (v : scalar) : mem :=
  fun q => if ptr_eqb q p then v else m q.

(** [memcpy(dst, src, cnt * sizeof(coreblas_complex64_t))].  A negative
    count (undefined in C, where it wraps to a huge [size_t]) copies
    nothing here. *)
Definition memcpy `{Scalars} (dst src : ptr) (cnt : Z) (m : mem) : mem :=
  for_loop 0 cnt (fun k m => store m (ptr_add dst k) (load m (ptr_add src k))) m.

(** [memset(dst, 0, cnt * sizeof(coreblas_complex64_t))] *)
Definition memset0 `{Scalars} (dst : ptr) (cnt : Z) (m : mem) : mem :=
  for_loop 0 cnt (fun k m => store m (ptr_add dst k) czero) m.

(** The [cnt] scalars starting at [p], increment 1. *)
Definition read_vec `{Scalars} (m : mem) (p : ptr) (cnt : Z) : list scalar :=
  map (fun k => load m (ptr_add p k)) (zrange (Z.to_nat cnt) 0).

Definition write_vec `{Scalars} (p : ptr) (cnt : Z) (l : list scalar) (m : mem) : mem :=
  for_loop 0 cnt (fun k m => store m (ptr_add p k) (nth (Z.to_nat k) l czero)) m.

(** A column-major [rows]-by-[cols] block with leading dimension [ld]
    starting at [p], as the list of its columns. *)
Definition read_block `{Scalars} (m : mem) (p : ptr) (ld rows cols : Z)
  : list (list scalar) :=
  map (fun j => map (fun i => load m (ptr_add p (i + j * ld)))
                    (zrange (Z.to_nat rows) 0))
      (zrange (Z.to_nat cols) 0).

Definition block_entry `{Scalars} (blk : list (list scalar)) (i j : Z) : scalar :=
  nth (Z.to_nat i) (nth (Z.to_nat j) blk []) czero.

Definition write_block `{Scalars} (p : ptr) (ld rows cols : Z)
  (blk : list (list scalar)) (m : mem) : mem :=
  for_loop 0 cols (fun j m =>
    for_loop 0 rows (fun i m =>
      store m (ptr_add p (i + j * ld)) (block_entry blk i j)) m) m.

(** ** The LAPACKE calls on memory *)

(** The three results of [larfg]. *)
Definition larfg_beta `{Scalars} (r : scalar * list scalar * scalar) : scalar := fst (fst r).
Definition larfg_v `{Scalars} (r : scalar * list scalar * scalar) : list scalar := snd (fst r).
Definition larfg_tau `{Scalars} (r : scalar * list scalar * scalar) : scalar := snd r.

(** [LAPACKE_zlarfg(n, &alpha, x, 1, tau)] with [alpha] a local variable:
    reads [alpha] and [x[0..n-2]], overwrites [x[0..n-2]] and [*tau];
    the new [alpha] is returned. *)
Definition LAPACKE_zlarfg `{Lapacke} (n : Z) (alpha : scalar) (x tau : ptr) (m : mem)
  : scalar * mem :=
  let '(beta, v, t) := larfg n alpha (read_vec m x (n - 1)) in
  (beta, store (write_vec x (n - 1) v m) tau t).

(** The same call with [alpha] in memory. *)
Definition LAPACKE_zlarfg_at `{Lapacke} (n : Z) (alpha x tau : ptr) (m : mem) : mem :=
  let '(beta, m') := LAPACKE_zlarfg n (load m alpha) x tau m in
  store m' alpha beta.

(** [LAPACKE_zlarfx(LAPACK_COL_MAJOR, side, m, n, v, tau, c, ldc, work)]:
    reads the reflector [v] (of order [m] on the left, [n] on the right)
    and the [m]-by-[n] block at [c]; overwrites that block and the
    workspace. *)
Definition LAPACKE_zlarfx `{Lapacke} (side : lapack_side) (rows cols : Z) (v : ptr)
  (tau : scalar) (c : ptr) (ldc : Z) (work : ptr) (m : mem) : mem :=
  let order := match side with SideL => rows | SideR => cols end in
  let wlen := match side with SideL => cols | SideR => rows end in
  let vv := read_vec m v order in
  let blk := read_block m c ldc rows cols in
  let m := write_block c ldc rows cols (larfx side rows cols vv tau blk) m in
  write_vec work wlen (larfx_work side rows cols vv tau blk) m.

(** ** Band and reflector addressing (the macros of the two kernels) *)

(** [#define AL(m_, n_) (A + nb + lda * (n_) + ((m_)-(n_)))] *)
Definition AL (nb lda : Z) (m_ n_ : Z) : ptr := (BufA, nb + lda * n_ + (m_ - n_)).

(** [#define AU(m_, n_) (A + nb + lda * (n_) + ((m_)-(n_)+nb))] *)
Definition AU (nb lda : Z) (m_ n_ : Z) : ptr := (BufA, nb + lda * n_ + (m_ - n_ + nb)).

Definition VQ (m_ : Z) : ptr := (BufVQ, m_).
Definition VP (m_ : Z) : ptr := (BufVP, m_).
Definition TAUQ (m_ : Z) : ptr := (BufTAUQ, m_).
Definition TAUP (m_ : Z) : ptr := (BufTAUP, m_).
Definition WORK : ptr := (BufWORK, 0).

(** The position of the reflector of column [p] in sweep [sweep]: the
    [if (wantz == 0) ... else findVTpos(...)] prologue that both kernels
    repeat.  [%] is C's remainder ([Z.rem]). *)
Definition reflector_pos `{Headers} (wantz n nb Vblksiz sweep p : Z) : Z * Z :=
  if wantz =? 0 then
    (Z.rem (sweep + 1) 2 * n + p, Z.rem (sweep + 1) 2 * n + p)
  else
    let '(vpos, taupos, _, _) := findVTpos n nb Vblksiz sweep p in
    (vpos, taupos).

(** ** [coreblas_zgbtype1cb]  (core_blas/core_zgbtype1cb.c) *)

Definition coreblas_zgbtype1cb `{Headers} `{Lapacke}
  (uplo n nb lda st ed sweep Vblksiz wantz : Z) (m : mem) : mem :=
  let '(vpos, taupos) := reflector_pos wantz n nb Vblksiz sweep st in
  let LDX := lda - 1 in
  let len := ed - st + 1 in
  if uplo =? CoreBlasUpper then
    (* Eliminate the row at st-1 *)
    let m := store m (VP vpos) cone in
    let m := for_loop 1 len (fun i m =>
               let m := store m (VP (vpos + i))
                              (conj (load m (AU nb lda (st - 1) (st + i)))) in
               store m (AU nb lda (st - 1) (st + i)) czero) m in
    let ctmp := conj (load m (AU nb lda (st - 1) st)) in
    let '(ctmp, m) := LAPACKE_zlarfg len ctmp (VP (vpos + 1)) (TAUP taupos) m in
    let m := store m (AU nb lda (st - 1) st) ctmp in
    (* Apply right on A(st:ed,st:ed) *)
    let ctmp := load m (TAUP taupos) in
    let m := LAPACKE_zlarfx SideR len len (VP vpos) ctmp (AU nb lda st st) LDX WORK m in
    (* Eliminate the created col at st *)
    let m := store m (VQ vpos) cone in
    let m := memcpy (VQ (vpos + 1)) (AU nb lda (st + 1) st) (len - 1) m in
    let m := memset0 (AU nb lda (st + 1) st) (len - 1) m in
    let m := LAPACKE_zlarfg_at len (AU nb lda st st) (VQ (vpos + 1)) (TAUQ taupos) m in
    let lenj := len - 1 in
    let ctmp := conj (load m (TAUQ taupos)) in
    LAPACKE_zlarfx SideL len lenj (VQ vpos) ctmp (AU nb lda st (st + 1)) LDX WORK m
  else
    (* Eliminate the col at st-1 *)
    let m := store m (VQ vpos) cone in
    let m := memcpy (VQ (vpos + 1)) (AL nb lda (st + 1) (st - 1)) (len - 1) m in
    let m := memset0 (AL nb lda (st + 1) (st - 1)) (len - 1) m in
    let m := LAPACKE_zlarfg_at len (AL nb lda st (st - 1)) (VQ (vpos + 1)) (TAUQ taupos) m in
    (* Apply left on A(st:ed,st:ed) *)
    let ctmp := conj (load m (TAUQ taupos)) in
    let m := LAPACKE_zlarfx SideL len len (VQ vpos) ctmp (AL nb lda st st) LDX WORK m in
    (* Eliminate the created row at st *)
    let m := store m (VP vpos) cone in
    let m := for_loop 1 len (fun i m =>
               let m := store m (VP (vpos + i))
                              (conj (load m (AL nb lda st (st + i)))) in
               store m (AL nb lda st (st + i)) czero) m in
    let ctmp := conj (load m (AL nb lda st st)) in
    let '(ctmp, m) := LAPACKE_zlarfg len ctmp (VP (vpos + 1)) (TAUP taupos) m in
    let m := store m (AL nb lda st st) ctmp in
    let lenj := len - 1 in
    let ctmp := load m (TAUP taupos) in
    LAPACKE_zlarfx SideR lenj len (VP vpos) ctmp (AL nb lda (st + 1) st) LDX WORK m.

(** ** [coreblas_zgbtype2cb]  (core_blas/core_zgbtype2cb.c) *)

Definition coreblas_zgbtype2cb `{Headers} `{Lapacke}
  (uplo n nb lda st ed sweep Vblksiz wantz : Z) (m : mem) : mem :=
  let LDX := lda - 1 in
  let J1 := ed + 1 in
  let J2 := imin (ed + nb) (n - 1) in
  let lem := ed - st + 1 in
  let len := J2 - J1 + 1 in
  if uplo =? CoreBlasUpper then
    let m :=
      if len >? 0 then
        let '(vpos, taupos) := reflector_pos wantz n nb Vblksiz sweep st in
        (* Apply remaining Left coming from type1/3_upper *)
        let ctmp := conj (load m (TAUQ taupos)) in
        LAPACKE_zlarfx SideL lem len (VQ vpos) ctmp (AU nb lda st J1) LDX WORK m
      else m in
    if len >? 1 then
      let '(vpos, taupos) := reflector_pos wantz n nb Vblksiz sweep J1 in
      (* Remove the top row of the created bulge *)
      let m := store m (VP vpos) cone in
      let m := for_loop 1 len (fun i m =>
                 let m := store m (VP (vpos + i))
                                (conj (load m (AU nb lda st (J1 + i)))) in
                 store m (AU nb lda st (J1 + i)) czero) m in
      (* Eliminate the row at st *)
      let ctmp := conj (load m (AU nb lda st J1)) in
      let '(ctmp, m) := LAPACKE_zlarfg len ctmp (VP (vpos + 1)) (TAUP taupos) m in
      let m := store m (AU nb lda st J1) ctmp in
      (* Apply Right on the rows st+1..ed of the block *)
      let lem := lem - 1 in
      let ctmp := load m (TAUP taupos) in
      LAPACKE_zlarfx SideR lem len (VP vpos) ctmp (AU nb lda (st + 1) J1) LDX WORK m
    else m
  else
    let m :=
      if len >? 0 then
        let '(vpos, taupos) := reflector_pos wantz n nb Vblksiz sweep st in
        (* Apply remaining Right coming from type1/3_lower *)
        let ctmp := load m (TAUP taupos) in
        LAPACKE_zlarfx SideR len lem (VP vpos) ctmp (AL nb lda J1 st) LDX WORK m
      else m in
    if len >? 1 then
      let '(vpos, taupos) := reflector_pos wantz n nb Vblksiz sweep J1 in
      (* Remove the first column of the created bulge *)
      let m := store m (VQ vpos) cone in
      let m := memcpy (VQ (vpos + 1)) (AL nb lda (J1 + 1) st) (len - 1) m in
      let m := memset0 (AL nb lda (J1 + 1) st) (len - 1) m in
      (* Eliminate the col at st *)
      let m := LAPACKE_zlarfg_at len (AL nb lda J1 st) (VQ (vpos + 1)) (TAUQ taupos) m in
      (* Apply left on the columns st+1..ed of the block *)
      let lem := lem - 1 in
      let ctmp := conj (load m (TAUQ taupos)) in
      LAPACKE_zlarfx SideL len lem (VQ vpos) ctmp (AL nb lda J1 (st + 1)) LDX WORK m
    else m.

(** ** Tile kernels that validate their arguments *)

(** The tile kernels receive arrays by pointer.  An array is the map from
    element index to scalar; a pointer argument that the kernel compares
    with [NULL] is an optional array.  A kernel returns its [int] result,
    the messages it passed to [coreblas_error], and the arrays it may
    write. *)
Definition array `{Scalars} : Type := Z -> scalar.

Definition aset `{Scalars} (a : array) (i : Z) (v : scalar) : array :=
  fun j => if j =? i then v else a j.

Definition is_null `{Scalars} (p : option array) : bool :=
  match p with None => true | Some _ => false end.

(** The array behind a pointer that has been checked against [NULL]. *)
Definition deref `{Scalars} (p : option array) : array :=
  match p with Some a => a | None => fun _ => czero end.

Record outcome (B : Type) : Type := mk_outcome {
  ret : Z;
  errors : list string;
  out : B
}.

Arguments mk_outcome {B} _ _ _.
Arguments ret {B} _.
Arguments errors {B} _.
Arguments out {B} _.

(** [coreblas_error(msg); return code;] with the output arrays as they are. *)
Definition fail {B : Type} (code : Z) (msg : string) (bufs : B) : outcome B :=
  mk_outcome code [msg] bufs.

(** [return code;] *)
Definition done {B : Type} (code : Z) (bufs : B) : outcome B :=
  mk_outcome code [] bufs.

(** The parameter a [coreblas_error] message blames: the messages of the
    kernels read [illegal value of p], [NULL p], or, for a pair that does
    not go together, [Illegal values of p'/p]. *)
Definition error_names (msg p : string) : Prop :=
  (msg = "illegal value of " ++ p
   \/ msg = "Illegal value of " ++ p
   \/ msg = "NULL " ++ p
   \/ exists p', msg = "Illegal values of " ++ p' ++ "/" ++ p)%string.

(** A kernel rejected its arguments: it reported an error through
    [coreblas_error]. *)
Definition rejected {B : Type} (r : outcome B) : Prop := errors r <> [].

(** The result blames the parameter at position [- ret r] of the
    signature [params] (counted from one), and the arrays are as they
    were passed. *)
Definition blames_position {B : Type} (params : list string) (bufs : B)
  (r : outcome B) : Prop :=
  ret r < 0
  /\ out r = bufs
  /\ forall msg, In msg (errors r) ->
       exists p, nth_error params (Z.to_nat (- ret r - 1)) = Some p
                 /\ error_names msg p.

(** The CBLAS routines and the library's own [coreblas_zparfb] (whose
    callee [coreblas_zpamm] is defined elsewhere), as functions from
    the arrays they read to the arrays they write.  An argument
    [&X[off]] is passed as the array [X] and the offset [off]. *)
Class Cblas `{Scalars} : Type := {
  CblasNoTrans : Z;
  CblasConjTrans : Z;
  CblasRight : Z;
  CblasUpper : Z;
  CblasNonUnit : Z;
  (* n, X, incX, Y, incY |-> Y *)
  cblas_zcopy : Z -> array -> Z -> Z -> array -> Z -> Z -> array;
  (* n, alpha, X, incX |-> X *)
  cblas_zscal : Z -> scalar -> array -> Z -> Z -> array;
  (* n, alpha, X, incX, Y, incY |-> Y *)
  cblas_zaxpy : Z -> scalar -> array -> Z -> Z -> array -> Z -> Z -> array;
  (* uplo, trans, diag, n, A, lda, X, incX |-> X *)
  cblas_ztrmv : Z -> Z -> Z -> Z -> array -> Z -> Z -> array -> Z -> Z -> array;
  (* trans, m, n, alpha, A, lda, X, incX, beta, Y, incY |-> Y *)
  cblas_zgemv : Z -> Z -> Z -> scalar -> array -> Z -> Z -> array -> Z -> Z ->
                scalar -> array -> Z -> Z -> array;
  (* transA, transB, m, n, k, alpha, A, lda, B, ldb, beta, C, ldc |-> C *)
  cblas_zgemm : Z -> Z -> Z -> Z -> Z -> scalar -> array -> Z -> array -> Z ->
                scalar -> array -> Z -> array;
  (* side, uplo, trans, diag, m, n, alpha, A, lda, B, ldb |-> B *)
  cblas_ztrmm : Z -> Z -> Z -> Z -> Z -> Z -> scalar -> array -> Z -> array -> Z ->
                array;
  (* side, trans, direct, storev, m1, n1, m2, n2, k, l,
     A1 (with offset), lda1, A2, lda2, V (with offset), ldv,
     T (with offset), ldt, work, ldwork |-> result, A1, A2, work *)
  coreblas_zparfb : Z -> Z -> Z -> Z -> Z -> Z -> Z -> Z -> Z -> Z ->
                    array -> Z -> Z -> array -> Z -> array -> Z -> Z ->
                    array -> Z -> Z -> array -> Z ->
                    Z * (array * array * array)
}.

(** *** [coreblas_ztradd]  (core_blas/core_ztradd.c) *)


Definition coreblas_ztradd `{Scalars} `{Headers}
  (uplo transa m n : Z) (alpha : scalar) (A : option array) (lda : Z)
  (beta : scalar) (B : option array) (ldb : Z) : outcome (option array) :=
  (* Check input arguments *)
  if negb (uplo =? CoreBlasUpper) && negb (uplo =? CoreBlasLower) then
    fail (-1) "illegal value of uplo" B
  else if negb (transa =? CoreBlasNoTrans) && negb (transa =? CoreBlasTrans)
          && negb (transa =? CoreBlasConjTrans) then
    fail (-2) "illegal value of transa" B
  else if m <? 0 then fail (-3) "illegal value of m" B
  else if n <? 0 then fail (-4) "illegal value of n" B
  else if is_null A then fail (-6) "NULL A" B
  else if ((transa =? CoreBlasNoTrans) && (lda <? imax 1 m) && (m >? 0))
          || (negb (transa =? CoreBlasNoTrans) && (lda <? imax 1 n) && (n >? 0)) then
    fail (-7) "illegal value of lda" B
  else if is_null B then fail (-9) "NULL B" B
  else if (ldb <? imax 1 m) && (m >? 0) then fail (-10) "illegal value of ldb" B
  (* quick return *)
  else if (m =? 0) || (n =? 0) || (ceqb alpha czero && ceqb beta cone) then
    done CoreBlasSuccess B
  else
    let a := deref A in
    let upd (src : Z -> Z -> scalar) (i j : Z) (b : array) : array :=
      aset b (ldb * j + i) (cadd (cmul beta (b (ldb * j + i))) (cmul alpha (src i j))) in
    let src : Z -> Z -> scalar :=
      if transa =? CoreBlasConjTrans then fun i j => conj (a (lda * i + j))
      else if transa =? CoreBlasTrans then fun i j => a (lda * i + j)
      else fun i j => a (lda * j + i) in
    let b :=
      if uplo =? CoreBlasLower then
        for_loop 0 n (fun j b => for_loop j m (fun i b => upd src i j b) b) (deref B)
      else
        for_loop 0 n (fun j b =>
          for_loop 0 (imin (j + 1) m) (fun i b => upd src i j b) b) (deref B) in
    done CoreBlasSuccess (Some b).

(** *** [coreblas_zpemv]  (core_blas/core_zpemv.c) *)


(** The update of the [l] top rows of [y] that the two storage cases
    share once [w] is in [work]: [y_1 = beta*y_1 + alpha*w]. *)
Definition zpemv_top `{Cblas} (l : Z) (alpha beta : scalar) (incy : Z)
  (yw : array * array) : array * array :=
  let '(Y, work) := yw in
  if ceqb beta czero then
    let work := cblas_zscal l alpha work 0 1 in
    (cblas_zcopy l work 0 1 Y 0 incy, work)
  else
    let Y := cblas_zscal l beta Y 0 incy in
    (cblas_zaxpy l alpha work 0 1 Y 0 incy, work).

Definition coreblas_zpemv `{Headers} `{Cblas}
  (trans storev m n l : Z) (alpha : scalar) (A : array) (lda : Z)
  (X : array) (incx : Z) (beta : scalar) (Y : array) (incy : Z) (work : array)
  : outcome (array * array) :=
  (* Check input arguments. *)
  if negb (trans =? CoreBlasNoTrans) && negb (trans =? CoreBlasTrans)
     && negb (trans =? CoreBlasConjTrans) then
    fail (-1) "Illegal value of trans" (Y, work)
  else if negb (storev =? CoreBlasColumnwise) && negb (storev =? CoreBlasRowwise) then
    fail (-2) "Illegal value of storev" (Y, work)
  else if negb (((storev =? CoreBlasColumnwise) && negb (trans =? CoreBlasNoTrans))
                || ((storev =? CoreBlasRowwise) && (trans =? CoreBlasNoTrans))) then
    fail (-2) "Illegal values of trans/storev" (Y, work)
  else if m <? 0 then fail (-3) "Illegal value of m" (Y, work)
  else if n <? 0 then fail (-4) "Illegal value of n" (Y, work)
  else if l >? imin m n then fail (-5) "Illegal value of l" (Y, work)
  else if lda <? imax 1 m then fail (-8) "Illegal value of lda" (Y, work)
  else if incx <? 1 then fail (-10) "Illegal value of incx" (Y, work)
  else if incy <? 1 then fail (-13) "Illegal value of incy" (Y, work)
  (* quick return *)
  else if (m =? 0) || (n =? 0) then done CoreBlasSuccess (Y, work)
  else if ceqb alpha czero && ceqb beta czero then done CoreBlasSuccess (Y, work)
  else
    (* If l < 2, there is no triangular part. *)
    let l := if l =? 1 then 0 else l in
    if storev =? CoreBlasColumnwise then
      if trans =? CoreBlasNoTrans then
        fail (-1) "CoreBlasNoTrans/CoreBlasColumnwise not implemented" (Y, work)
      else
        (* l top rows of y *)
        let yw :=
          if l >? 0 then
            (* w = A_2^H * x_2 *)
            let work := cblas_zcopy l X (incx * (m - l)) incx work 0 1 in
            let work := cblas_ztrmv CoreBlasUpper trans CoreBlasNonUnit l
                                    A (m - l) lda work 0 1 in
            if m >? l then
              (* y_1 = beta * y_1 [ + alpha * A_1 * x_1 ] *)
              let Y := cblas_zgemv trans (m - l) l alpha A 0 lda X 0 incx
                                   beta Y 0 incy in
              (* y_1 = y_1 + alpha * w *)
              (cblas_zaxpy l alpha work 0 1 Y 0 incy, work)
            else zpemv_top l alpha beta incy (Y, work)
          else (Y, work) in
        (* n-l bottom rows of Y *)
        let '(Y, work) := yw in
        if n >? l then
          let k := n - l in
          done CoreBlasSuccess
               (cblas_zgemv trans m k alpha A (lda * l) lda X 0 incx
                            beta Y (incy * l) incy, work)
        else done CoreBlasSuccess (Y, work)
    else
      if trans =? CoreBlasNoTrans then
        (* l top rows of A and y *)
        let yw :=
          if l >? 0 then
            (* w = A_2 * x_2 *)
            let work := cblas_zcopy l X (incx * (n - l)) incx work 0 1 in
            let work := cblas_ztrmv CoreBlasLower CoreBlasNoTrans CoreBlasNonUnit l
                                    A (lda * (n - l)) lda work 0 1 in
            if n >? l then
              let Y := cblas_zgemv CoreBlasNoTrans l (n - l) alpha A 0 lda X 0 incx
                                   beta Y 0 incy in
              (cblas_zaxpy l alpha work 0 1 Y 0 incy, work)
            else zpemv_top l alpha beta incy (Y, work)
          else (Y, work) in
        (* m-l bottom rows of Y *)
        let '(Y, work) := yw in
        if m >? l then
          done CoreBlasSuccess
               (cblas_zgemv CoreBlasNoTrans (m - l) n alpha A l lda X 0 incx
                            beta Y (incy * l) incy, work)
        else done CoreBlasSuccess (Y, work)
      else
        fail (-1) "CoreBlas[Conj]Trans/CoreBlasRowwise not implemented" (Y, work).

(** *** [coreblas_ztsmqr] *)


(** [for (int i = i1; i > -1 && i < k; i += i3) body].  Past the quick
    return [ib >= 1], so [i] moves by at least one inside [0, k) and
    [Z.to_nat k] rounds suffice. *)
Fixpoint ztsmqr_loop {St : Type} (fuel : nat) (i i3 k : Z) (body : Z -> St -> St)
  (s : St) : St :=
  match fuel with
  | O => s
  | S fuel' =>
      if (i >? -1) && (i <? k) then ztsmqr_loop fuel' (i + i3) i3 k body (body i s)
      else s
  end.

Definition coreblas_ztsmqr `{Headers} `{Cblas}
  (side trans m1 n1 m2 n2 k ib : Z)
  (A1 : option array) (lda1 : Z) (A2 : option array) (lda2 : Z)
  (V : option array) (ldv : Z) (T : option array) (ldt : Z)
  (work : option array) (ldwork : Z)
  : outcome (option array * option array * option array) :=
  let bufs := (A1, A2, work) in
  (* Check input arguments. *)
  if negb (side =? CoreBlasLeft) && negb (side =? CoreBlasRight) then
    fail (-1) "illegal value of side" bufs
  else if negb (trans =? CoreBlasNoTrans) && negb (trans =? CoreBlas_ConjTrans) then
    fail (-2) "illegal value of trans" bufs
  else if m1 <? 0 then fail (-3) "illegal value of m1" bufs
  else if n1 <? 0 then fail (-4) "illegal value of n1" bufs
  else if (m2 <? 0) || (negb (m2 =? m1) && (side =? CoreBlasRight)) then
    fail (-5) "illegal value of m2" bufs
  else if (n2 <? 0) || (negb (n2 =? n1) && (side =? CoreBlasLeft)) then
    fail (-6) "illegal value of n2" bufs
  else if (k <? 0) || ((side =? CoreBlasLeft) && (k >? m1))
          || ((side =? CoreBlasRight) && (k >? n1)) then
    fail (-7) "illegal value of k" bufs
  else if ib <? 0 then fail (-8) "illegal value of ib" bufs
  else if is_null A1 then fail (-9) "NULL A1" bufs
  else if lda1 <? imax 1 m1 then fail (-10) "illegal value of lda1" bufs
  else if is_null A2 then fail (-11) "NULL A2" bufs
  else if lda2 <? imax 1 m2 then fail (-12) "illegal value of lda2" bufs
  else if is_null V then fail (-13) "NULL V" bufs
  else if ldv <? imax 1 (if side =? CoreBlasLeft then m2 else n2) then
    fail (-14) "illegal value of ldv" bufs
  else if is_null T then fail (-15) "NULL T" bufs
  else if ldt <? imax 1 ib then fail (-16) "illegal value of ldt" bufs
  else if is_null work then fail (-17) "NULL work" bufs
  else if ldwork <? imax 1 (if side =? CoreBlasLeft then ib else m1) then
    fail (-18) "illegal value of ldwork" bufs
  (* quick return *)
  else if (m1 =? 0) || (n1 =? 0) || (m2 =? 0) || (n2 =? 0) || (k =? 0) || (ib =? 0) then
    done CoreBlasSuccess bufs
  else
    let '(i1, i3) :=
      if ((side =? CoreBlasLeft) && negb (trans =? CoreBlasNoTrans))
         || ((side =? CoreBlasRight) && (trans =? CoreBlasNoTrans))
      then (0, ib)
      else (Z.quot (k - 1) ib * ib, - ib) in
    let body (i : Z) (s : array * array * array) : array * array * array :=
      let '(a1, a2, w) := s in
      let kb := imin ib (k - i) in
      let '(ic, jc, mi, ni) :=
        if side =? CoreBlasLeft then (i, 0, m1 - i, n1) else (0, i, m1, n1 - i) in
      (* Apply H or H^H; the result code is dropped *)
      snd (coreblas_zparfb side trans CoreBlasForward CoreBlasColumnwise
                           mi ni m2 n2 kb 0
                           a1 (lda1 * jc + ic) lda1 a2 lda2
                           (deref V) (ldv * i) ldv (deref T) (ldt * i) ldt
                           w ldwork) in
    let '(a1, a2, w) :=
      ztsmqr_loop (Z.to_nat k) i1 i3 k body (deref A1, deref A2, deref work) in
    done CoreBlasSuccess (Some a1, Some a2, Some w).

(** *** [coreblas_zlarfb_gemm] *)

Definition coreblas_zlarfb_gemm `{Headers} `{Cblas}
  (side trans direct storev M N K : Z) (V : array) (LDV : Z) (T : array) (LDT : Z)
  (C : array) (LDC : Z) (WORK : array) (LDWORK : Z) : outcome (array * array) :=
  (* Quick return *)
  if (M =? 0) || (N =? 0) || (K =? 0) then done CoreBlasSuccess (C, WORK)
  else
    (* For Left case, switch the trans. noswitch for right case *)
    let trans :=
      if side =? CoreBlasLeft then
        if trans =? CoreBlasNoTrans then CoreBlasConjTrans else CoreBlasNoTrans
      else trans in
    if storev =? CoreBlasColumnwise then
      if direct =? CoreBlasForward then
        if side =? CoreBlasLeft then
          (* W := C' * V *)
          let WORK := cblas_zgemm CblasConjTrans CblasNoTrans N K M
                                  cone C LDC V LDV czero WORK LDWORK in
          (* W := W * T'  or  W * T *)
          let WORK := cblas_ztrmm CblasRight CblasUpper trans CblasNonUnit N K
                                  cone T LDT WORK LDWORK in
          (* C := C - V * W' *)
          let C := cblas_zgemm CblasNoTrans CblasConjTrans M N K
                               cmone V LDV WORK LDWORK cone C LDC in
          done CoreBlasSuccess (C, WORK)
        else
          (* W := C * V *)
          let WORK := cblas_zgemm CblasNoTrans CblasNoTrans M K N
                                  cone C LDC V LDV czero WORK LDWORK in
          (* W := W * T  or  W * T' *)
          let WORK := cblas_ztrmm CblasRight CblasUpper trans CblasNonUnit M K
                                  cone T LDT WORK LDWORK in
          (* C := C - W * V' *)
          let C := cblas_zgemm CblasNoTrans CblasConjTrans M N K
                               cmone WORK LDWORK V LDV cone C LDC in
          done CoreBlasSuccess (C, WORK)
      else
        (* Columnwise / Backward / Left or Right *)
        done CoreBlasErrorNotSupported (C, WORK)
    else
      if direct =? CoreBlasForward then
        (* Rowwise / Forward / Left or Right *)
        done CoreBlasErrorNotSupported (C, WORK)
      else
        (* Rowwise / Backward / Left or Right *)
        done CoreBlasErrorNotSupported (C, WORK).

(** *** The checks as tables *)

(** The position of the first argument that a table of checks calls
    illegal. *)
Definition first_illegal (checks : list (Z * bool)) : option Z :=
  option_map fst (find snd checks).



(** The arguments [coreblas_ztsmqr] calls illegal, by position. *)
Definition ztsmqr_illegal `{Scalars} `{Headers} (side trans m1 n1 m2 n2 k ib : Z)
  (A1 : option array) (lda1 : Z) (A2 : option array) (lda2 : Z)
  (V : option array) (ldv : Z) (T : option array) (ldt : Z)
  (work : option array) (ldwork : Z) : list (Z * bool) :=
  [ (1, negb (side =? CoreBlasLeft) && negb (side =? CoreBlasRight));
    (2, negb (trans =? CoreBlasNoTrans) && negb (trans =? CoreBlas_ConjTrans));
    (3, m1 <? 0);
    (4, n1 <? 0);
    (5, (m2 <? 0) || (negb (m2 =? m1) && (side =? CoreBlasRight)));
    (6, (n2 <? 0) || (negb (n2 =? n1) && (side =? CoreBlasLeft)));
    (7, (k <? 0) || ((side =? CoreBlasLeft) && (k >? m1))
        || ((side =? CoreBlasRight) && (k >? n1)));
    (8, ib <? 0);
    (9, is_null A1);
    (10, lda1 <? imax 1 m1);
    (11, is_null A2);
    (12, lda2 <? imax 1 m2);
    (13, is_null V);
    (14, ldv <? imax 1 (if side =? CoreBlasLeft then m2 else n2));
    (15, is_null T);
    (16, ldt <? imax 1 ib);
    (17, is_null work);
    (18, ldwork <? imax 1 (if side =? CoreBlasLeft then ib else m1)) ].

(** A kernel charges the first illegal argument of its table: it returns
    minus its position with the arrays as passed, and it rejects nothing
    else. *)
Definition charges_first {B : Type} (checks : list (Z * bool)) (bufs : B)
  (r : outcome B) : Prop :=
  match first_illegal checks with
  | Some i => rejected r /\ ret r = - i /\ out r = bufs
  | None => ~ rejected r
  end.

(** ** The kernels on the logical band matrix (design document, 4.2 and 4.3)

    The design document describes the two kernels by rows, columns and
    blocks of the logical matrix.  The definitions of this section follow
    that description: a [view] ([AU nb lda] or [AL nb lda]) maps a logical
    position [(row, col)] to its cell, and every step names the logical
    positions it touches. *)

(** Rows [r0 .. r0+rows-1], columns [c0 .. c0+cols-1], as columns. *)
Definition read_rect `{Scalars} (view : Z -> Z -> ptr) (m : mem) (r0 c0 rows cols : Z)
  : list (list scalar) :=
  map (fun j => map (fun i => load m (view (r0 + i) (c0 + j)))
                    (zrange (Z.to_nat rows) 0))
      (zrange (Z.to_nat cols) 0).

Definition write_rect `{Scalars} (view : Z -> Z -> ptr) (r0 c0 rows cols : Z)
  (blk : list (list scalar)) (m : mem) : mem :=
  for_loop 0 cols (fun j m =>
    for_loop 0 rows (fun i m =>
      store m (view (r0 + i) (c0 + j)) (block_entry blk i j)) m) m.

(** Apply the reflector [(v, tau)] from the left or from the right to the
    [rows]-by-[cols] rectangle whose top left corner is [(r0, c0)]. *)
Definition apply_reflector `{Lapacke} (side : lapack_side) (view : Z -> Z -> ptr)
  (r0 c0 rows cols : Z) (v : ptr) (tau : scalar) (m : mem) : mem :=
  let order := match side with SideL => rows | SideR => cols end in
  let wlen := match side with SideL => cols | SideR => rows end in
  let vv := read_vec m v order in
  let blk := read_rect view m r0 c0 rows cols in
  let m := write_rect view r0 c0 rows cols (larfx side rows cols vv tau blk) m in
  write_vec WORK wlen (larfx_work side rows cols vv tau blk) m.

(** Entry by entry, move row [r], columns [c0+1 .. c0+len-1], conjugated,
    into the cells behind [v], and set it to zero. *)
Definition row_loop `{Scalars} (view : Z -> Z -> ptr) (r c0 len : Z) (v : ptr)
  (m : mem) : mem :=
  for_loop 1 len (fun k m =>
    let m := store m (ptr_add v k) (conj (load m (view r (c0 + k)))) in
    store m (view r (c0 + k)) czero) m.

(** Eliminate row [r] right of the pivot [(r, c0)]: the entries
    [(r, c0+1) .. (r, c0+len-1)] go, conjugated, behind the leading [1]
    of the reflector vector at [v] and are set to zero; [larfg] then
    produces the scalar at [tau] and the new pivot. *)
Definition eliminate_row `{Lapacke} (view : Z -> Z -> ptr) (r c0 len : Z)
  (v tau : ptr) (m : mem) : mem :=
  let m := store m v cone in
  let m := row_loop view r c0 len v m in
  let '(beta, m) := LAPACKE_zlarfg len (conj (load m (view r c0))) (ptr_add v 1) tau m in
  store m (view r c0) beta.

(** Eliminate column [c] below the pivot [(r0, c)]: the entries
    [(r0+1, c) .. (r0+len-1, c)] are copied behind the leading [1] of the
    reflector vector at [v], then set to zero; [larfg] then produces the
    scalar at [tau] and the new pivot. *)
Definition eliminate_col `{Lapacke} (view : Z -> Z -> ptr) (r0 c len : Z)
  (v tau : ptr) (m : mem) : mem :=
  let m := store m v cone in
  let m := for_loop 1 len (fun k m =>
             store m (ptr_add v k) (load m (view (r0 + k) c))) m in
  let m := for_loop 1 len (fun k m => store m (view (r0 + k) c) czero) m in
  LAPACKE_zlarfg_at len (view r0 c) (ptr_add v 1) tau m.

(** Section 4.2, upper case, steps 1 to 5. *)
Definition type1_upper_steps `{Lapacke} (nb lda st ed vpos taupos : Z) (m : mem) : mem :=
  let len := ed - st + 1 in
  let A := AU nb lda in
  (* 1, 2: eliminate row st-1, columns st+1..ed; pivot (st-1, st) *)
  let m := eliminate_row A (st - 1) st len (VP vpos) (TAUP taupos) m in
  (* 3: apply from the right to A(st:ed, st:ed) *)
  let m := apply_reflector SideR A st st len len (VP vpos) (load m (TAUP taupos)) m in
  (* 4: eliminate the created column st, rows st+1..ed *)
  let m := eliminate_col A st st len (VQ vpos) (TAUQ taupos) m in
  (* 5: apply from the left to A(st:ed, st+1:ed) *)
  apply_reflector SideL A st (st + 1) len (len - 1) (VQ vpos)
                  (conj (load m (TAUQ taupos))) m.

(** Section 4.2, lower case: the transposed mirror. *)
Definition type1_lower_steps `{Lapacke} (nb lda st ed vpos taupos : Z) (m : mem) : mem :=
  let len := ed - st + 1 in
  let A := AL nb lda in
  let m := eliminate_col A st (st - 1) len (VQ vpos) (TAUQ taupos) m in
  let m := apply_reflector SideL A st st len len (VQ vpos)
                           (conj (load m (TAUQ taupos))) m in
  let m := eliminate_row A st st len (VP vpos) (TAUP taupos) m in
  apply_reflector SideR A (st + 1) st (len - 1) len (VP vpos) (load m (TAUP taupos)) m.

(** Section 4.3, step 1: apply the reflector stored for [(sweep, st)],
    found at [(vpos, taupos)], to the rectangle between the window
    [[st, ed]] and the next block [[J1, J2]]: rows [st..ed] by columns
    [J1..J2] from the left in the upper case, rows [J1..J2] by columns
    [st..ed] from the right in the lower case. *)
Definition type2_apply_pending `{Headers} `{Lapacke}
  (uplo n nb lda st ed vpos taupos : Z) (m : mem) : mem :=
  let J1 := ed + 1 in
  let J2 := imin (ed + nb) (n - 1) in
  if uplo =? CoreBlasUpper then
    apply_reflector SideL (AU nb lda) st J1 (ed - st + 1) (J2 - J1 + 1)
                    (VQ vpos) (conj (load m (TAUQ taupos))) m
  else
    apply_reflector SideR (AL nb lda) J1 st (J2 - J1 + 1) (ed - st + 1)
                    (VP vpos) (load m (TAUP taupos)) m.

(** The block that [larfx] returns for the pending reflector and the
    rectangle as the call finds them. *)
Definition type2_pending_block `{Headers} `{Lapacke}
  (uplo n nb lda st ed vpos taupos : Z) (m : mem) : list (list scalar) :=
  let J1 := ed + 1 in
  let J2 := imin (ed + nb) (n - 1) in
  if uplo =? CoreBlasUpper then
    larfx SideL (ed - st + 1) (J2 - J1 + 1)
          (read_vec m (VQ vpos) (ed - st + 1)) (conj (load m (TAUQ taupos)))
          (read_rect (AU nb lda) m st J1 (ed - st + 1) (J2 - J1 + 1))
  else
    larfx SideR (J2 - J1 + 1) (ed - st + 1)
          (read_vec m (VP vpos) (ed - st + 1)) (load m (TAUP taupos))
          (read_rect (AL nb lda) m J1 st (J2 - J1 + 1) (ed - st + 1)).

(** Section 4.3, step 2: generate the reflector of column [J1], stored at
    [(vpos, taupos)], from the newly exposed row (upper) or column
    (lower) and apply it to the rest of the rectangle. *)
Definition type2_generate_next `{Headers} `{Lapacke}
  (uplo n nb lda st ed vpos taupos : Z) (m : mem) : mem :=
  let J1 := ed + 1 in
  let J2 := imin (ed + nb) (n - 1) in
  if uplo =? CoreBlasUpper then
    let m := eliminate_row (AU nb lda) st J1 (J2 - J1 + 1) (VP vpos) (TAUP taupos) m in
    apply_reflector SideR (AU nb lda) (st + 1) J1 (ed - st) (J2 - J1 + 1)
                    (VP vpos) (load m (TAUP taupos)) m
  else
    let m := eliminate_col (AL nb lda) J1 st (J2 - J1 + 1) (VQ vpos) (TAUQ taupos) m in
    apply_reflector SideL (AL nb lda) J1 (st + 1) (J2 - J1 + 1) (ed - st)
                    (VQ vpos) (conj (load m (TAUQ taupos))) m.

(** The two phases under their guards. *)
Definition type2_phases `{Headers} `{Lapacke}
  (uplo n nb lda st ed : Z) (pos_st pos_J1 : Z * Z) (m : mem) : mem :=
  let len := imin (ed + nb) (n - 1) - (ed + 1) + 1 in
  let m1 := if len >? 0
            then type2_apply_pending uplo n nb lda st ed (fst pos_st) (snd pos_st) m
            else m in
  if len >? 1
  then type2_generate_next uplo n nb lda st ed (fst pos_J1) (snd pos_J1) m1
  else m1.

(** ** The band *)

(** The active triangle's band of half-width [nb]: [row <= col <= row+nb]
    when the upper triangle is stored, [col <= row <= col+nb] when the
    lower one is. *)
Definition in_band_upper (nb i j : Z) : Prop := i <= j <= i + nb.
Definition in_band_lower (nb i j : Z) : Prop := j <= i <= j + nb.

(** The positions that the [(3*nb+1)]-by-[n] buffer holds under each
    view: the row offset inside column [j] lies in [0 .. 3*nb]. *)
Definition held_upper (n nb i j : Z) : Prop :=
  0 <= i < n /\ 0 <= j < n /\ - (2 * nb) <= i - j <= nb.
Definition held_lower (n nb i j : Z) : Prop :=
  0 <= i < n /\ 0 <= j < n /\ - nb <= i - j <= 2 * nb.

(** A valid type-1 call. *)
Definition type1_valid (n nb lda st ed : Z) : Prop :=
  1 <= nb /\ 3 * nb + 1 <= lda /\ 1 <= st /\ st <= ed /\ ed < n /\ ed - st + 1 <= nb.

(** The triangular bulge a type-1 call leaves in its diagonal block:
    below the diagonal and right of column [st] in the upper case, its
    mirror image in the lower case. *)
Definition type1_bulge (upper : bool) (st ed i j : Z) : Prop :=
  if upper then st + 1 <= j /\ j < i /\ i <= ed
  else st + 1 <= i /\ i < j /\ j <= ed.

(** The row (upper case) or column (lower case) [st - 1] that a type-1
    call eliminates. *)
Definition type1_line (upper : bool) (st i j : Z) : Prop :=
  if upper then i = st - 1 else j = st - 1.

(** A reflector pair sits at [(v, tau)]: a leading one, then the vector
    and the scalar that [larfg] returned for some column of order [len]. *)
Definition reflector_at `{Lapacke} (len : Z) (v tau : ptr) (m : mem) : Prop :=
  exists (alpha : scalar) (x : list scalar),
    load m v = cone
    /\ (forall k, 0 <= k < len - 1 ->
          load m (ptr_add v (1 + k))
          = nth (Z.to_nat k) (larfg_v (larfg len alpha x)) czero)
    /\ load m tau = larfg_tau (larfg len alpha x).

(** ** A concrete instance: exact real arithmetic

    For running the kernels on concrete matrices the interfaces are
    instantiated with the rationals, every value kept in lowest terms so
    that equal numbers are equal terms.  This is the real precision
    (conjugation is the identity) without rounding.  The reflector
    routines follow LAPACK's [dlarfg] and [dlarfx]; [Qsqrt] is exact on
    squares of rationals, and the concrete runs below only take roots of
    such squares (lemma [bulge_run_roots_exact]). *)

Definition Qsqrt (q : Q) : Q :=
  let r := Qred q in Z.sqrt (Qnum r) # Pos.sqrt (Qden r).

Definition Qdot (u v : list Q) : Q :=
  fold_left (fun acc p => Qred (acc + fst p * snd p)) (combine u v) 0%Q.

Definition Q_scalars : Scalars :=
  {| scalar := Q;
     czero := 0%Q;
     cone := 1%Q;
     conj := fun x => x;
     cadd := fun x y => Qred (x + y);
     cmul := fun x y => Qred (x * y);
     ceqb := Qeq_bool;
     cmone := (-1)%Q |}.

(** [dlarfg]: [beta = -sign(alpha) * sqrt(alpha^2 + |x|^2)],
    [tau = (beta - alpha) / beta], [v = x / (alpha - beta)]; [H = I]
    when [n <= 1] or [x = 0]. *)
Definition Q_larfg (n : Z) (alpha : Q) (x : list Q) : Q * list Q * Q :=
  if n <=? 1 then (alpha, x, 0%Q)
  else if Qeq_bool (Qdot x x) 0 then (alpha, x, 0%Q)
  else
    let nrm := Qsqrt (alpha * alpha + Qdot x x) in
    let beta := if Qle_bool 0 alpha then Qred (- nrm) else nrm in
    (beta, map (fun xi => Qred (xi / (alpha - beta))) x, Qred ((beta - alpha) / beta)).

(** [c - tau * v * (v^T c)] column by column on the left,
    [c - tau * (c v) * v^T] on the right. *)
Definition Q_larfx_work (side : lapack_side) (rows cols : Z) (v : list Q) (tau : Q)
  (c : list (list Q)) : list Q :=
  match side with
  | SideL => map (fun col => Qdot v col) c
  | SideR =>
      map (fun i => Qdot v (map (fun col => nth i col 0%Q) c))
          (seq 0 (Z.to_nat rows))
  end.

Definition Q_larfx (side : lapack_side) (rows cols : Z) (v : list Q) (tau : Q)
  (c : list (list Q)) : list (list Q) :=
  let w := Q_larfx_work side rows cols v tau c in
  match side with
  | SideL =>
      map (fun cw => map (fun cv => Qred (fst cv - tau * snd cv * snd cw))
                         (combine (fst cw) v))
          (combine c w)
  | SideR =>
      map (fun cv => map (fun cu => Qred (fst cu - tau * snd cu * snd cv))
                         (combine (fst cv) w))
          (combine c v)
  end.

Definition Q_lapacke : @Lapacke Q_scalars :=
  @Build_Lapacke Q_scalars Q_larfg Q_larfx Q_larfx_work.

(** Distinct values for the enumeration constants (the customary LAPACK
    numbering).  The position function given here only serves runs in
    values-only mode, which never call it. *)
Definition sample_headers : Headers :=
  {| CoreBlasSuccess := 0;
     CoreBlasErrorNotSupported := 2;
     CoreBlasNoTrans := 111;
     CoreBlasTrans := 112;
     CoreBlasConjTrans := 113;
     CoreBlas_ConjTrans := 113;
     CoreBlasUpper := 121;
     CoreBlasLower := 122;
     CoreBlasLeft := 141;
     CoreBlasRight := 142;
     CoreBlasForward := 391;
     CoreBlasBackward := 392;
     CoreBlasColumnwise := 401;
     CoreBlasRowwise := 402;
     CoreBlasNonUnit := 131;
     findVTpos := fun _ _ _ _ st => (st, st, 0, 0) |}.

(** CBLAS routines that leave their output operand as it is: enough to
    run the argument checks of the tile kernels. *)
Definition sample_cblas : @Cblas Q_scalars :=
  @Build_Cblas Q_scalars 111 113 142 121 131
    (fun _ _ _ _ Y _ _ => Y)
    (fun _ _ X _ _ => X)
    (fun _ _ _ _ _ Y _ _ => Y)
    (fun _ _ _ _ _ _ _ X _ _ => X)
    (fun _ _ _ _ _ _ _ _ _ _ _ Y _ _ => Y)
    (fun _ _ _ _ _ _ _ _ _ _ _ C _ => C)
    (fun _ _ _ _ _ _ _ _ _ B _ => B)
    (fun _ _ _ _ _ _ _ _ _ _ A1 _ _ A2 _ _ _ _ _ _ _ w _ => (0, (A1, A2, w))).

(** A band matrix given by its nonzero entries [((row, col), value)],
    laid out in the band buffer through a view; every other cell of
    every buffer holds zero. *)
Fixpoint Q_lookup (p : ptr) (cells : list (ptr * Q)) : Q :=
  match cells with
  | [] => 0%Q
  | (q, v) :: rest => if ptr_eqb p q then v else Q_lookup p rest
  end.

Definition Q_band (view : Z -> Z -> ptr) (entries : list (Z * Z * Q)) : @mem Q_scalars :=
  fun p => Q_lookup p (map (fun e => (view (fst (fst e)) (snd (fst e)), snd e)) entries).

(** A band matrix of order 5 with half-width 4 (upper view, [lda = 13]). *)
Definition sample_upper_band : @mem Q_scalars :=
  Q_band (AU 4 13)
    [ (0, 0, 5%Q); (0, 1, 1%Q); (0, 2, 1%Q); (0, 3, 1%Q); (0, 4, 1%Q);
      (1, 1, 4%Q); (1, 2, (-1)%Q); (1, 3, (-2)%Q); (1, 4, 1%Q);
      (2, 2, 3%Q); (2, 3, (-2)%Q); (2, 4, 1%Q);
      (3, 3, 1%Q); (3, 4, 1%Q);
      (4, 4, 2%Q) ].

(** The type-1 call of sweep 0 on the window [[1, 4]] of that matrix. *)
Definition sample_type1_run : @mem Q_scalars :=
  @coreblas_zgbtype1cb sample_headers Q_scalars Q_lapacke
    121 5 4 13 1 4 0 1 0 sample_upper_band.

(** A band matrix of order 4 with half-width 2 (lower view, [lda = 7]). *)
Definition sample_lower_band : @mem Q_scalars :=
  Q_band (AL 2 7)
    [ (0, 0, 2%Q);
      (1, 0, 3%Q); (1, 1, (-1)%Q);
      (2, 0, 4%Q); (2, 1, (-3)%Q); (2, 2, 5%Q);
      (3, 1, 1%Q); (3, 2, 3%Q); (3, 3, 1%Q) ].

(** A tile whose entries are all one. *)
Definition sample_tile : @array Q_scalars := fun _ => 1%Q.

(** A view of the band buffer with the block property: walking a block
    with leading dimension [lda - 1] from the cell of [(r, c)] visits the
    cells of the logical positions [(r+i, c+j)]. *)
Definition band_view (lda : Z) (view : Z -> Z -> ptr) : Prop :=
  forall r c i j, ptr_add (view r c) (i + j * (lda - 1)) = view (r + i) (c + j).

(** ** What the bulge-chasing kernels may write *)

(** The cells a type-1 call may write. *)
Definition type1_writes (upper : bool) (nb lda st ed vpos taupos : Z) (q : ptr) : Prop :=
  (exists i j, (i = st - 1 \/ st <= i <= ed) /\ st <= j <= ed
               /\ q = if upper then AU nb lda i j else AL nb lda j i)
  \/ (exists k, 0 <= k <= ed - st
                /\ (q = VP (vpos + k) \/ q = VQ (vpos + k)))
  \/ q = TAUP taupos \/ q = TAUQ taupos
  \/ (exists k, 0 <= k <= ed - st /\ q = ptr_add WORK k).

Definition type2_writes `{Headers} (upper : bool) (n nb lda st ed : Z) (posJ : Z * Z) (q : ptr)
  : Prop :=
  let J1 := ed + 1 in
  let J2 := imin (ed + nb) (n - 1) in
  (exists i j, st <= i <= ed /\ J1 <= j <= J2
               /\ q = if upper then AU nb lda i j else AL nb lda j i)
  \/ (J1 < J2
      /\ ((exists k, 0 <= k <= J2 - J1
                     /\ q = if upper then VP (fst posJ + k) else VQ (fst posJ + k))
          \/ q = if upper then TAUP (snd posJ) else TAUQ (snd posJ)))
  \/ (exists k, (0 <= k <= J2 - J1 \/ (J1 < J2 /\ 0 <= k < ed - st))
                /\ q = ptr_add WORK k).

Definition bulge_in_bounds (n nb lda : Z) (q : ptr) : Prop :=
  match fst q with
  | BufA => 0 <= snd q < lda * n
  | BufWORK => 0 <= snd q < nb
  | _ => 0 <= snd q < 2 * n
  end.

Definition type2_valid (n nb lda st ed : Z) : Prop :=
  1 <= nb /\ 3 * nb + 1 <= lda /\ 0 <= st /\ st <= ed /\ ed < n /\ ed - st + 1 <= nb.

(** *** The blocks of [coreblas_ztsmqr] *)

(** The first reflector of each block of [ib] among [k] reflectors:
    [0, ib, 2*ib, ...] below [k]. *)
Definition ztsmqr_blocks (k ib : Z) : list Z :=
  map (fun j => j * ib) (zrange (Z.to_nat ((k - 1) / ib + 1)) 0).

(** The call of [coreblas_zparfb] that [coreblas_ztsmqr] makes for the
    block starting at reflector [i] (the body of its loop), with the
    result code that the loop drops. *)
Definition ztsmqr_block_call `{Headers} `{Cblas}
  (side trans m1 n1 m2 n2 k ib lda1 lda2 : Z) (V : array) (ldv : Z)
  (T : array) (ldt ldwork : Z) (i : Z) (s : array * array * array)
  : Z * (array * array * array) :=
  let '(a1, a2, w) := s in
  let kb := imin ib (k - i) in
  let '(ic, jc, mi, ni) :=
    if side =? CoreBlasLeft then (i, 0, m1 - i, n1) else (0, i, m1, n1 - i) in
  coreblas_zparfb side trans CoreBlasForward CoreBlasColumnwise
                  mi ni m2 n2 kb 0
                  a1 (lda1 * jc + ic) lda1 a2 lda2
                  V (ldv * i) ldv T (ldt * i) ldt
                  w ldwork.

(** *** [coreblas_zparfb]  (core_blas/core_ztrmm.c) *)

(** What [coreblas_zparfb] uses beyond the interfaces above: the
    constants [CoreBlasW] and [CoreBlasA2] of [coreblas_types.h],
    [CblasLeft], and the library's [coreblas_zpamm], defined elsewhere.
    [coreblas_zpamm] reads [A1] and [V] and may write [A2] and [W]; the
    caller drops its result code. *)
Class Pamm `{Scalars} : Type := {
  CoreBlasW : Z;
  CoreBlasA2 : Z;
  CblasLeft : Z;
  (* op, side, storev, m, n, k, l, A1 (with offset), lda1, A2, lda2,
     V (with offset), ldv, W, ldw |-> A2, W *)
  coreblas_zpamm : Z -> Z -> Z -> Z -> Z -> Z -> Z ->
                   array -> Z -> Z -> array -> Z -> array -> Z -> Z ->
                   array -> Z -> array * array
}.

(** The array seen from [&X[off]]. *)
Definition shifted `{Scalars} (X : array) (off : Z) : array := fun i => X (off + i).

Module Parfb.

Definition zparfb_params : list string :=
  ["side"; "trans"; "direct"; "storev"; "m1"; "n1"; "m2"; "n2"; "k"; "l";
   "A1"; "lda1"; "A2"; "lda2"; "V"; "ldv"; "T"; "ldt"; "work"; "ldwork"]%string.

(** The kernel as the source has it.  [A1], [V] and [T] come with the
    offset at which the caller points into them. *)
Definition coreblas_zparfb {HD : Headers} {SC : Scalars} {CB : @Cblas SC}
  {PM : @Pamm SC} (side trans direct storev m1 n1 m2 n2 k l : Z)
  (A1 : option array) (oA1 lda1 : Z) (A2 : option array) (lda2 : Z)
  (V : option array) (oV ldv : Z) (T : option array) (oT ldt : Z)
  (work : option array) (ldwork : Z)
  : outcome (option array * option array * option array) :=
  let bufs := (A1, A2, work) in
  (* Check input arguments. *)
  if negb (side =? CoreBlasLeft) && negb (side =? CoreBlasRight) then
    fail (-1) "illegal value of side" bufs
  else if negb (trans =? CoreBlasNoTrans) && negb (trans =? CoreBlas_ConjTrans) then
    fail (-2) "illegal value of trans" bufs
  else if negb (direct =? CoreBlasForward) && negb (direct =? CoreBlasBackward) then
    fail (-3) "illegal value of direct" bufs
  else if negb (storev =? CoreBlasColumnwise) && negb (storev =? CoreBlasRowwise) then
    fail (-4) "illegal value of storev" bufs
  else if m1 <? 0 then fail (-5) "illegal value of m1" bufs
  else if n1 <? 0 then fail (-6) "illegal value of n1" bufs
  else if (m2 <? 0) || ((side =? CoreBlasRight) && negb (m1 =? m2)) then
    fail (-7) "illegal value of m2" bufs
  else if (n2 <? 0) || ((side =? CoreBlasLeft) && negb (n1 =? n2)) then
    fail (-8) "illegal value of n2" bufs
  else if k <? 0 then fail (-9) "illegal value of k" bufs
  else if l <? 0 then fail (-10) "illegal value of l" bufs
  else if is_null A1 then fail (-11) "NULL A1" bufs
  else if lda1 <? 0 then fail (-12) "illegal value of lda1" bufs
  else if is_null A2 then fail (-13) "NULL A2" bufs
  else if lda2 <? 0 then fail (-14) "illegal value of lda2" bufs
  else if is_null V then fail (-15) "NULL V" bufs
  else if ldv <? 0 then fail (-16) "illegal value of ldv" bufs
  else if is_null T then fail (-17) "NULL T" bufs
  else if ldt <? 0 then fail (-18) "illegal value of ldt" bufs
  else if is_null work then fail (-19) "NULL work" bufs
  else if ldwork <? 0 then fail (-20) "illegal value of ldwork" bufs
  (* quick return *)
  else if (m1 =? 0) || (n1 =? 0) || (m2 =? 0) || (n2 =? 0) || (k =? 0) then
    done CoreBlasSuccess bufs
  else
    let a1 := deref A1 in
    let a2 := deref A2 in
    let v := deref V in
    let t := shifted (deref T) oT in
    let w := deref work in
    if direct =? CoreBlasForward then
      if side =? CoreBlasLeft then
        (* W = A1 + op(V) * A2 *)
        let '(a2, w) := coreblas_zpamm CoreBlasW CoreBlasLeft storev k n1 m2 l
                                       a1 oA1 lda1 a2 lda2 v oV ldv w ldwork in
        (* W = op(T) * W *)
        let w := cblas_ztrmm CblasLeft CblasUpper trans CblasNonUnit k n2
                             cone t ldt w ldwork in
        (* A1 = A1 - W *)
        let a1 := for_loop 0 n1 (fun j a1 =>
                    cblas_zaxpy k cmone w (ldwork * j) 1 a1 (oA1 + lda1 * j) 1) a1 in
        (* A2 = A2 - op(V) * W *)
        let '(a2, w) := coreblas_zpamm CoreBlasA2 CoreBlasLeft storev m2 n2 k l
                                       a1 oA1 lda1 a2 lda2 v oV ldv w ldwork in
        done CoreBlasSuccess (Some a1, Some a2, Some w)
      else
        (* W = A1 + A2 * op(V) *)
        let '(a2, w) := coreblas_zpamm CoreBlasW CoreBlasRight storev m1 k n2 l
                                       a1 oA1 lda1 a2 lda2 v oV ldv w ldwork in
        (* W = W * op(T) *)
        let w := cblas_ztrmm CblasRight CblasUpper trans CblasNonUnit m2 k
                             cone t ldt w ldwork in
        (* A1 = A1 - W *)
        let a1 := for_loop 0 k (fun j a1 =>
                    cblas_zaxpy m1 cmone w (ldwork * j) 1 a1 (oA1 + lda1 * j) 1) a1 in
        (* A2 = A2 - W * op(V) *)
        let '(a2, w) := coreblas_zpamm CoreBlasA2 CoreBlasRight storev m2 n2 k l
                                       a1 oA1 lda1 a2 lda2 v oV ldv w ldwork in
        done CoreBlasSuccess (Some a1, Some a2, Some w)
    else
      fail CoreBlasErrorNotSupported "Backward / Left or Right not implemented" bufs.

(** The arguments [coreblas_zparfb] calls illegal, by position. *)
Definition zparfb_illegal `{Scalars} `{Headers}
  (side trans direct storev m1 n1 m2 n2 k l : Z)
  (A1 : option array) (lda1 : Z) (A2 : option array) (lda2 : Z)
  (V : option array) (ldv : Z) (T : option array) (ldt : Z)
  (work : option array) (ldwork : Z) : list (Z * bool) :=
  [ (1, negb (side =? CoreBlasLeft) && negb (side =? CoreBlasRight));
    (2, negb (trans =? CoreBlasNoTrans) && negb (trans =? CoreBlas_ConjTrans));
    (3, negb (direct =? CoreBlasForward) && negb (direct =? CoreBlasBackward));
    (4, negb (storev =? CoreBlasColumnwise) && negb (storev =? CoreBlasRowwise));
    (5, m1 <? 0);
    (6, n1 <? 0);
    (7, (m2 <? 0) || ((side =? CoreBlasRight) && negb (m1 =? m2)));
    (8, (n2 <? 0) || ((side =? CoreBlasLeft) && negb (n1 =? n2)));
    (9, k <? 0);
    (10, l <? 0);
    (11, is_null A1);
    (12, lda1 <? 0);
    (13, is_null A2);
    (14, lda2 <? 0);
    (15, is_null V);
    (16, ldv <? 0);
    (17, is_null T);
    (18, ldt <? 0);
    (19, is_null work);
    (20, ldwork <? 0) ].

End Parfb.

(** The interfaces with [coreblas_zparfb] as the source defines it.
    [coreblas_ztsmqr] passes pointers it has checked, offset into their
    arrays. *)
Definition cblas_with_zparfb {HD : Headers} {SC : Scalars} {CB : @Cblas SC}
  {PM : @Pamm SC} : @Cblas SC :=
  {| CblasNoTrans := CblasNoTrans;
     CblasConjTrans := CblasConjTrans;
     CblasRight := CblasRight;
     CblasUpper := CblasUpper;
     CblasNonUnit := CblasNonUnit;
     cblas_zcopy := cblas_zcopy;
     cblas_zscal := cblas_zscal;
     cblas_zaxpy := cblas_zaxpy;
     cblas_ztrmv := cblas_ztrmv;
     cblas_zgemv := cblas_zgemv;
     cblas_zgemm := cblas_zgemm;
     cblas_ztrmm := cblas_ztrmm;
     coreblas_zparfb :=
       fun side trans direct storev m1 n1 m2 n2 k l
           a1 oA1 lda1 a2 lda2 v oV ldv t oT ldt w ldwork =>
         let r := Parfb.coreblas_zparfb side trans direct storev m1 n1 m2 n2 k l
                    (Some a1) oA1 lda1 (Some a2) lda2 (Some v) oV ldv
                    (Some t) oT ldt (Some w) ldwork in
         (ret r, (deref (fst (fst (out r))), deref (snd (fst (out r))),
                  deref (snd (out r)))) |}.

(** ** Tile kernels built on LAPACK *)

(** What the remaining tile kernels call and the sources do not define:
    the constant [CoreBlasGeneral] and LAPACKE and CBLAS routines, as
    functions from the arrays they read to the arrays they write.  An
    argument [&X[off]] is passed as the array [X] and the offset [off]. *)
Class TileLapack `{Scalars} : Type := {
  CoreBlasGeneral : Z;
  (* uplo, m, n, alpha, beta, A, lda |-> A *)
  LAPACKE_zlaset_work : Z -> Z -> Z -> scalar -> scalar -> array -> Z -> array;
  (* side, trans, direct, storev, m, n, k, V, ldv, T, ldt, C, ldc |-> C *)
  LAPACKE_zlarfb : Z -> Z -> Z -> Z -> Z -> Z -> Z -> array -> Z -> Z ->
                   array -> Z -> Z -> array -> Z -> Z -> array;
  (* the same with work, ldwork |-> C, work *)
  LAPACKE_zlarfb_work : Z -> Z -> Z -> Z -> Z -> Z -> Z -> array -> Z -> Z ->
                        array -> Z -> Z -> array -> Z -> Z -> array -> Z ->
                        array * array;
  (* m, n, A, lda, tau, work |-> A, tau, work *)
  LAPACKE_zgelq2_work : Z -> Z -> array -> Z -> Z -> array -> Z -> array ->
                        array * array * array;
  (* direct, storev, n, k, V, ldv, tau, T, ldt |-> T *)
  LAPACKE_zlarft_work : Z -> Z -> Z -> Z -> array -> Z -> Z -> array -> Z ->
                        array -> Z -> Z -> array;
  (* n, X, incX |-> X *)
  LAPACKE_zlacgv_work : Z -> array -> Z -> Z -> array;
  (* m, n, alpha, X, incX, Y, incY, A, lda |-> A *)
  cblas_zgerc : Z -> Z -> scalar -> array -> Z -> Z -> array -> Z -> Z ->
                array -> Z -> Z -> array
}.

(** *** [coreblas_zlaset] *)

(** [memset(A, 0, cnt * sizeof(coreblas_complex64_t))] on an array. *)
Definition array_memset0 `{Scalars} (A : array) (cnt : Z) : array :=
  for_loop 0 cnt (fun k a => aset a k czero) A.

Definition coreblas_zlaset `{TileLapack} (uplo m n : Z) (alpha beta : scalar)
  (A : array) (lda : Z) : array :=
  if ceqb alpha czero && ceqb beta czero && (uplo =? CoreBlasGeneral) && (m =? lda) then
    (* Use memset to zero continuous memory. *)
    array_memset0 A (m * n)
  else
    LAPACKE_zlaset_work uplo m n alpha beta A lda.

(** ** Loops that advance by a block size *)

(** The result of running a kernel for a bounded number of loop rounds:
    it returned, it is still in its loop, or it has executed an
    operation that C leaves undefined. *)
Inductive run (B : Type) : Type :=
| Returns (b : B)
| Running
| Undefined.

Arguments Returns {B} _.
Arguments Running {B}.
Arguments Undefined {B}.

(** [for (i = i0; guard(i); i += step) body], for at most [fuel] rounds;
    [None] when the guard still holds after them. *)
Fixpoint step_loop {St : Type} (fuel : nat) (guard : Z -> bool) (i step : Z)
  (body : Z -> St -> St) (s : St) : option St :=
  match fuel with
  | O => None
  | S fuel' =>
      if guard i then step_loop fuel' guard (i + step) step body (body i s)
      else Some s
  end.

(** *** [coreblas_zunmqr]  (core_blas/core_ztrtri.c) *)

Definition zunmqr_params : list string :=
  ["side"; "trans"; "m"; "n"; "k"; "ib"; "A"; "lda"; "T"; "ldt"; "C"; "ldc";
   "work"; "ldwork"]%string.

(** The call of [LAPACKE_zlarfb] for the block starting at reflector [i]. *)
Definition zunmqr_block `{Headers} `{TileLapack}
  (side trans m n k ib : Z) (A : array) (lda : Z) (T : array) (ldt ldc : Z)
  (i : Z) (C : array) : array :=
  let kb := imin ib (k - i) in
  let '(ic, jc, mi, ni) :=
    if side =? CoreBlasLeft then (i, 0, m - i, n) else (0, i, m, n - i) in
  (* Apply H or H^H. *)
  LAPACKE_zlarfb side trans CoreBlasForward CoreBlasColumnwise mi ni kb
                 A (lda * i + i) lda T (ldt * i) ldt C (ldc * jc + ic) ldc.

Definition coreblas_zunmqr `{Headers} `{TileLapack} (fuel : nat)
  (side trans m n k ib : Z) (A : option array) (lda : Z) (T : option array) (ldt : Z)
  (C : option array) (ldc : Z) (work : option array) (ldwork : Z)
  : run (outcome (option array)) :=
  (* Check input arguments. *)
  if negb (side =? CoreBlasLeft) && negb (side =? CoreBlasRight) then
    Returns (fail (-1) "illegal value of side" C)
  else
    (* order of Q, dimension of work *)
    let '(nq, nw) := if side =? CoreBlasLeft then (m, n) else (n, m) in
    if negb (trans =? CoreBlasNoTrans) && negb (trans =? CoreBlas_ConjTrans) then
      Returns (fail (-2) "illegal value of trans" C)
    else if m <? 0 then Returns (fail (-3) "illegal value of m" C)
    else if n <? 0 then Returns (fail (-4) "illegal value of n" C)
    else if (k <? 0) || (k >? nq) then Returns (fail (-5) "illegal value of k" C)
    else if ib <? 0 then Returns (fail (-6) "illegal value of ib" C)
    else if is_null A then Returns (fail (-7) "NULL A" C)
    else if (lda <? imax 1 nq) && (nq >? 0) then
      Returns (fail (-8) "illegal value of lda" C)
    else if is_null T then Returns (fail (-9) "NULL T" C)
    else if ldt <? imax 1 ib then Returns (fail (-10) "illegal value of ldt" C)
    else if is_null C then Returns (fail (-11) "NULL C" C)
    else if (ldc <? imax 1 m) && (m >? 0) then
      Returns (fail (-12) "illegal value of ldc" C)
    else if is_null work then Returns (fail (-13) "NULL work" C)
    else if (ldwork <? imax 1 nw) && (nw >? 0) then
      Returns (fail (-14) "illegal value of ldwork" C)
    (* quick return *)
    else if (m =? 0) || (n =? 0) || (k =? 0) then Returns (done CoreBlasSuccess C)
    else
      let forward := ((side =? CoreBlasLeft) && negb (trans =? CoreBlasNoTrans))
                     || ((side =? CoreBlasRight) && (trans =? CoreBlasNoTrans)) in
      if negb forward && (ib =? 0) then
        (* i1 = ((k-1)/ib)*ib divides by zero *)
        Undefined
      else
        let '(i1, i3) := if forward then (0, ib) else (Z.quot (k - 1) ib * ib, - ib) in
        match step_loop fuel (fun i => (i >? -1) && (i <? k)) i1 i3
                        (zunmqr_block side trans m n k ib (deref A) lda (deref T) ldt ldc)
                        (deref C) with
        | Some c => Returns (done CoreBlasSuccess (Some c))
        | None => Running
        end.

(** The arguments [coreblas_zunmqr] calls illegal, by position. *)
Definition zunmqr_illegal `{Scalars} `{Headers} (side trans m n k ib : Z)
  (A : option array) (lda : Z) (T : option array) (ldt : Z)
  (C : option array) (ldc : Z) (work : option array) (ldwork : Z) : list (Z * bool) :=
  let nq := if side =? CoreBlasLeft then m else n in
  let nw := if side =? CoreBlasLeft then n else m in
  [ (1, negb (side =? CoreBlasLeft) && negb (side =? CoreBlasRight));
    (2, negb (trans =? CoreBlasNoTrans) && negb (trans =? CoreBlas_ConjTrans));
    (3, m <? 0);
    (4, n <? 0);
    (5, (k <? 0) || (k >? nq));
    (6, ib <? 0);
    (7, is_null A);
    (8, (lda <? imax 1 nq) && (nq >? 0));
    (9, is_null T);
    (10, ldt <? imax 1 ib);
    (11, is_null C);
    (12, (ldc <? imax 1 m) && (m >? 0));
    (13, is_null work);
    (14, (ldwork <? imax 1 nw) && (nw >? 0)) ].

(** *** [coreblas_zgelqt]  (core_blas/core_zgelqt.c) *)

Definition zgelqt_params : list string :=
  ["m"; "n"; "ib"; "A"; "lda"; "T"; "ldt"; "tau"; "work"]%string.

(** One round of the loop: factor the panel of [sb] rows at [(i, i)],
    form its triangular factor, and update the rows below. *)
Definition zgelqt_block `{Headers} `{TileLapack} (m n ib lda ldt : Z) (i : Z)
  (s : array * array * array * array) : array * array * array * array :=
  let '(a, t, tau, work) := s in
  let k := imin m n in
  let sb := imin ib (k - i) in
  let '(a, tau, work) :=
    LAPACKE_zgelq2_work sb (n - i) a (lda * i + i) lda tau i work in
  let t := LAPACKE_zlarft_work CoreBlasForward CoreBlasRowwise (n - i) sb
                               a (lda * i + i) lda tau i t (ldt * i) ldt in
  if m >? i + sb then
    let '(a, work) :=
      LAPACKE_zlarfb_work CoreBlasRight CoreBlasNoTrans CoreBlasForward CoreBlasRowwise
                          (m - i - sb) (n - i) sb
                          a (lda * i + i) lda t (ldt * i) ldt
                          a (lda * i + (i + sb)) lda work (m - i - sb) in
    (a, t, tau, work)
  else (a, t, tau, work).

Definition coreblas_zgelqt `{Headers} `{TileLapack} (fuel : nat) (m n ib : Z)
  (A : option array) (lda : Z) (T : option array) (ldt : Z)
  (tau work : option array)
  : run (outcome (option array * option array * option array * option array)) :=
  let bufs := (A, T, tau, work) in
  (* Check input arguments. *)
  if m <? 0 then Returns (fail (-1) "illegal value of m" bufs)
  else if n <? 0 then Returns (fail (-2) "illegal value of n" bufs)
  else if (ib <? 0) || ((ib =? 0) && ((m >? 0) && (n >? 0))) then
    Returns (fail (-3) "illegal value of ib" bufs)
  else if is_null A then Returns (fail (-4) "NULL A" bufs)
  else if (lda <? imax 1 m) && (m >? 0) then
    Returns (fail (-5) "illegal value of lda" bufs)
  else if is_null T then Returns (fail (-6) "NULL T" bufs)
  else if (ldt <? imax 1 ib) && (ib >? 0) then
    Returns (fail (-7) "illegal value of ldt" bufs)
  else if is_null tau then Returns (fail (-8) "NULL tau" bufs)
  else if is_null work then Returns (fail (-9) "NULL work" bufs)
  (* quick return *)
  else if (m =? 0) || (n =? 0) || (ib =? 0) then Returns (done CoreBlasSuccess bufs)
  else
    let k := imin m n in
    match step_loop fuel (fun i => i <? k) 0 ib (zgelqt_block m n ib lda ldt)
                    (deref A, deref T, deref tau, deref work) with
    | Some (a, t, tau, work) =>
        Returns (done CoreBlasSuccess (Some a, Some t, Some tau, Some work))
    | None => Running
    end.

Definition zgelqt_illegal `{Scalars} (m n ib : Z)
  (A : option array) (lda : Z) (T : option array) (ldt : Z)
  (tau work : option array) : list (Z * bool) :=
  [ (1, m <? 0);
    (2, n <? 0);
    (3, (ib <? 0) || ((ib =? 0) && ((m >? 0) && (n >? 0))));
    (4, is_null A);
    (5, (lda <? imax 1 m) && (m >? 0));
    (6, is_null T);
    (7, (ldt <? imax 1 ib) && (ib >? 0));
    (8, is_null tau);
    (9, is_null work) ].

(** *** [coreblas_ztsqrt]  (core_blas/core_ztsqrt.c) *)

(** The unary minus of the scalar type. *)
Class Negation `{Scalars} : Type := {
  cneg : scalar -> scalar
}.

Definition ztsqrt_params : list string :=
  ["m"; "n"; "ib"; "A1"; "lda1"; "A2"; "lda2"; "T"; "ldt"; "tau"; "work"]%string.


(** [LAPACKE_zlarfg_work(n, &A[oa], &X[ox], incx, &tau[ot])] with a
    positive increment: reads [alpha = A[oa]] and the [n-1] entries
    [X[ox + k*incx]], overwrites them and [tau[ot]]. *)
Definition zlarfg_arrays `{Lapacke} (n : Z) (A : array) (oa : Z)
  (X : array) (ox incx : Z) (tau : array) (ot : Z) : array * array * array :=
  let '(beta, v, t) :=
    larfg n (A oa) (map (fun k => X (ox + k * incx)) (zrange (Z.to_nat (n - 1)) 0)) in
  (aset A oa beta,
   for_loop 0 (n - 1) (fun k x => aset x (ox + k * incx) (nth (Z.to_nat k) v czero)) X,
   aset tau ot t).


(** The call of [coreblas_ztsmqr] that updates the columns right of the
    panel [ii .. ii+sb-1]. *)
Definition ztsqrt_update `{Headers} `{Cblas} (m n ib lda1 lda2 ldt ii sb : Z)
  (a1 a2 t work : array) : outcome (option array * option array * option array) :=
  coreblas_ztsmqr CoreBlasLeft CoreBlas_ConjTrans
                  sb (n - (ii + sb)) m (n - (ii + sb)) ib ib
                  (Some (shifted a1 (lda1 * (ii + sb) + ii))) lda1
                  (Some (shifted a2 (lda2 * (ii + sb)))) lda2
                  (Some (shifted a2 (lda2 * ii))) lda2
                  (Some (shifted t (ldt * ii))) ldt
                  (Some work) sb.



Definition ztsqrt_illegal `{Scalars} (m n ib : Z)
  (A1 : option array) (lda1 : Z) (A2 : option array) (lda2 : Z)
  (T : option array) (ldt : Z) (tau work : option array) : list (Z * bool) :=
  [ (1, m <? 0);
    (2, n <? 0);
    (3, ib <? 0);
    (4, is_null A1);
    (5, (lda1 <? imax 1 m) && (m >? 0));
    (6, is_null A2);
    (7, (lda2 <? imax 1 m) && (m >? 0));
    (8, is_null T);
    (9, (ldt <? imax 1 ib) && (ib >? 0));
    (10, is_null tau);
    (11, is_null work) ].

(** *** [coreblas_ztslqt] *)

(** The library's [coreblas_ztsmlq], defined elsewhere, from the tiles
    it reads to its result code and the tiles it may write. *)
Class Tsmlq `{Scalars} : Type := {
  (* side, trans, m1, n1, m2, n2, k, ib, A1, lda1, A2, lda2, V, ldv,
     T, ldt, work, ldwork |-> result, A1, A2, work *)
  coreblas_ztsmlq : Z -> Z -> Z -> Z -> Z -> Z -> Z -> Z ->
                    array -> Z -> Z -> array -> Z -> Z -> array -> Z -> Z ->
                    array -> Z -> Z -> array -> Z ->
                    Z * (array * array * array)
}.

Definition ztslqt_params : list string :=
  ["m"; "n"; "ib"; "A1"; "lda1"; "A2"; "lda2"; "T"; "ldt"; "tau"; "work"]%string.

(** One round of the inner loop: row [ii+i] of the panel. *)
Definition ztslqt_row {HD : Headers} {SC : Scalars} {CB : @Cblas SC}
  {LP : @Lapacke SC} {TL : @TileLapack SC} {NG : @Negation SC}
  (m n lda1 lda2 ldt ii sb : Z) (i : Z)
  (s : array * array * array * array * array)
  : array * array * array * array * array :=
  let '(a1, a2, t, tau, work) := s in
  (* Generate elementary reflector H(ii*ib+i) to annihilate
     A(ii*ib+i,ii*ib+i:n). *)
  let a2 := LAPACKE_zlacgv_work n a2 (ii + i) lda2 in
  let a1 := LAPACKE_zlacgv_work 1 a1 (lda1 * (ii + i) + ii + i) lda1 in
  let '(a1, a2, tau) :=
    zlarfg_arrays (n + 1) a1 (lda1 * (ii + i) + ii + i) a2 (ii + i) lda2
                  tau (ii + i) in
  let alpha := cneg (tau (ii + i)) in
  let '(a1, a2, work) :=
    if ii + i + 1 <? m then
      (* Apply H(ii+i-1) to A(ii+i:ii+ib-1, ii+i-1:n) from the right. *)
      let work := cblas_zcopy (sb - i - 1) a1 (lda1 * (ii + i) + (ii + i + 1)) 1
                              work 0 1 in
      let work := cblas_zgemv CoreBlasNoTrans (sb - i - 1) n
                              cone a2 (ii + i + 1) lda2
                              a2 (ii + i) lda2
                              cone work 0 1 in
      let a1 := cblas_zaxpy (sb - i - 1) alpha work 0 1
                            a1 (lda1 * (ii + i) + ii + i + 1) 1 in
      let a2 := cblas_zgerc (sb - i - 1) n alpha work 0 1 a2 (ii + i) lda2
                            a2 (ii + i + 1) lda2 in
      (a1, a2, work)
    else (a1, a2, work) in
  (* Calculate T. *)
  let t := cblas_zgemv CoreBlasNoTrans i n
                       alpha a2 ii lda2
                       a2 (ii + i) lda2
                       czero t (ldt * (ii + i)) 1 in
  let a2 := LAPACKE_zlacgv_work n a2 (ii + i) lda2 in
  let a1 := LAPACKE_zlacgv_work 1 a1 (lda1 * (ii + i) + ii + i) lda1 in
  let t := cblas_ztrmv CoreBlasUpper CoreBlasNoTrans CoreBlasNonUnit i
                       t (ldt * ii) ldt t (ldt * (ii + i)) 1 in
  let t := aset t (ldt * (ii + i) + i) (tau (ii + i)) in
  (a1, a2, t, tau, work).

(** One round of the outer loop: the panel starting at row [ii], then the
    update of the rows below it by [coreblas_ztsmlq], whose result code
    is dropped. *)
Definition ztslqt_block {HD : Headers} {SC : Scalars} {CB : @Cblas SC}
  {LP : @Lapacke SC} {TL : @TileLapack SC} {NG : @Negation SC} {TM : @Tsmlq SC}
  (m n ib lda1 lda2 ldt : Z) (ii : Z)
  (s : array * array * array * array * array)
  : array * array * array * array * array :=
  let sb := imin (m - ii) ib in
  let '(a1, a2, t, tau, work) :=
    for_loop 0 sb (ztslqt_row m n lda1 lda2 ldt ii sb) s in
  if m >? ii + sb then
    let '(a1, a2, work) :=
      snd (coreblas_ztsmlq CoreBlasRight CoreBlas_ConjTrans
                           (m - (ii + sb)) sb (m - (ii + sb)) n ib ib
                           a1 (lda1 * ii + ii + sb) lda1
                           a2 (ii + sb) lda2
                           a2 ii lda2
                           t (ldt * ii) ldt
                           work lda1) in
    (a1, a2, t, tau, work)
  else (a1, a2, t, tau, work).

Definition coreblas_ztslqt {HD : Headers} {SC : Scalars} {CB : @Cblas SC}
  {LP : @Lapacke SC} {TL : @TileLapack SC} {NG : @Negation SC} {TM : @Tsmlq SC}
  (fuel : nat) (m n ib : Z)
  (A1 : option array) (lda1 : Z) (A2 : option array) (lda2 : Z)
  (T : option array) (ldt : Z) (tau work : option array)
  : run (outcome (option array * option array * option array
                  * option array * option array)) :=
  let bufs := (A1, A2, T, tau, work) in
  (* Check input arguments. *)
  if m <? 0 then Returns (fail (-1) "illegal value of m" bufs)
  else if n <? 0 then Returns (fail (-2) "illegal value of n" bufs)
  else if ib <? 0 then Returns (fail (-3) "illegal value of ib" bufs)
  else if is_null A1 then Returns (fail (-4) "NULL A1" bufs)
  else if (lda1 <? imax 1 m) && (m >? 0) then
    Returns (fail (-5) "illegal value of lda1" bufs)
  else if is_null A2 then Returns (fail (-6) "NULL A2" bufs)
  else if (lda2 <? imax 1 m) && (m >? 0) then
    Returns (fail (-7) "illegal value of lda2" bufs)
  else if is_null T then Returns (fail (-8) "NULL T" bufs)
  else if (ldt <? imax 1 ib) && (ib >? 0) then
    Returns (fail (-9) "illegal value of ldt" bufs)
  else if is_null tau then Returns (fail (-10) "NULL tau" bufs)
  else if is_null work then Returns (fail (-11) "NULL work" bufs)
  (* quick return *)
  else if (m =? 0) || (n =? 0) || (ib =? 0) then Returns (done CoreBlasSuccess bufs)
  else
    match step_loop fuel (fun ii => ii <? m) 0 ib (ztslqt_block m n ib lda1 lda2 ldt)
                    (deref A1, deref A2, deref T, deref tau, deref work) with
    | Some (a1, a2, t, tau, work) =>
        Returns (done CoreBlasSuccess (Some a1, Some a2, Some t, Some tau, Some work))
    | None => Running
    end.

(** The checks of [coreblas_ztslqt] are those of [coreblas_ztsqrt]. *)
Definition ztslqt_illegal `{Scalars} (m n ib : Z)
  (A1 : option array) (lda1 : Z) (A2 : option array) (lda2 : Z)
  (T : option array) (ldt : Z) (tau work : option array) : list (Z * bool) :=
  [ (1, m <? 0);
    (2, n <? 0);
    (3, ib <? 0);
    (4, is_null A1);
    (5, (lda1 <? imax 1 m) && (m >? 0));
    (6, is_null A2);
    (7, (lda2 <? imax 1 m) && (m >? 0));
    (8, is_null T);
    (9, (ldt <? imax 1 ib) && (ib >? 0));
    (10, is_null tau);
    (11, is_null work) ].


(** *** [coreblas_zgeswp]  (core_blas/core_zgeswp.c) *)

(** The tile descriptor of [coreblas_descriptor.h]: the fields the kernel
    reads ([A.mb], [A.nb], [A.m], [A.n]) and the two accessors it calls.
    The storage of the matrix is one array of scalars;
    [coreblas_tile_addr A i j] is the index of the first element of tile
    [(i, j)] in it, [coreblas_tile_mmain A i] the leading dimension of
    the tiles of tile row [i]. *)
Class Descriptors : Type := {
  coreblas_desc_t : Type;
  desc_mb : coreblas_desc_t -> Z;
  desc_nb : coreblas_desc_t -> Z;
  desc_m : coreblas_desc_t -> Z;
  desc_n : coreblas_desc_t -> Z;
  coreblas_tile_addr : coreblas_desc_t -> Z -> Z -> Z;
  coreblas_tile_mmain : coreblas_desc_t -> Z -> Z
}.

(** [cblas_zswap(n, X, incX, Y, incY)] with [X] and [Y] in one storage,
    as the reference BLAS defines it: element [k] of each vector is
    exchanged, for [k = 0 .. n-1]; a vector with a negative increment
    starts at its far end. *)
Definition cblas_zswap `{Scalars} (n : Z) (x incx y incy : Z) (a : array) : array :=
  let x0 := if incx <? 0 then x + (1 - n) * incx else x in
  let y0 := if incy <? 0 then y + (1 - n) * incy else y in
  for_loop 0 n (fun k a =>
    let tmp := a (x0 + k * incx) in
    aset (aset a (x0 + k * incx) (a (y0 + k * incy))) (y0 + k * incy) tmp) a.

(** [for (i = i0; guard(i); i += step) body] where a round may execute
    an undefined operation. *)
Fixpoint swap_loop `{Scalars} (fuel : nat) (guard : Z -> bool) (i step : Z)
  (body : Z -> array -> option array) (a : array) : run array :=
  match fuel with
  | O => Running
  | S fuel' =>
      if guard i then
        match body i a with
        | Some a' => swap_loop fuel' guard (i + step) step body a'
        | None => Undefined
        end
      else Returns a
  end.

(** The body of the row loops: exchange row [m] with row [ipiv[m]-1].
    [/] and [%] are C's ([Z.quot], [Z.rem]); dividing by [A.mb = 0] is
    undefined. *)
Definition zgeswp_rows `{Descriptors} `{Scalars} (A : coreblas_desc_t)
  (ipiv : Z -> Z) (m : Z) (a : array) : option array :=
  if negb (ipiv m - 1 =? m) then
    let m1 := m in
    let m2 := ipiv m - 1 in
    if desc_mb A =? 0 then None
    else
      let lda1 := coreblas_tile_mmain A (Z.quot m1 (desc_mb A)) in
      let lda2 := coreblas_tile_mmain A (Z.quot m2 (desc_mb A)) in
      Some (cblas_zswap (desc_n A)
              (coreblas_tile_addr A (Z.quot m1 (desc_mb A)) 0 + Z.rem m1 (desc_mb A)) lda1
              (coreblas_tile_addr A (Z.quot m2 (desc_mb A)) 0 + Z.rem m2 (desc_mb A)) lda2
              a)
  else Some a.

(** The body of the column loops. *)
Definition zgeswp_cols `{Descriptors} `{Scalars} (A : coreblas_desc_t)
  (ipiv : Z -> Z) (n : Z) (a : array) : option array :=
  if negb (ipiv n - 1 =? n) then
    let n1 := n in
    let n2 := ipiv n - 1 in
    if desc_nb A =? 0 then None
    else
      let lda0 := coreblas_tile_mmain A 0 in
      Some (cblas_zswap (desc_m A)
              (coreblas_tile_addr A 0 (Z.quot n1 (desc_nb A))
               + Z.rem n1 (desc_nb A) * lda0) 1
              (coreblas_tile_addr A 0 (Z.quot n2 (desc_nb A))
               + Z.rem n2 (desc_nb A) * lda0) 1
              a)
  else Some a.

Definition coreblas_zgeswp `{Headers} `{Descriptors} `{Scalars} (fuel : nat)
  (colrow : Z) (A : coreblas_desc_t) (k1 k2 : Z) (ipiv : Z -> Z) (incx : Z)
  (a : array) : run array :=
  if colrow =? CoreBlasRowwise then
    if incx >? 0 then
      swap_loop fuel (fun m => m <=? k2 - 1) (k1 - 1) incx (zgeswp_rows A ipiv) a
    else
      swap_loop fuel (fun m => m >=? k1 - 1) (k2 - 1) incx (zgeswp_rows A ipiv) a
  else
    if incx >? 0 then
      swap_loop fuel (fun n => n <=? k2 - 1) (k1 - 1) incx (zgeswp_cols A ipiv) a
    else
      swap_loop fuel (fun n => n >=? k1 - 1) (k2 - 1) incx (zgeswp_cols A ipiv) a.

(** The storage index of the entry in row [r], column [j] of the first
    tile column, as the row loops address it. *)
Definition zgeswp_row_cell `{Descriptors} (A : coreblas_desc_t) (r j : Z) : Z :=
  coreblas_tile_addr A (Z.quot r (desc_mb A)) 0 + Z.rem r (desc_mb A)
  + j * coreblas_tile_mmain A (Z.quot r (desc_mb A)).

(** A layout in which the row loops see distinct cells for distinct
    entries, row by row with a non-negative stride. *)
Definition zgeswp_rows_apart `{Descriptors} (A : coreblas_desc_t) : Prop :=
  desc_mb A <> 0
  /\ (forall r, 0 <= r < desc_m A -> 0 <= coreblas_tile_mmain A (Z.quot r (desc_mb A)))
  /\ (forall r r' j j',
        0 <= r < desc_m A -> 0 <= r' < desc_m A ->
        0 <= j < desc_n A -> 0 <= j' < desc_n A ->
        zgeswp_row_cell A r j = zgeswp_row_cell A r' j' -> r = r' /\ j = j').

(** ** Concrete interfaces for the remaining kernels *)

(** A [coreblas_zpamm] that leaves its operands as they are. *)
Definition sample_pamm : @Pamm Q_scalars :=
  @Build_Pamm Q_scalars 501 502 141
    (fun _ _ _ _ _ _ _ _ _ _ A2 _ _ _ _ W _ => (A2, W)).

(** LAPACK routines that leave their output operands as they are. *)
Definition sample_tile_lapack : @TileLapack Q_scalars :=
  @Build_TileLapack Q_scalars 123
    (fun _ _ _ _ _ A _ => A)
    (fun _ _ _ _ _ _ _ _ _ _ _ _ _ C _ _ => C)
    (fun _ _ _ _ _ _ _ _ _ _ _ _ _ C _ _ W _ => (C, W))
    (fun _ _ A _ _ tau _ W => (A, tau, W))
    (fun _ _ _ _ _ _ _ _ _ T _ _ => T)
    (fun _ X _ _ => X)
    (fun _ _ _ _ _ _ _ _ _ A _ _ => A).

(** A [coreblas_ztsmlq] that leaves its operands as they are. *)
Definition sample_tsmlq : @Tsmlq Q_scalars :=
  @Build_Tsmlq Q_scalars
    (fun _ _ _ _ _ _ _ _ A1 _ _ A2 _ _ _ _ _ _ _ _ W _ => (0, (A1, A2, W))).

Definition sample_negation : @Negation Q_scalars :=
  @Build_Negation Q_scalars (fun x => Qred (- x)).

(** A matrix of 4 rows and 2 columns held in one column-major tile. *)
Definition sample_descriptors : Descriptors :=
  {| coreblas_desc_t := unit;
     desc_mb := fun _ => 4;
     desc_nb := fun _ => 2;
     desc_m := fun _ => 4;
     desc_n := fun _ => 2;
     coreblas_tile_addr := fun _ i j => 8 * (i + j);
     coreblas_tile_mmain := fun _ _ => 4 |}.

(** Pivots that exchange rows 0 and 2, keep row 1 and exchange rows 2
    and 3 (counted from zero). *)
Definition sample_ipiv (m : Z) : Z :=
  if m =? 0 then 3 else if m =? 1 then 2 else 4.

(** The storage whose cell [z] holds the number [z]. *)
Definition sample_storage : @array Q_scalars := fun z => inject_Z z.

(** * Part II: properties *)

(** ** Comparisons *)

Lemma gtb_true (a b : Z) : b < a -> (a >? b) = true.
Proof. intros Hlt. rewrite Z.gtb_ltb. apply Z.ltb_lt. exact Hlt. Qed.

Lemma gtb_false (a b : Z) : a <= b -> (a >? b) = false.
Proof. intros Hle. rewrite Z.gtb_ltb. apply Z.ltb_ge. exact Hle. Qed.

(** ** Loops *)

Lemma iter_from_ext {St : Type} (f g : Z -> St -> St) (k : nat) :
  forall (lo : Z) (s : St),
    (forall i s', lo <= i < lo + Z.of_nat k -> f i s' = g i s') ->
    iter_from k lo f s = iter_from k lo g s.
Proof.
  induction k as [|k IH]; intros lo s Hfg; simpl.
  - reflexivity.
  - rewrite Hfg by lia. apply IH. intros i s' Hi. apply Hfg. lia.
Qed.

Lemma for_loop_ext {St : Type} (f g : Z -> St -> St) (lo hi : Z) (s : St) :
  (forall i s', lo <= i < hi -> f i s' = g i s') ->
  for_loop lo hi f s = for_loop lo hi g s.
Proof.
  intros Hfg. unfold for_loop. apply iter_from_ext.
  intros i s' Hi. apply Hfg. lia.
Qed.

Lemma iter_from_shift {St : Type} (f : Z -> St -> St) (d : Z) (k : nat) :
  forall (lo : Z) (s : St),
    iter_from k (lo + d) f s = iter_from k lo (fun i => f (i + d)) s.
Proof.
  induction k as [|k IH]; intros lo s; simpl.
  - reflexivity.
  - replace (lo + d + 1) with (lo + 1 + d) by lia. apply IH.
Qed.

Lemma for_loop_shift {St : Type} (f : Z -> St -> St) (d lo hi : Z) (s : St) :
  for_loop (lo + d) (hi + d) f s = for_loop lo hi (fun i => f (i + d)) s.
Proof.
  unfold for_loop. replace (hi + d - (lo + d)) with (hi - lo) by lia.
  apply iter_from_shift.
Qed.

(** A loop preserves whatever each of its rounds preserves. *)
Lemma iter_from_inv {St : Type} (P : St -> Prop) (f : Z -> St -> St) (k : nat) :
  forall (lo : Z) (s : St),
    P s ->
    (forall i s', lo <= i < lo + Z.of_nat k -> P s' -> P (f i s')) ->
    P (iter_from k lo f s).
Proof.
  induction k as [|k IH]; intros lo s Hs Hstep; simpl.
  - exact Hs.
  - apply IH.
    + apply Hstep; [lia | exact Hs].
    + intros i s' Hi. apply Hstep. lia.
Qed.

Lemma for_loop_inv {St : Type} (P : St -> Prop) (f : Z -> St -> St) (lo hi : Z) (s : St) :
  P s ->
  (forall i s', lo <= i < hi -> P s' -> P (f i s')) ->
  P (for_loop lo hi f s).
Proof.
  intros Hs Hstep. unfold for_loop. apply iter_from_inv; [exact Hs|].
  intros i s' Hi. apply Hstep. lia.
Qed.

(** An invariant that depends on the round: [P i] holds before round [i]. *)
Lemma iter_from_inv_idx {St : Type} (P : Z -> St -> Prop) (f : Z -> St -> St) (k : nat) :
  forall (lo : Z) (s : St),
    P lo s ->
    (forall i s', lo <= i < lo + Z.of_nat k -> P i s' -> P (i + 1) (f i s')) ->
    P (lo + Z.of_nat k) (iter_from k lo f s).
Proof.
  induction k as [|k IH]; intros lo s Hs Hstep; simpl iter_from.
  - replace (lo + Z.of_nat 0) with lo by lia. exact Hs.
  - replace (lo + Z.of_nat (S k)) with (lo + 1 + Z.of_nat k) by lia.
    apply IH.
    + apply Hstep; [lia | exact Hs].
    + intros i s' Hi. apply Hstep. lia.
Qed.

Lemma for_loop_inv_idx {St : Type} (P : Z -> St -> Prop) (f : Z -> St -> St)
  (lo hi : Z) (s : St) :
  lo <= hi ->
  P lo s ->
  (forall i s', lo <= i < hi -> P i s' -> P (i + 1) (f i s')) ->
  P hi (for_loop lo hi f s).
Proof.
  intros Hle Hs Hstep. unfold for_loop.
  replace hi with (lo + Z.of_nat (Z.to_nat (hi - lo))) at 1 by lia.
  apply iter_from_inv_idx; [exact Hs|].
  intros i s' Hi. apply Hstep. lia.
Qed.

Lemma for_loop_from1 {St : Type} (f : Z -> St -> St) (hi : Z) (s : St) :
  for_loop 1 hi f s = for_loop 0 (hi - 1) (fun i => f (i + 1)) s.
Proof.
  rewrite <- for_loop_shift. simpl (0 + 1).
  replace (hi - 1 + 1) with hi by lia. reflexivity.
Qed.

Lemma zrange_map_ext {B : Type} (f g : Z -> B) (k : nat) :
  forall lo : Z,
    (forall i, lo <= i < lo + Z.of_nat k -> f i = g i) ->
    map f (zrange k lo) = map g (zrange k lo).
Proof.
  induction k as [|k IH]; intros lo Hfg; simpl.
  - reflexivity.
  - rewrite Hfg by lia. f_equal. apply IH. intros i Hi. apply Hfg. lia.
Qed.

(** ** Pointers and memory *)

Lemma buffer_eqb_eq (a b : buffer) : buffer_eqb a b = true <-> a = b.
Proof. destruct a, b; simpl; split; congruence. Qed.

Lemma ptr_eqb_eq (p q : ptr) : ptr_eqb p q = true <-> p = q.
Proof.
  destruct p as [a i], q as [b j]. unfold ptr_eqb. simpl.
  rewrite andb_true_iff, buffer_eqb_eq, Z.eqb_eq.
  split; [intros [-> ->]; reflexivity | intros E; inversion E; auto].
Qed.

Lemma ptr_eqb_refl (p : ptr) : ptr_eqb p p = true.
Proof. apply ptr_eqb_eq. reflexivity. Qed.

Lemma ptr_eqb_neq (p q : ptr) : p <> q -> ptr_eqb p q = false.
Proof.
  intros Hne. destruct (ptr_eqb p q) eqn:E; [|reflexivity].
  apply ptr_eqb_eq in E. contradiction.
Qed.

Lemma ptr_eq_dec (p q : ptr) : {p = q} + {p <> q}.
Proof.
  destruct (ptr_eqb p q) eqn:E.
  - left. apply ptr_eqb_eq. exact E.
  - right. intros ->. rewrite ptr_eqb_refl in E. discriminate.
Qed.

Section MemoryFacts.

Context `{SC : Scalars}.

Lemma load_store_same (m : mem) (p : ptr) (v : scalar) : load (store m p v) p = v.
Proof. unfold load, store. rewrite ptr_eqb_refl. reflexivity. Qed.

Lemma load_store_other (m : mem) (p q : ptr) (v : scalar) :
  q <> p -> load (store m p v) q = load m q.
Proof. intros Hne. unfold load, store. rewrite ptr_eqb_neq by exact Hne. reflexivity. Qed.

(** A loop of stores leaves alone every cell it does not name. *)
Lemma store_loop_frame (addr : Z -> ptr) (val : Z -> mem -> scalar) (lo hi : Z)
  (m : mem) (q : ptr) :
  (forall i, lo <= i < hi -> addr i <> q) ->
  load (for_loop lo hi (fun i m => store m (addr i) (val i m)) m) q = load m q.
Proof.
  intros Hq.
  apply (for_loop_inv (fun m' => load m' q = load m q)); [reflexivity|].
  intros i m' Hi Hm'. rewrite load_store_other; [exact Hm'|].
  intros E. apply (Hq i Hi). symmetry. exact E.
Qed.

(** A loop that stores one value under distinct names leaves it there. *)
Lemma store_loop_const (addr : Z -> ptr) (v : scalar) (lo hi : Z) (m : mem) (j : Z) :
  lo <= j < hi ->
  load (for_loop lo hi (fun i m => store m (addr i) v) m) (addr j) = v.
Proof.
  intros Hj.
  assert (Hinv : forall k, lo <= k < hi ->
            load (for_loop lo hi (fun i m => store m (addr i) v) m) (addr k) = v).
  { apply (for_loop_inv_idx
             (fun i m' => forall k, lo <= k < i -> load m' (addr k) = v));
      [lia | intros k Hk; lia |].
    intros i m' Hi Hm' k Hk.
    destruct (ptr_eq_dec (addr k) (addr i)) as [E|E].
    - rewrite E. apply load_store_same.
    - rewrite load_store_other by exact E. apply Hm'.
      assert (k <> i) by (intros ->; apply E; reflexivity). lia. }
  apply Hinv. lia.
Qed.

Lemma write_vec_frame (p : ptr) (cnt : Z) (l : list scalar) (m : mem) (q : ptr) :
  (forall k, 0 <= k < cnt -> ptr_add p k <> q) ->
  load (write_vec p cnt l m) q = load m q.
Proof.
  intros Hq. unfold write_vec.
  apply (store_loop_frame (fun k => ptr_add p k)
                          (fun k _ => nth (Z.to_nat k) l czero)). exact Hq.
Qed.

Lemma write_vec_at (p : ptr) (cnt : Z) (l : list scalar) (m : mem) (j : Z) :
  0 <= j < cnt ->
  load (write_vec p cnt l m) (ptr_add p j) = nth (Z.to_nat j) l czero.
Proof.
  intros Hj. unfold write_vec.
  assert (Hinv : forall k, 0 <= k < cnt ->
            load (for_loop 0 cnt (fun k m => store m (ptr_add p k)
                                                   (nth (Z.to_nat k) l czero)) m)
                 (ptr_add p k) = nth (Z.to_nat k) l czero).
  { apply (for_loop_inv_idx
             (fun i m' => forall k, 0 <= k < i ->
                          load m' (ptr_add p k) = nth (Z.to_nat k) l czero));
      [lia | intros k Hk; lia |].
    intros i m' Hi Hm' k Hk.
    destruct (Z.eq_dec k i) as [->|Hne].
    - apply load_store_same.
    - rewrite load_store_other.
      + apply Hm'. lia.
      + destruct p as [b o]. unfold ptr_add. simpl. intros E. inversion E. lia. }
  apply Hinv. exact Hj.
Qed.

Lemma write_rect_frame (view : Z -> Z -> ptr) (r0 c0 rows cols : Z)
  (blk : list (list scalar)) (m : mem) (q : ptr) :
  (forall i j, 0 <= i < rows -> 0 <= j < cols -> view (r0 + i) (c0 + j) <> q) ->
  load (write_rect view r0 c0 rows cols blk m) q = load m q.
Proof.
  intros Hq. unfold write_rect.
  apply (for_loop_inv (fun m' => load m' q = load m q)); [reflexivity|].
  intros j m' Hj Hm'. rewrite <- Hm'.
  apply (store_loop_frame (fun i => view (r0 + i) (c0 + j))
                          (fun i _ => block_entry blk i j)).
  intros i Hi. apply Hq; assumption.
Qed.

End MemoryFacts.

(** ** Band addressing *)

(** Walking a block with leading dimension [lda - 1] from the cell of
    [(r, c)] visits the cells of the logical positions [(r+i, c+j)]: one
    step along a storage column is one row down, one stride of [lda - 1]
    is one column to the right in the same row. *)
Lemma AU_block (nb lda r c i j : Z) :
  ptr_add (AU nb lda r c) (i + j * (lda - 1)) = AU nb lda (r + i) (c + j).
Proof. unfold ptr_add, AU. simpl. f_equal. ring. Qed.

Lemma AL_block (nb lda r c i j : Z) :
  ptr_add (AL nb lda r c) (i + j * (lda - 1)) = AL nb lda (r + i) (c + j).
Proof. unfold ptr_add, AL. simpl. f_equal. ring. Qed.

Lemma band_view_AU (nb lda : Z) : band_view lda (AU nb lda).
Proof. intros r c i j. apply AU_block. Qed.

Lemma band_view_AL (nb lda : Z) : band_view lda (AL nb lda).
Proof. intros r c i j. apply AL_block. Qed.

Lemma band_view_col (lda : Z) (view : Z -> Z -> ptr) (r c k : Z) :
  band_view lda view -> ptr_add (view r c) k = view (r + k) c.
Proof.
  intros Hv. specialize (Hv r c k 0).
  replace (k + 0 * (lda - 1)) with k in Hv by ring.
  replace (c + 0) with c in Hv by ring. exact Hv.
Qed.

(** Distinct positions held by the buffer have distinct cells. *)
Lemma AU_inj (nb lda i j i' j' : Z) :
  3 * nb + 1 <= lda ->
  - (2 * nb) <= i - j <= nb -> - (2 * nb) <= i' - j' <= nb ->
  AU nb lda i j = AU nb lda i' j' -> i = i' /\ j = j'.
Proof.
  intros Hlda Hij Hij' E. unfold AU in E. inversion E as [E'].
  assert (j = j') by nia. subst j'. split; [lia | reflexivity].
Qed.

Lemma AL_inj (nb lda i j i' j' : Z) :
  3 * nb + 1 <= lda ->
  - nb <= i - j <= 2 * nb -> - nb <= i' - j' <= 2 * nb ->
  AL nb lda i j = AL nb lda i' j' -> i = i' /\ j = j'.
Proof.
  intros Hlda Hij Hij' E. unfold AL in E. inversion E as [E'].
  assert (j = j') by nia. subst j'. split; [lia | reflexivity].
Qed.

(** ** The kernels are the sequences of steps on the logical matrix *)

Section Sequences.

Context `{HD : Headers} `{LP : Lapacke}.

Lemma read_block_rect (lda : Z) (view : Z -> Z -> ptr) (m : mem) (r0 c0 rows cols : Z) :
  band_view lda view ->
  read_block m (view r0 c0) (lda - 1) rows cols = read_rect view m r0 c0 rows cols.
Proof.
  intros Hv. unfold read_block, read_rect.
  apply zrange_map_ext. intros j _. apply zrange_map_ext. intros i _.
  rewrite Hv. reflexivity.
Qed.

Lemma write_block_rect (lda : Z) (view : Z -> Z -> ptr) (r0 c0 rows cols : Z)
  (blk : list (list scalar)) (m : mem) :
  band_view lda view ->
  write_block (view r0 c0) (lda - 1) rows cols blk m
  = write_rect view r0 c0 rows cols blk m.
Proof.
  intros Hv. unfold write_block, write_rect.
  apply for_loop_ext. intros j m1 _. apply for_loop_ext. intros i m2 _.
  rewrite Hv. reflexivity.
Qed.

(** [LAPACKE_zlarfx] on the block at [view r0 c0] with leading dimension
    [LDX = lda - 1] applies the reflector to the logical rectangle. *)
Lemma zlarfx_apply_reflector (lda : Z) (view : Z -> Z -> ptr) (side : lapack_side)
  (rows cols : Z) (v : ptr) (tau : scalar) (r0 c0 : Z) (m : mem) :
  band_view lda view ->
  LAPACKE_zlarfx side rows cols v tau (view r0 c0) (lda - 1) WORK m
  = apply_reflector side view r0 c0 rows cols v tau m.
Proof.
  intros Hv. unfold LAPACKE_zlarfx, apply_reflector.
  rewrite (read_block_rect lda view m r0 c0 rows cols Hv).
  rewrite (write_block_rect lda view r0 c0 rows cols _ m Hv).
  reflexivity.
Qed.

(** [memcpy] out of a storage column followed by [memset] of the same
    cells moves the entries below [(r0, c)] into the reflector vector. *)
Lemma memcpy_memset_col (lda : Z) (view : Z -> Z -> ptr) (r0 c len : Z) (v : ptr)
  (m : mem) :
  band_view lda view ->
  memset0 (view (r0 + 1) c) (len - 1)
          (memcpy (ptr_add v 1) (view (r0 + 1) c) (len - 1) m)
  = for_loop 1 len (fun k m => store m (view (r0 + k) c) czero)
      (for_loop 1 len (fun k m => store m (ptr_add v k) (load m (view (r0 + k) c))) m).
Proof.
  intros Hv. unfold memset0, memcpy.
  rewrite !(for_loop_from1 _ len).
  rewrite (for_loop_ext
             (fun k m0 => store m0 (ptr_add (ptr_add v 1) k)
                                (load m0 (ptr_add (view (r0 + 1) c) k)))
             (fun i m0 => store m0 (ptr_add v (i + 1)) (load m0 (view (r0 + (i + 1)) c)))).
  - apply for_loop_ext. intros k m0 _.
    rewrite (band_view_col lda view (r0 + 1) c k Hv).
    replace (r0 + 1 + k) with (r0 + (k + 1)) by ring. reflexivity.
  - intros k m0 _.
    rewrite (band_view_col lda view (r0 + 1) c k Hv).
    replace (r0 + 1 + k) with (r0 + (k + 1)) by ring.
    destruct v as [b o]. unfold ptr_add. simpl.
    replace (o + 1 + k) with (o + (k + 1)) by ring. reflexivity.
Qed.

Lemma type1_upper_unfold (uplo n nb lda st ed sweep Vblksiz wantz : Z) (m : mem) :
  uplo = CoreBlasUpper ->
  coreblas_zgbtype1cb uplo n nb lda st ed sweep Vblksiz wantz m
  = type1_upper_steps nb lda st ed
      (fst (reflector_pos wantz n nb Vblksiz sweep st))
      (snd (reflector_pos wantz n nb Vblksiz sweep st)) m.
Proof.
  intros ->. unfold coreblas_zgbtype1cb, type1_upper_steps.
  destruct (reflector_pos wantz n nb Vblksiz sweep st) as [vpos taupos]. simpl fst. simpl snd.
  rewrite Z.eqb_refl.
  pose proof (band_view_AU nb lda) as Hv.
  unfold eliminate_row, eliminate_col, row_loop.
  change (ptr_add (VP vpos) 1) with (VP (vpos + 1)).
  destruct (LAPACKE_zlarfg _ _ (VP (vpos + 1)) _ _) as [beta m1].
  rewrite !(zlarfx_apply_reflector lda (AU nb lda)) by exact Hv.
  change (VQ (vpos + 1)) with (ptr_add (VQ vpos) 1).
  rewrite (memcpy_memset_col lda (AU nb lda) st st (ed - st + 1) (VQ vpos) _ Hv).
  reflexivity.
Qed.

Lemma type1_lower_unfold (uplo n nb lda st ed sweep Vblksiz wantz : Z) (m : mem) :
  uplo <> CoreBlasUpper ->
  coreblas_zgbtype1cb uplo n nb lda st ed sweep Vblksiz wantz m
  = type1_lower_steps nb lda st ed
      (fst (reflector_pos wantz n nb Vblksiz sweep st))
      (snd (reflector_pos wantz n nb Vblksiz sweep st)) m.
Proof.
  intros Hne. unfold coreblas_zgbtype1cb, type1_lower_steps.
  destruct (reflector_pos wantz n nb Vblksiz sweep st) as [vpos taupos]. simpl fst. simpl snd.
  apply Z.eqb_neq in Hne. rewrite Hne.
  pose proof (band_view_AL nb lda) as Hv.
  unfold eliminate_row, eliminate_col, row_loop.
  change (VQ (vpos + 1)) with (ptr_add (VQ vpos) 1).
  rewrite (memcpy_memset_col lda (AL nb lda) st (st - 1) (ed - st + 1) (VQ vpos) _ Hv).
  rewrite !(zlarfx_apply_reflector lda (AL nb lda)) by exact Hv.
  change (ptr_add (VP vpos) 1) with (VP (vpos + 1)).
  destruct (LAPACKE_zlarfg _ _ (VP (vpos + 1)) _ _) as [beta m1].
  rewrite !(zlarfx_apply_reflector lda (AL nb lda)) by exact Hv.
  reflexivity.
Qed.

End Sequences.

Section Type2.

Context `{HD : Headers} `{LP : Lapacke}.

(** The type-2 kernel is its two guarded phases, one after the other. *)
Lemma type2_unfold (uplo n nb lda st ed sweep Vblksiz wantz : Z) (m : mem) :
  coreblas_zgbtype2cb uplo n nb lda st ed sweep Vblksiz wantz m
  = type2_phases uplo n nb lda st ed
      (reflector_pos wantz n nb Vblksiz sweep st)
      (reflector_pos wantz n nb Vblksiz sweep (ed + 1)) m.
Proof.
  unfold coreblas_zgbtype2cb, type2_phases, type2_apply_pending, type2_generate_next.
  set (len := imin (ed + nb) (n - 1) - (ed + 1) + 1).
  destruct (reflector_pos wantz n nb Vblksiz sweep st) as [vpos taupos].
  destruct (reflector_pos wantz n nb Vblksiz sweep (ed + 1)) as [vposJ tauposJ].
  simpl fst. simpl snd.
  destruct (uplo =? CoreBlasUpper).
  - pose proof (band_view_AU nb lda) as Hv.
    rewrite (zlarfx_apply_reflector lda (AU nb lda)) by exact Hv.
    destruct (len >? 1); [|reflexivity].
    unfold eliminate_row, row_loop.
    change (ptr_add (VP vposJ) 1) with (VP (vposJ + 1)).
    destruct (LAPACKE_zlarfg _ _ (VP (vposJ + 1)) _ _) as [beta m1].
    rewrite (zlarfx_apply_reflector lda (AU nb lda)) by exact Hv.
    replace (ed - st + 1 - 1) with (ed - st) by ring. reflexivity.
  - pose proof (band_view_AL nb lda) as Hv.
    rewrite !(zlarfx_apply_reflector lda (AL nb lda)) by exact Hv.
    destruct (len >? 1); [|reflexivity].
    unfold eliminate_col.
    change (VQ (vposJ + 1)) with (ptr_add (VQ vposJ) 1).
    rewrite (memcpy_memset_col lda (AL nb lda) (ed + 1) st len (VQ vposJ) _ Hv).
    replace (ed - st + 1 - 1) with (ed - st) by ring. reflexivity.
Qed.

(** Applying a reflector to a rectangle changes the cells of the
    rectangle and the workspace, and nothing else. *)
Lemma apply_reflector_frame (side : lapack_side) (view : Z -> Z -> ptr)
  (r0 c0 rows cols : Z) (v : ptr) (tau : scalar) (m : mem) (q : ptr) :
  fst q <> BufWORK ->
  (forall i j, 0 <= i < rows -> 0 <= j < cols -> view (r0 + i) (c0 + j) <> q) ->
  load (apply_reflector side view r0 c0 rows cols v tau m) q = load m q.
Proof.
  intros Hw Hq. unfold apply_reflector.
  rewrite write_vec_frame.
  - apply write_rect_frame. exact Hq.
  - intros k _ E. apply Hw. rewrite <- E. reflexivity.
Qed.

Lemma type2_apply_pending_frame (uplo n nb lda st ed vpos taupos : Z)
  (m : mem) (q : ptr) :
  fst q <> BufWORK ->
  (forall i j, st <= i <= ed -> ed + 1 <= j <= imin (ed + nb) (n - 1) ->
               (if uplo =? CoreBlasUpper then AU nb lda i j else AL nb lda j i) <> q) ->
  load (type2_apply_pending uplo n nb lda st ed vpos taupos m) q = load m q.
Proof.
  intros Hw Hq. unfold type2_apply_pending.
  destruct (uplo =? CoreBlasUpper).
  - apply apply_reflector_frame; [exact Hw|].
    intros i j Hi Hj. apply Hq; lia.
  - apply apply_reflector_frame; [exact Hw|].
    intros i j Hi Hj. apply (Hq (st + j) (ed + 1 + i)); lia.
Qed.

End Type2.

(** ** What an application writes *)

Section RectFacts.

Context `{HD : Headers} `{LP : Lapacke}.

(** A loop of stores under distinct names leaves each value at its name. *)
Lemma store_loop_at (addr : Z -> ptr) (val : Z -> scalar) (lo hi : Z) (m : mem) (k : Z) :
  (forall i i', lo <= i < hi -> lo <= i' < hi -> addr i = addr i' -> i = i') ->
  lo <= k < hi ->
  load (for_loop lo hi (fun i m => store m (addr i) (val i)) m) (addr k) = val k.
Proof.
  intros Hinj Hk.
  assert (Hall : forall j, lo <= j < hi ->
            load (for_loop lo hi (fun i m => store m (addr i) (val i)) m) (addr j) = val j).
  { apply (for_loop_inv_idx
             (fun i m' => forall j, lo <= j < i -> load m' (addr j) = val j));
      [lia | intros j Hj; lia |].
    intros i m' Hi Hm' j Hj.
    destruct (Z.eq_dec j i) as [->|Hne].
    - apply load_store_same.
    - rewrite load_store_other.
      + apply Hm'. lia.
      + intros E. apply Hne. apply Hinj; [lia | lia | exact E]. }
  apply Hall. exact Hk.
Qed.

Lemma write_rect_at (view : Z -> Z -> ptr) (r0 c0 rows cols : Z)
  (blk : list (list scalar)) (m : mem) (i j : Z) :
  (forall a b a' b', 0 <= a < rows -> 0 <= b < cols -> 0 <= a' < rows -> 0 <= b' < cols ->
     view (r0 + a) (c0 + b) = view (r0 + a') (c0 + b') -> a = a' /\ b = b') ->
  0 <= i < rows -> 0 <= j < cols ->
  load (write_rect view r0 c0 rows cols blk m) (view (r0 + i) (c0 + j))
  = block_entry blk i j.
Proof.
  intros Hinj Hi Hj. unfold write_rect.
  assert (Hall : forall a b, 0 <= a < rows -> 0 <= b < cols ->
            load (for_loop 0 cols (fun j m =>
                    for_loop 0 rows (fun i m =>
                      store m (view (r0 + i) (c0 + j)) (block_entry blk i j)) m) m)
                 (view (r0 + a) (c0 + b)) = block_entry blk a b).
  { apply (for_loop_inv_idx
             (fun jj m' => forall a b, 0 <= a < rows -> 0 <= b < jj ->
                load m' (view (r0 + a) (c0 + b)) = block_entry blk a b));
      [lia | intros a b Ha Hb; lia |].
    intros jj m' Hjj Hm' a b Ha Hb.
    destruct (Z.eq_dec b jj) as [->|Hne].
    - apply (store_loop_at (fun i => view (r0 + i) (c0 + jj))
                           (fun i => block_entry blk i jj)); [|exact Ha].
      intros x x' Hx Hx' E. apply (Hinj x jj x' jj Hx Hjj Hx' Hjj E).
    - rewrite (store_loop_frame (fun i => view (r0 + i) (c0 + jj))
                                (fun i _ => block_entry blk i jj)).
      + apply Hm'; lia.
      + intros x Hx E.
        destruct (Hinj x jj a b Hx Hjj Ha ltac:(lia) E) as [_ Eb]. lia. }
  apply Hall; assumption.
Qed.

(** Every cell of the rectangle receives its entry of the block that
    [larfx] returns for the reflector and the rectangle as they were. *)
Lemma apply_reflector_at (side : lapack_side) (view : Z -> Z -> ptr)
  (r0 c0 rows cols : Z) (v : ptr) (tau : scalar) (m : mem) (i j : Z) :
  (forall a b, fst (view a b) = BufA) ->
  (forall a b a' b', 0 <= a < rows -> 0 <= b < cols -> 0 <= a' < rows -> 0 <= b' < cols ->
     view (r0 + a) (c0 + b) = view (r0 + a') (c0 + b') -> a = a' /\ b = b') ->
  0 <= i < rows -> 0 <= j < cols ->
  load (apply_reflector side view r0 c0 rows cols v tau m) (view (r0 + i) (c0 + j))
  = block_entry
      (larfx side rows cols
             (read_vec m v (match side with SideL => rows | SideR => cols end))
             tau (read_rect view m r0 c0 rows cols)) i j.
Proof.
  intros HA Hinj Hi Hj. unfold apply_reflector.
  rewrite write_vec_frame.
  - apply write_rect_at; assumption.
  - intros k _ E. pose proof (HA (r0 + i) (c0 + j)) as HA'.
    rewrite <- E in HA'. simpl in HA'. discriminate.
Qed.

End RectFacts.

(** ** Reflector positions in values-only mode *)

Lemma reflector_pos_values_only `{HD : Headers} (n nb Vblksiz sweep p : Z) :
  0 <= sweep ->
  reflector_pos 0 n nb Vblksiz sweep p
  = (((sweep + 1) mod 2) * n + p, ((sweep + 1) mod 2) * n + p).
Proof.
  intros Hs. unfold reflector_pos. simpl (0 =? 0).
  rewrite Z.rem_mod_nonneg by lia. reflexivity.
Qed.

(** C2.  In values-only mode ([wantz = 0]) both offsets that the type-1
    and type-2 kernels use, for the reflector vector and for its scalar,
    are [((sweep+1) mod 2) * n + p]: [p = st] for the reflector of the
    window, [p = J1 = ed + 1] for the reflector a type-2 call generates.
    The store is a ping-pong buffer of [2*n] slots: a position [p < n]
    falls in [0 .. 2n-1], sweeps of equal parity share their slots, and
    consecutive sweeps use different halves. *)
Theorem values_only_ping_pong `{HD : Headers} `{LP : Lapacke}
  (uplo n nb lda st ed sweep Vblksiz : Z) (m : mem) :
  0 <= sweep ->
  let slot := fun s p => ((s + 1) mod 2) * n + p in
  reflector_pos 0 n nb Vblksiz sweep st = (slot sweep st, slot sweep st)
  /\ reflector_pos 0 n nb Vblksiz sweep (ed + 1)
     = (slot sweep (ed + 1), slot sweep (ed + 1))
  /\ coreblas_zgbtype1cb uplo n nb lda st ed sweep Vblksiz 0 m
     = (if uplo =? CoreBlasUpper
        then type1_upper_steps nb lda st ed (slot sweep st) (slot sweep st) m
        else type1_lower_steps nb lda st ed (slot sweep st) (slot sweep st) m)
  /\ coreblas_zgbtype2cb uplo n nb lda st ed sweep Vblksiz 0 m
     = type2_phases uplo n nb lda st ed
         (slot sweep st, slot sweep st)
         (slot sweep (ed + 1), slot sweep (ed + 1)) m
  /\ (forall p, 0 <= p < n -> 0 <= slot sweep p < 2 * n)
  /\ (forall p, slot (sweep + 2) p = slot sweep p)
  /\ (forall p p', 0 <= p < n -> 0 <= p' < n -> slot (sweep + 1) p' <> slot sweep p).
Proof.
  intros Hs slot.
  pose proof (reflector_pos_values_only n nb Vblksiz sweep st Hs) as Hst.
  pose proof (reflector_pos_values_only n nb Vblksiz sweep (ed + 1) Hs) as HJ.
  assert (Hpar : (sweep + 1) mod 2 = 0 \/ (sweep + 1) mod 2 = 1)
    by (pose proof (Z.mod_pos_bound (sweep + 1) 2); lia).
  split; [exact Hst|]. split; [exact HJ|].
  split; [|split; [|split; [|split]]].
  - destruct (uplo =? CoreBlasUpper) eqn:E.
    + apply Z.eqb_eq in E. rewrite (type1_upper_unfold _ _ _ _ _ _ _ _ _ _ E).
      rewrite Hst. reflexivity.
    + apply Z.eqb_neq in E. rewrite (type1_lower_unfold _ _ _ _ _ _ _ _ _ _ E).
      rewrite Hst. reflexivity.
  - rewrite type2_unfold, Hst, HJ. reflexivity.
  - intros p Hp. unfold slot. destruct Hpar as [-> | ->]; lia.
  - intros p. unfold slot.
    replace (sweep + 2 + 1) with (sweep + 1 + 1 * 2) by ring.
    rewrite Z.mod_add by lia. reflexivity.
  - intros p p' Hp Hp'. unfold slot.
    assert (Hflip : (sweep + 1 + 1) mod 2 = 1 - (sweep + 1) mod 2).
    { rewrite Z.add_mod by lia. destruct Hpar as [-> | ->]; reflexivity. }
    rewrite Hflip. destruct Hpar as [-> | ->]; lia.
Qed.

Lemma values_only_ping_pong_witness :
  @reflector_pos sample_headers 0 5 4 1 3 1 = (1, 1)
  /\ @reflector_pos sample_headers 0 5 4 1 4 1 = (6, 6).
Proof.
  split.
  - exact (proj1 (@values_only_ping_pong sample_headers Q_scalars Q_lapacke
                    121 5 4 13 1 4 3 1 sample_upper_band ltac:(lia))).
  - exact (proj1 (@values_only_ping_pong sample_headers Q_scalars Q_lapacke
                    121 5 4 13 1 4 4 1 sample_upper_band ltac:(lia))).
Defined.

Lemma imin_le_l (a b : Z) : imin a b <= a.
Proof. unfold imin. destruct (a <? b) eqn:E; [lia | apply Z.ltb_ge in E; lia]. Qed.

Lemma type2_apply_pending_at `{HD : Headers} `{LP : Lapacke}
  (uplo n nb lda st ed vpos taupos : Z) (m : mem) (i j : Z) :
  3 * nb + 1 <= lda -> ed - st + 1 <= nb ->
  st <= i <= ed -> ed + 1 <= j <= imin (ed + nb) (n - 1) ->
  let B := type2_pending_block uplo n nb lda st ed vpos taupos m in
  load (type2_apply_pending uplo n nb lda st ed vpos taupos m)
       (if uplo =? CoreBlasUpper then AU nb lda i j else AL nb lda j i)
  = if uplo =? CoreBlasUpper
    then block_entry B (i - st) (j - (ed + 1))
    else block_entry B (j - (ed + 1)) (i - st).
Proof.
  intros Hlda Hlen Hi Hj B. unfold B, type2_apply_pending, type2_pending_block.
  pose proof (imin_le_l (ed + nb) (n - 1)) as HJ2.
  destruct (uplo =? CoreBlasUpper).
  - replace i with (st + (i - st)) at 1 by ring.
    replace j with (ed + 1 + (j - (ed + 1))) at 1 by ring.
    apply (apply_reflector_at SideL (AU nb lda)); [reflexivity | | lia | lia].
    intros a b a' b' Ha Hb Ha' Hb' E.
    apply AU_inj in E; [lia | exact Hlda | lia | lia].
  - replace i with (st + (i - st)) at 1 by ring.
    replace j with (ed + 1 + (j - (ed + 1))) at 1 by ring.
    apply (apply_reflector_at SideR (AL nb lda)); [reflexivity | | lia | lia].
    intros a b a' b' Ha Hb Ha' Hb' E.
    apply AL_inj in E; [lia | exact Hlda | lia | lia].
Qed.

(** C4.  For a valid type-2 call whose next block [[J1, J2]],
    [J1 = ed + 1], [J2 = min (ed + nb, n - 1)], is not empty: the kernel
    first applies the reflector stored at the slot of [(sweep, st)], the
    left one [VQ]/[TAUQ] from the left in the upper case and
    [VP]/[TAUP] from the right in the lower case, and only then runs the
    generation of the next reflector, on the memory that application
    left.  The application changes no cell besides those of the
    [(ed-st+1)]-by-[(J2-J1+1)] rectangle between [[st, ed]] and
    [[J1, J2]] (rows by columns in the upper case, columns by rows in the
    lower case) and the workspace, and every cell of the rectangle
    receives its entry of the block [larfx] returns for the stored
    reflector. *)
Theorem type2_pending_first `{HD : Headers} `{LP : Lapacke}
  (uplo n nb lda st ed sweep Vblksiz wantz : Z) (m : mem) :
  let J1 := ed + 1 in
  let J2 := imin (ed + nb) (n - 1) in
  let pos_st := reflector_pos wantz n nb Vblksiz sweep st in
  let pos_J1 := reflector_pos wantz n nb Vblksiz sweep J1 in
  3 * nb + 1 <= lda -> st <= ed -> ed - st + 1 <= nb ->
  0 < J2 - J1 + 1 ->
  let m1 := type2_apply_pending uplo n nb lda st ed (fst pos_st) (snd pos_st) m in
  let B := type2_pending_block uplo n nb lda st ed (fst pos_st) (snd pos_st) m in
  coreblas_zgbtype2cb uplo n nb lda st ed sweep Vblksiz wantz m
  = (if J2 - J1 + 1 >? 1
     then type2_generate_next uplo n nb lda st ed (fst pos_J1) (snd pos_J1) m1
     else m1)
  /\ (forall q : ptr,
        fst q <> BufWORK ->
        (forall i j, st <= i <= ed -> J1 <= j <= J2 ->
           (if uplo =? CoreBlasUpper then AU nb lda i j else AL nb lda j i) <> q) ->
        load m1 q = load m q)
  /\ (forall i j, st <= i <= ed -> J1 <= j <= J2 ->
        load m1 (if uplo =? CoreBlasUpper then AU nb lda i j else AL nb lda j i)
        = if uplo =? CoreBlasUpper
          then block_entry B (i - st) (j - J1)
          else block_entry B (j - J1) (i - st)).
Proof.
  intros J1 J2 pos_st pos_J1 Hlda Hse Hnb Hlen m1 B. split; [|split].
  - rewrite type2_unfold. unfold type2_phases. fold J1 J2 pos_st pos_J1.
    rewrite (gtb_true (J2 - J1 + 1) 0) by lia. reflexivity.
  - intros q Hw Hq. apply type2_apply_pending_frame; assumption.
  - intros i j Hi Hj. apply type2_apply_pending_at; assumption.
Qed.

Lemma type2_pending_first_witness :
  @coreblas_zgbtype2cb sample_headers Q_scalars Q_lapacke
     121 5 4 13 1 2 0 1 0 sample_upper_band
  = @type2_generate_next sample_headers Q_scalars Q_lapacke 121 5 4 13 1 2 8 8
      (@type2_apply_pending sample_headers Q_scalars Q_lapacke
         121 5 4 13 1 2 6 6 sample_upper_band).
Proof.
  exact (proj1 (@type2_pending_first sample_headers Q_scalars Q_lapacke
                  121 5 4 13 1 2 0 1 0 sample_upper_band
                  ltac:(lia) ltac:(lia) ltac:(lia) ltac:(vm_compute; reflexivity))).
Defined.

(** C5.  The two phases of the type-2 kernel are guarded one by one by
    the length [J2 - J1 + 1] of the next block, for either [uplo]: when
    it is not positive the call writes nothing; when it is one the call
    is the pending application alone, and no cell of [VQ], [TAUQ], [VP]
    or [TAUP] changes. *)
Theorem type2_guards `{HD : Headers} `{LP : Lapacke}
  (uplo n nb lda st ed sweep Vblksiz wantz : Z) (m : mem) :
  let len := imin (ed + nb) (n - 1) - (ed + 1) + 1 in
  let pos_st := reflector_pos wantz n nb Vblksiz sweep st in
  (len <= 0 -> coreblas_zgbtype2cb uplo n nb lda st ed sweep Vblksiz wantz m = m)
  /\ (len = 1 ->
      coreblas_zgbtype2cb uplo n nb lda st ed sweep Vblksiz wantz m
      = type2_apply_pending uplo n nb lda st ed (fst pos_st) (snd pos_st) m
      /\ forall q : ptr,
           fst q <> BufA -> fst q <> BufWORK ->
           load (coreblas_zgbtype2cb uplo n nb lda st ed sweep Vblksiz wantz m) q
           = load m q).
Proof.
  intros len pos_st. split.
  - intros Hlen. rewrite type2_unfold. unfold type2_phases. fold len.
    rewrite (gtb_false len 0), (gtb_false len 1) by lia. reflexivity.
  - intros Hlen.
    assert (E : coreblas_zgbtype2cb uplo n nb lda st ed sweep Vblksiz wantz m
                = type2_apply_pending uplo n nb lda st ed (fst pos_st) (snd pos_st) m).
    { rewrite type2_unfold. unfold type2_phases. fold len pos_st.
      rewrite Hlen. reflexivity. }
    split; [exact E|].
    intros q HA Hw. rewrite E. apply type2_apply_pending_frame; [exact Hw|].
    intros i j _ _ Eq. apply HA. rewrite <- Eq.
    destruct (uplo =? CoreBlasUpper); reflexivity.
Qed.

Lemma type2_guards_witness :
  @coreblas_zgbtype2cb sample_headers Q_scalars Q_lapacke
     121 5 4 13 3 4 0 1 0 sample_upper_band = sample_upper_band
  /\ @coreblas_zgbtype2cb sample_headers Q_scalars Q_lapacke
       122 5 4 13 2 3 0 1 0 sample_upper_band
     = @type2_apply_pending sample_headers Q_scalars Q_lapacke
         122 5 4 13 2 3 7 7 sample_upper_band.
Proof.
  split.
  - exact (proj1 (@type2_guards sample_headers Q_scalars Q_lapacke
                    121 5 4 13 3 4 0 1 0 sample_upper_band)
                 ltac:(vm_compute; discriminate)).
  - exact (proj1 (proj2 (@type2_guards sample_headers Q_scalars Q_lapacke
                           122 5 4 13 2 3 0 1 0 sample_upper_band)
                        ltac:(vm_compute; reflexivity))).
Defined.


(** ** What the steps write *)

Section StepFacts.

Context `{HD : Headers} `{LP : Lapacke}.

Lemma zlarfg_eq (n : Z) (alpha : scalar) (x tau : ptr) (m : mem) :
  LAPACKE_zlarfg n alpha x tau m
  = let r := larfg n alpha (read_vec m x (n - 1)) in
    (larfg_beta r, store (write_vec x (n - 1) (larfg_v r) m) tau (larfg_tau r)).
Proof.
  unfold LAPACKE_zlarfg, larfg_beta, larfg_v, larfg_tau.
  destruct (larfg n alpha (read_vec m x (n - 1))) as [[beta v] t]. reflexivity.
Qed.

Lemma zlarfg_frame (n : Z) (alpha : scalar) (x tau : ptr) (m : mem) (q : ptr) :
  fst q <> fst x -> q <> tau ->
  load (snd (LAPACKE_zlarfg n alpha x tau m)) q = load m q.
Proof.
  intros Hx Ht. rewrite zlarfg_eq. simpl snd.
  rewrite load_store_other by exact Ht.
  apply write_vec_frame. intros k _ E. apply Hx. rewrite <- E. reflexivity.
Qed.

Lemma zlarfg_written (n : Z) (alpha : scalar) (x tau : ptr) (m : mem) :
  fst tau <> fst x ->
  let r := larfg n alpha (read_vec m x (n - 1)) in
  load (snd (LAPACKE_zlarfg n alpha x tau m)) tau = larfg_tau r
  /\ forall k, 0 <= k < n - 1 ->
       load (snd (LAPACKE_zlarfg n alpha x tau m)) (ptr_add x k)
       = nth (Z.to_nat k) (larfg_v r) czero.
Proof.
  intros Hne r. rewrite zlarfg_eq. fold r. simpl snd.
  split.
  - apply load_store_same.
  - intros k Hk. rewrite load_store_other.
    + apply write_vec_at. exact Hk.
    + intros E. apply Hne. rewrite <- E. reflexivity.
Qed.

(** A reflector pair stays where it is when the cells of its vector and
    of its scalar keep their values. *)
Lemma reflector_at_preserved (len : Z) (v tau : ptr) (m m' : mem) :
  (forall q, fst q = fst v -> load m' q = load m q) ->
  load m' tau = load m tau ->
  reflector_at len v tau m -> reflector_at len v tau m'.
Proof.
  intros Hv Ht (alpha & x & H1 & Hk & Htau).
  exists alpha, x. split; [|split].
  - rewrite Hv by reflexivity. exact H1.
  - intros k Hlt. rewrite Hv by reflexivity. apply Hk. exact Hlt.
  - rewrite Ht. exact Htau.
Qed.

Lemma ptr_add_neq (v : ptr) (k : Z) : k <> 0 -> ptr_add v k <> v.
Proof.
  intros Hk E. destruct v as [b o]. unfold ptr_add in E. simpl in E.
  inversion E. lia.
Qed.

Lemma ptr_add_add (v : ptr) (a b : Z) : ptr_add (ptr_add v a) b = ptr_add v (a + b).
Proof. destruct v as [bf o]. unfold ptr_add. simpl. f_equal. ring. Qed.

Lemma fst_neq (p q : ptr) : fst p <> fst q -> p <> q.
Proof. intros Hne E. apply Hne. rewrite E. reflexivity. Qed.

Variable view : Z -> Z -> ptr.
Hypothesis view_A : forall i j, fst (view i j) = BufA.

(** *** Row elimination *)

Lemma eliminate_row_eq (r c0 len : Z) (v tau : ptr) (m : mem) :
  eliminate_row view r c0 len v tau m
  = let m2 := row_loop view r c0 len v (store m v cone) in
    let res := LAPACKE_zlarfg len (conj (load m2 (view r c0))) (ptr_add v 1) tau m2 in
    store (snd res) (view r c0) (fst res).
Proof.
  unfold eliminate_row, row_loop.
  destruct (LAPACKE_zlarfg _ _ _ _ _) as [beta m3]. reflexivity.
Qed.

Lemma row_loop_frame (r c0 len : Z) (v : ptr) (m : mem) (q : ptr) :
  (forall k, 1 <= k < len -> ptr_add v k <> q) ->
  (forall k, 1 <= k < len -> view r (c0 + k) <> q) ->
  load (row_loop view r c0 len v m) q = load m q.
Proof.
  intros Hv Hq. unfold row_loop.
  apply (for_loop_inv (fun m' => load m' q = load m q)); [reflexivity|].
  intros k m' Hk Hm'. cbv zeta.
  rewrite !load_store_other; [exact Hm'| |].
  - intros E. apply (Hv k Hk). symmetry. exact E.
  - intros E. apply (Hq k Hk). symmetry. exact E.
Qed.

Lemma row_loop_zero (r c0 len : Z) (v : ptr) (m : mem) (k : Z) :
  fst v <> BufA ->
  1 <= k < len ->
  (forall k', 1 <= k' < len -> k' <> k -> view r (c0 + k') <> view r (c0 + k)) ->
  load (row_loop view r c0 len v m) (view r (c0 + k)) = czero.
Proof.
  intros Hv Hk Hinj. unfold row_loop.
  assert (Hall : forall j, 1 <= j < len -> 
     (forall k', 1 <= k' < len -> k' <> j -> view r (c0 + k') <> view r (c0 + j)) ->
     load (for_loop 1 len (fun k m =>
             let m := store m (ptr_add v k) (conj (load m (view r (c0 + k)))) in
             store m (view r (c0 + k)) czero) m) (view r (c0 + j)) = czero).
  { apply (for_loop_inv_idx
             (fun i m' => forall j, 1 <= j < i ->
                (forall k', 1 <= k' < len -> k' <> j ->
                            view r (c0 + k') <> view r (c0 + j)) ->
                load m' (view r (c0 + j)) = czero));
      [lia | intros j Hj; lia |].
    intros i m' Hi Hm' j Hj Hinj'. cbv zeta.
    destruct (Z.eq_dec j i) as [->|Hne].
    - apply load_store_same.
    - rewrite load_store_other.
      + rewrite load_store_other.
        * apply Hm'; [lia | exact Hinj'].
        * apply fst_neq. rewrite view_A. simpl. intros E. apply Hv. symmetry. exact E.
      + intros E. apply (Hinj' i Hi); [lia | symmetry; exact E]. }
  apply Hall; assumption.
Qed.


Lemma eliminate_row_frame (r c0 len : Z) (v tau : ptr) (m : mem) (q : ptr) :
  fst q <> fst v -> q <> tau ->
  view r c0 <> q ->
  (forall k, 1 <= k < len -> view r (c0 + k) <> q) ->
  load (eliminate_row view r c0 len v tau m) q = load m q.
Proof.
  intros Hv Ht Hp Hq. rewrite eliminate_row_eq. cbv zeta.
  rewrite load_store_other by (intros E; apply Hp; symmetry; exact E).
  rewrite zlarfg_frame by assumption.
  rewrite row_loop_frame.
  - apply load_store_other. apply fst_neq. exact Hv.
  - intros k _. apply not_eq_sym, fst_neq. exact Hv.
  - exact Hq.
Qed.

Lemma eliminate_row_zero (r c0 len : Z) (v tau : ptr) (m : mem) (k : Z) :
  fst v <> BufA -> fst tau <> BufA ->
  1 <= k < len ->
  (forall k', 0 <= k' < len -> k' <> k -> view r (c0 + k') <> view r (c0 + k)) ->
  load (eliminate_row view r c0 len v tau m) (view r (c0 + k)) = czero.
Proof.
  intros Hv Ht Hk Hinj. rewrite eliminate_row_eq. cbv zeta.
  rewrite load_store_other.
  - rewrite zlarfg_frame.
    + apply row_loop_zero; [exact Hv | exact Hk |].
      intros k' Hk' Hne. apply Hinj; [lia | exact Hne].
    + rewrite view_A. simpl. intros E. apply Hv. symmetry. exact E.
    + apply fst_neq. rewrite view_A. intros E. apply Ht. symmetry. exact E.
  - intros E. apply (Hinj 0); [lia | lia |].
    rewrite Z.add_0_r. symmetry. exact E.
Qed.

Lemma eliminate_row_reflector (r c0 len : Z) (v tau : ptr) (m : mem) :
  fst v <> BufA -> fst tau <> BufA -> fst tau <> fst v ->
  reflector_at len v tau (eliminate_row view r c0 len v tau m).
Proof.
  intros Hv Ht Hvt. rewrite eliminate_row_eq. cbv zeta.
  set (m2 := row_loop view r c0 len v (store m v cone)).
  set (alpha := conj (load m2 (view r c0))).
  exists alpha, (read_vec m2 (ptr_add v 1) (len - 1)).
  destruct (zlarfg_written len alpha (ptr_add v 1) tau m2 Hvt) as [Htau Hx].
  split; [|split].
  - rewrite load_store_other
      by (apply not_eq_sym, fst_neq; rewrite view_A; intros E; apply Hv; symmetry; exact E).
    rewrite zlarfg_eq. cbv zeta. simpl snd.
    rewrite load_store_other by (apply not_eq_sym, fst_neq; exact Hvt).
    rewrite write_vec_frame.
    + unfold m2. rewrite row_loop_frame.
      * apply load_store_same.
      * intros k Hk. apply ptr_add_neq. lia.
      * intros k _. apply fst_neq. rewrite view_A. intros E. apply Hv. symmetry. exact E.
    + intros k Hk. rewrite ptr_add_add. apply ptr_add_neq. lia.
  - intros k Hk.
    rewrite load_store_other
      by (apply not_eq_sym, fst_neq; rewrite view_A; intros E; apply Hv; symmetry; exact E).
    rewrite <- ptr_add_add. apply Hx. exact Hk.
  - rewrite load_store_other
      by (apply not_eq_sym, fst_neq; rewrite view_A; intros E; apply Ht; symmetry; exact E).
    exact Htau.
Qed.

(** *** Column elimination *)

Lemma zlarfg_at_eq (n : Z) (alpha x tau : ptr) (m : mem) :
  LAPACKE_zlarfg_at n alpha x tau m
  = let res := LAPACKE_zlarfg n (load m alpha) x tau m in
    store (snd res) alpha (fst res).
Proof.
  unfold LAPACKE_zlarfg_at.
  destruct (LAPACKE_zlarfg _ _ _ _ _) as [beta m']. reflexivity.
Qed.

Lemma eliminate_col_frame (r0 c len : Z) (v tau : ptr) (m : mem) (q : ptr) :
  fst q <> fst v -> q <> tau ->
  view r0 c <> q ->
  (forall k, 1 <= k < len -> view (r0 + k) c <> q) ->
  load (eliminate_col view r0 c len v tau m) q = load m q.
Proof.
  intros Hv Ht Hp Hq. unfold eliminate_col. rewrite zlarfg_at_eq. cbv zeta.
  rewrite load_store_other by (intros E; apply Hp; symmetry; exact E).
  rewrite zlarfg_frame by assumption.
  rewrite (store_loop_frame (fun k => view (r0 + k) c) (fun _ _ => czero)) by exact Hq.
  rewrite (store_loop_frame (fun k => ptr_add v k)
                            (fun k m => load m (view (r0 + k) c)))
    by (intros k _; apply not_eq_sym, fst_neq; exact Hv).
  apply load_store_other. apply fst_neq. exact Hv.
Qed.

Lemma eliminate_col_zero (r0 c len : Z) (v tau : ptr) (m : mem) (k : Z) :
  fst v <> BufA -> fst tau <> BufA ->
  1 <= k < len ->
  (forall k', 0 <= k' < len -> k' <> k -> view (r0 + k') c <> view (r0 + k) c) ->
  load (eliminate_col view r0 c len v tau m) (view (r0 + k) c) = czero.
Proof.
  intros Hv Ht Hk Hinj. unfold eliminate_col. rewrite zlarfg_at_eq. cbv zeta.
  rewrite load_store_other.
  - rewrite zlarfg_frame.
    + apply (store_loop_const (fun k => view (r0 + k) c) czero 1 len _ k Hk).
    + rewrite view_A. simpl. intros E. apply Hv. symmetry. exact E.
    + apply fst_neq. rewrite view_A. intros E. apply Ht. symmetry. exact E.
  - intros E. apply (Hinj 0); [lia | lia |].
    rewrite Z.add_0_r. symmetry. exact E.
Qed.

Lemma eliminate_col_reflector (r0 c len : Z) (v tau : ptr) (m : mem) :
  fst v <> BufA -> fst tau <> BufA -> fst tau <> fst v ->
  reflector_at len v tau (eliminate_col view r0 c len v tau m).
Proof.
  intros Hv Ht Hvt. unfold eliminate_col. rewrite zlarfg_at_eq. cbv zeta.
  set (m1 := store m v cone).
  set (m2 := for_loop 1 len
               (fun k m => store m (ptr_add v k) (load m (view (r0 + k) c))) m1).
  set (m3 := for_loop 1 len (fun k m => store m (view (r0 + k) c) czero) m2).
  set (alpha := load m3 (view r0 c)).
  exists alpha, (read_vec m3 (ptr_add v 1) (len - 1)).
  destruct (zlarfg_written len alpha (ptr_add v 1) tau m3 Hvt) as [Htau Hx].
  assert (HvA : forall i j, view i j <> v).
  { intros i j. apply fst_neq. rewrite view_A. intros E. apply Hv. symmetry. exact E. }
  split; [|split].
  - rewrite load_store_other by (apply not_eq_sym, HvA).
    rewrite zlarfg_eq. cbv zeta. simpl snd.
    rewrite load_store_other by (apply not_eq_sym, fst_neq; exact Hvt).
    rewrite write_vec_frame.
    + unfold m3.
      rewrite (store_loop_frame (fun k => view (r0 + k) c) (fun _ _ => czero))
        by (intros k _; apply HvA).
      unfold m2.
      rewrite (store_loop_frame (fun k => ptr_add v k)
                                (fun k m => load m (view (r0 + k) c)))
        by (intros k Hk; apply ptr_add_neq; lia).
      apply load_store_same.
    + intros k Hk. rewrite ptr_add_add. apply ptr_add_neq. lia.
  - intros k Hk.
    rewrite load_store_other.
    + rewrite <- ptr_add_add. apply Hx. exact Hk.
    + apply not_eq_sym, fst_neq. rewrite view_A. simpl.
      intros E. apply Hv. symmetry. exact E.
  - rewrite load_store_other.
    + exact Htau.
    + apply not_eq_sym, fst_neq. rewrite view_A. intros E. apply Ht. symmetry. exact E.
Qed.

End StepFacts.

(** ** The cells of the band after a type-1 call *)

Section Type1Cells.

Context `{HD : Headers} `{LP : Lapacke}.

Variables n nb lda st ed vpos taupos : Z.
Hypothesis valid : type1_valid n nb lda st ed.

Lemma AU_fst (i j : Z) : fst (AU nb lda i j) = BufA.
Proof. reflexivity. Qed.

Lemma AL_fst (i j : Z) : fst (AL nb lda i j) = BufA.
Proof. reflexivity. Qed.

Lemma AU_neq (i j i' j' : Z) :
  - (2 * nb) <= i - j <= nb -> - (2 * nb) <= i' - j' <= nb ->
  i <> i' \/ j <> j' -> AU nb lda i j <> AU nb lda i' j'.
Proof.
  intros Hh Hh' Hne E. destruct valid as (_ & Hlda & _).
  apply AU_inj in E; [lia | exact Hlda | exact Hh | exact Hh'].
Qed.

Lemma AL_neq (i j i' j' : Z) :
  - nb <= i - j <= 2 * nb -> - nb <= i' - j' <= 2 * nb ->
  i <> i' \/ j <> j' -> AL nb lda i j <> AL nb lda i' j'.
Proof.
  intros Hh Hh' Hne E. destruct valid as (_ & Hlda & _).
  apply AL_inj in E; [lia | exact Hlda | exact Hh | exact Hh'].
Qed.

(** Upper case. *)

Lemma type1_upper_frame (m : mem) (i j : Z) :
  - (2 * nb) <= i - j <= nb ->
  ~ (i = st - 1 /\ st <= j <= ed) ->
  ~ (st <= i <= ed /\ st <= j <= ed) ->
  load (type1_upper_steps nb lda st ed vpos taupos m) (AU nb lda i j)
  = load m (AU nb lda i j).
Proof.
  intros Hh Hrow Hblk. unfold type1_upper_steps. cbv zeta.
  pose proof valid as (Hnb & Hlda & Hst & Hse & Hed & Hlen).
  rewrite apply_reflector_frame;
    [| simpl; discriminate
     | intros i' j' Hi' Hj'; apply AU_neq; [lia | exact Hh | lia]].
  rewrite (eliminate_col_frame (AU nb lda));
    [| simpl; discriminate | apply fst_neq; simpl; discriminate
     | apply AU_neq; [lia | exact Hh | lia]
     | intros k Hk; apply AU_neq; [lia | exact Hh | lia]].
  rewrite apply_reflector_frame;
    [| simpl; discriminate
     | intros i' j' Hi' Hj'; apply AU_neq; [lia | exact Hh | lia]].
  apply (eliminate_row_frame (AU nb lda));
    [ simpl; discriminate | apply fst_neq; simpl; discriminate
    | apply AU_neq; [lia | exact Hh | lia]
    | intros k Hk; apply AU_neq; [lia | exact Hh | lia]].
Qed.

Lemma type1_upper_row_zero (m : mem) (j : Z) :
  st + 1 <= j <= ed ->
  load (type1_upper_steps nb lda st ed vpos taupos m) (AU nb lda (st - 1) j) = czero.
Proof.
  intros Hj. unfold type1_upper_steps. cbv zeta.
  pose proof valid as (Hnb & Hlda & Hst & Hse & Hed & Hlen).
  rewrite apply_reflector_frame;
    [| simpl; discriminate
     | intros i' j' Hi' Hj'; apply AU_neq; lia].
  rewrite (eliminate_col_frame (AU nb lda));
    [| simpl; discriminate | apply fst_neq; simpl; discriminate
     | apply AU_neq; lia
     | intros k Hk; apply AU_neq; lia].
  rewrite apply_reflector_frame;
    [| simpl; discriminate
     | intros i' j' Hi' Hj'; apply AU_neq; lia].
  replace j with (st + (j - st)) by ring.
  apply (eliminate_row_zero (AU nb lda) AU_fst);
    [ simpl; discriminate | simpl; discriminate | lia
    | intros k' Hk' Hne; apply AU_neq; lia].
Qed.

Lemma type1_upper_col_zero (m : mem) (i : Z) :
  st + 1 <= i <= ed ->
  load (type1_upper_steps nb lda st ed vpos taupos m) (AU nb lda i st) = czero.
Proof.
  intros Hi. unfold type1_upper_steps. cbv zeta.
  pose proof valid as (Hnb & Hlda & Hst & Hse & Hed & Hlen).
  rewrite apply_reflector_frame;
    [| simpl; discriminate
     | intros i' j' Hi' Hj'; apply AU_neq; lia].
  replace i with (st + (i - st)) by ring.
  apply (eliminate_col_zero (AU nb lda) AU_fst);
    [ simpl; discriminate | simpl; discriminate | lia
    | intros k' Hk' Hne; apply AU_neq; lia].
Qed.

Lemma type1_upper_reflectors (m : mem) :
  let m' := type1_upper_steps nb lda st ed vpos taupos m in
  reflector_at (ed - st + 1) (VP vpos) (TAUP taupos) m'
  /\ reflector_at (ed - st + 1) (VQ vpos) (TAUQ taupos) m'.
Proof.
  unfold type1_upper_steps. cbv zeta. split.
  - eapply reflector_at_preserved;
      [ | | apply (eliminate_row_reflector (AU nb lda) AU_fst); simpl; discriminate ].
    + intros q Hq.
      rewrite apply_reflector_frame;
        [| rewrite Hq; simpl; discriminate
         | intros i j _ _; apply fst_neq; rewrite Hq; simpl; discriminate].
      rewrite (eliminate_col_frame (AU nb lda));
        [| rewrite Hq; simpl; discriminate
         | apply fst_neq; rewrite Hq; simpl; discriminate
         | apply fst_neq; rewrite Hq; simpl; discriminate
         | intros k _; apply fst_neq; rewrite Hq; simpl; discriminate].
      apply apply_reflector_frame;
        [ rewrite Hq; simpl; discriminate
        | intros i j _ _; apply fst_neq; rewrite Hq; simpl; discriminate].
    + rewrite apply_reflector_frame;
        [| simpl; discriminate
         | intros i j _ _; apply fst_neq; simpl; discriminate].
      rewrite (eliminate_col_frame (AU nb lda));
        [| simpl; discriminate
         | apply fst_neq; simpl; discriminate
         | apply fst_neq; simpl; discriminate
         | intros k _; apply fst_neq; simpl; discriminate].
      apply apply_reflector_frame;
        [ simpl; discriminate
        | intros i j _ _; apply fst_neq; simpl; discriminate].
  - eapply reflector_at_preserved;
      [ | | apply (eliminate_col_reflector (AU nb lda) AU_fst); simpl; discriminate ].
    + intros q Hq.
      apply apply_reflector_frame;
        [ rewrite Hq; simpl; discriminate
        | intros i j _ _; apply fst_neq; rewrite Hq; simpl; discriminate].
    + apply apply_reflector_frame;
        [ simpl; discriminate
        | intros i j _ _; apply fst_neq; simpl; discriminate].
Qed.

(** Lower case: the mirror image. *)

Lemma type1_lower_frame (m : mem) (i j : Z) :
  - nb <= i - j <= 2 * nb ->
  ~ (j = st - 1 /\ st <= i <= ed) ->
  ~ (st <= i <= ed /\ st <= j <= ed) ->
  load (type1_lower_steps nb lda st ed vpos taupos m) (AL nb lda i j)
  = load m (AL nb lda i j).
Proof.
  intros Hh Hcol Hblk. unfold type1_lower_steps. cbv zeta.
  pose proof valid as (Hnb & Hlda & Hst & Hse & Hed & Hlen).
  rewrite apply_reflector_frame;
    [| simpl; discriminate
     | intros i' j' Hi' Hj'; apply AL_neq; [lia | exact Hh | lia]].
  rewrite (eliminate_row_frame (AL nb lda));
    [| simpl; discriminate | apply fst_neq; simpl; discriminate
     | apply AL_neq; [lia | exact Hh | lia]
     | intros k Hk; apply AL_neq; [lia | exact Hh | lia]].
  rewrite apply_reflector_frame;
    [| simpl; discriminate
     | intros i' j' Hi' Hj'; apply AL_neq; [lia | exact Hh | lia]].
  apply (eliminate_col_frame (AL nb lda));
    [ simpl; discriminate | apply fst_neq; simpl; discriminate
    | apply AL_neq; [lia | exact Hh | lia]
    | intros k Hk; apply AL_neq; [lia | exact Hh | lia]].
Qed.

Lemma type1_lower_col_zero (m : mem) (i : Z) :
  st + 1 <= i <= ed ->
  load (type1_lower_steps nb lda st ed vpos taupos m) (AL nb lda i (st - 1)) = czero.
Proof.
  intros Hi. unfold type1_lower_steps. cbv zeta.
  pose proof valid as (Hnb & Hlda & Hst & Hse & Hed & Hlen).
  rewrite apply_reflector_frame;
    [| simpl; discriminate
     | intros i' j' Hi' Hj'; apply AL_neq; lia].
  rewrite (eliminate_row_frame (AL nb lda));
    [| simpl; discriminate | apply fst_neq; simpl; discriminate
     | apply AL_neq; lia
     | intros k Hk; apply AL_neq; lia].
  rewrite apply_reflector_frame;
    [| simpl; discriminate
     | intros i' j' Hi' Hj'; apply AL_neq; lia].
  replace i with (st + (i - st)) by ring.
  apply (eliminate_col_zero (AL nb lda) AL_fst);
    [ simpl; discriminate | simpl; discriminate | lia
    | intros k' Hk' Hne; apply AL_neq; lia].
Qed.

Lemma type1_lower_row_zero (m : mem) (j : Z) :
  st + 1 <= j <= ed ->
  load (type1_lower_steps nb lda st ed vpos taupos m) (AL nb lda st j) = czero.
Proof.
  intros Hj. unfold type1_lower_steps. cbv zeta.
  pose proof valid as (Hnb & Hlda & Hst & Hse & Hed & Hlen).
  rewrite apply_reflector_frame;
    [| simpl; discriminate
     | intros i' j' Hi' Hj'; apply AL_neq; lia].
  replace j with (st + (j - st)) by ring.
  apply (eliminate_row_zero (AL nb lda) AL_fst);
    [ simpl; discriminate | simpl; discriminate | lia
    | intros k' Hk' Hne; apply AL_neq; lia].
Qed.

Lemma type1_lower_reflectors (m : mem) :
  let m' := type1_lower_steps nb lda st ed vpos taupos m in
  reflector_at (ed - st + 1) (VP vpos) (TAUP taupos) m'
  /\ reflector_at (ed - st + 1) (VQ vpos) (TAUQ taupos) m'.
Proof.
  unfold type1_lower_steps. cbv zeta. split.
  - eapply reflector_at_preserved;
      [ | | apply (eliminate_row_reflector (AL nb lda) AL_fst); simpl; discriminate ].
    + intros q Hq.
      apply apply_reflector_frame;
        [ rewrite Hq; simpl; discriminate
        | intros i j _ _; apply fst_neq; rewrite Hq; simpl; discriminate].
    + apply apply_reflector_frame;
        [ simpl; discriminate
        | intros i j _ _; apply fst_neq; simpl; discriminate].
  - eapply reflector_at_preserved;
      [ | | apply (eliminate_col_reflector (AL nb lda) AL_fst); simpl; discriminate ].
    + intros q Hq.
      rewrite apply_reflector_frame;
        [| rewrite Hq; simpl; discriminate
         | intros i j _ _; apply fst_neq; rewrite Hq; simpl; discriminate].
      rewrite (eliminate_row_frame (AL nb lda));
        [| rewrite Hq; simpl; discriminate
         | apply fst_neq; rewrite Hq; simpl; discriminate
         | apply fst_neq; rewrite Hq; simpl; discriminate
         | intros k _; apply fst_neq; rewrite Hq; simpl; discriminate].
      apply apply_reflector_frame;
        [ rewrite Hq; simpl; discriminate
        | intros i j _ _; apply fst_neq; rewrite Hq; simpl; discriminate].
    + rewrite apply_reflector_frame;
        [| simpl; discriminate
         | intros i j _ _; apply fst_neq; simpl; discriminate].
      rewrite (eliminate_row_frame (AL nb lda));
        [| simpl; discriminate
         | apply fst_neq; simpl; discriminate
         | apply fst_neq; simpl; discriminate
         | intros k _; apply fst_neq; simpl; discriminate].
      apply apply_reflector_frame;
        [ simpl; discriminate
        | intros i j _ _; apply fst_neq; simpl; discriminate].
Qed.

End Type1Cells.



Section Type1Band.

Context `{HD : Headers} `{LP : Lapacke}.

Variables n nb lda st ed vpos taupos : Z.
Hypothesis valid : type1_valid n nb lda st ed.

(** Outside the band of the upper triangle, a cell that is not zero
    after the steps lies in the triangular bulge or was not zero
    before. *)
Lemma type1_upper_off_band (m : mem) (i j : Z) :
  held_upper n nb i j -> ~ in_band_upper nb i j ->
  load m (AU nb lda i j) = czero ->
  load (type1_upper_steps nb lda st ed vpos taupos m) (AU nb lda i j) <> czero ->
  type1_bulge true st ed i j.
Proof.
  intros (Hi & Hj & Hd) Hband Hzero Hnz.
  pose proof valid as (Hnb & Hlda & Hst & Hse & Hed & Hlen).
  unfold in_band_upper in Hband. unfold type1_bulge.
  destruct (Z_le_dec (st + 1) j) as [Hj1|Hj1];
    [destruct (Z_lt_dec j i) as [Hji|Hji];
     [destruct (Z_le_dec i ed) as [Hie|Hie]; [lia|] |] |];
    exfalso; apply Hnz.
  - rewrite (type1_upper_frame n nb lda st ed vpos taupos valid) by lia. exact Hzero.
  - rewrite (type1_upper_frame n nb lda st ed vpos taupos valid) by lia. exact Hzero.
  - destruct (Z.eq_dec j st) as [->|Hjs].
    + destruct (Z_le_dec (st + 1) i) as [Hi1|Hi1].
      * destruct (Z_le_dec i ed) as [Hie|Hie].
        -- apply (type1_upper_col_zero n nb lda st ed vpos taupos valid). lia.
        -- rewrite (type1_upper_frame n nb lda st ed vpos taupos valid) by lia.
           exact Hzero.
      * rewrite (type1_upper_frame n nb lda st ed vpos taupos valid) by lia.
        exact Hzero.
    + rewrite (type1_upper_frame n nb lda st ed vpos taupos valid) by lia.
      exact Hzero.
Qed.

Lemma type1_lower_off_band (m : mem) (i j : Z) :
  held_lower n nb i j -> ~ in_band_lower nb i j ->
  load m (AL nb lda i j) = czero ->
  load (type1_lower_steps nb lda st ed vpos taupos m) (AL nb lda i j) <> czero ->
  type1_bulge false st ed i j.
Proof.
  intros (Hi & Hj & Hd) Hband Hzero Hnz.
  pose proof valid as (Hnb & Hlda & Hst & Hse & Hed & Hlen).
  unfold in_band_lower in Hband. unfold type1_bulge.
  destruct (Z_le_dec (st + 1) i) as [Hi1|Hi1];
    [destruct (Z_lt_dec i j) as [Hij|Hij];
     [destruct (Z_le_dec j ed) as [Hje|Hje]; [lia|] |] |];
    exfalso; apply Hnz.
  - rewrite (type1_lower_frame n nb lda st ed vpos taupos valid) by lia. exact Hzero.
  - rewrite (type1_lower_frame n nb lda st ed vpos taupos valid) by lia. exact Hzero.
  - destruct (Z.eq_dec i st) as [->|His].
    + destruct (Z_le_dec (st + 1) j) as [Hj1|Hj1].
      * destruct (Z_le_dec j ed) as [Hje|Hje].
        -- apply (type1_lower_row_zero n nb lda st ed vpos taupos valid). lia.
        -- rewrite (type1_lower_frame n nb lda st ed vpos taupos valid) by lia.
           exact Hzero.
      * rewrite (type1_lower_frame n nb lda st ed vpos taupos valid) by lia.
        exact Hzero.
    + rewrite (type1_lower_frame n nb lda st ed vpos taupos valid) by lia.
      exact Hzero.
Qed.

End Type1Band.

(** C1 (as the code has it).  For every valid type-1 call on a band
    buffer whose entries outside the band of the active triangle are
    zero, except possibly in the row (upper case) or column (lower case)
    [st-1]: after the call an entry outside that band and off that line
    is zero unless it lies in the triangular bulge inside the diagonal
    block, strictly below (upper case) or above (lower case) the diagonal
    of [A(st+1:ed, st+1:ed)]; that triangle is a single element when
    [ed - st + 1 <= 3]; the entries of the line [st-1] outside the band
    are as they were; the eliminated entries of the line [st-1] and of
    the created column or row [st] are zero; and both reflector pairs,
    [VP]/[TAUP] and [VQ]/[TAUQ], sit in their slots. *)
Theorem type1_band_after `{HD : Headers} `{LP : Lapacke}
  (uplo n nb lda st ed sweep Vblksiz wantz : Z) (m : mem) :
  type1_valid n nb lda st ed ->
  let upper := uplo =? CoreBlasUpper in
  let held := if upper then held_upper n nb else held_lower n nb in
  let in_band := if upper then in_band_upper nb else in_band_lower nb in
  let cell := if upper then AU nb lda else AL nb lda in
  (forall i j, held i j -> ~ in_band i j -> ~ type1_line upper st i j ->
               load m (cell i j) = czero) ->
  let m' := coreblas_zgbtype1cb uplo n nb lda st ed sweep Vblksiz wantz m in
  let pos := reflector_pos wantz n nb Vblksiz sweep st in
  (forall i j, held i j -> ~ in_band i j -> ~ type1_line upper st i j ->
               load m' (cell i j) <> czero -> type1_bulge upper st ed i j)
  /\ (ed - st + 1 <= 3 ->
      forall i j i' j',
        held i j -> ~ in_band i j -> ~ type1_line upper st i j ->
        load m' (cell i j) <> czero ->
        held i' j' -> ~ in_band i' j' -> ~ type1_line upper st i' j' ->
        load m' (cell i' j') <> czero ->
        i = i' /\ j = j')
  /\ (forall i j, held i j -> ~ in_band i j -> type1_line upper st i j ->
        load m' (cell i j) = load m (cell i j))
  /\ (forall k, st + 1 <= k <= ed ->
        load m' (if upper then cell (st - 1) k else cell k (st - 1)) = czero
        /\ load m' (if upper then cell k st else cell st k) = czero)
  /\ reflector_at (ed - st + 1) (VP (fst pos)) (TAUP (snd pos)) m'
  /\ reflector_at (ed - st + 1) (VQ (fst pos)) (TAUQ (snd pos)) m'.
Proof.
  intros Hvalid upper held in_band cell Hzero m' pos.
  assert (Hbulge : forall i j, held i j -> ~ in_band i j -> ~ type1_line upper st i j ->
                     load m' (cell i j) <> czero -> type1_bulge upper st ed i j).
  { intros i j Hh Hb Hl Hnz. unfold m', cell, held, in_band, upper in *.
    destruct (uplo =? CoreBlasUpper) eqn:E.
    - apply Z.eqb_eq in E.
      rewrite (type1_upper_unfold _ _ _ _ _ _ _ _ _ _ E) in Hnz.
      eapply type1_upper_off_band; eauto.
    - apply Z.eqb_neq in E.
      rewrite (type1_lower_unfold _ _ _ _ _ _ _ _ _ _ E) in Hnz.
      eapply type1_lower_off_band; eauto. }
  split; [exact Hbulge|]. split; [|split; [|split]].
  - intros Hlen i j i' j' Hh Hb Hl Hnz Hh' Hb' Hl' Hnz'.
    pose proof (Hbulge i j Hh Hb Hl Hnz) as B.
    pose proof (Hbulge i' j' Hh' Hb' Hl' Hnz') as B'.
    unfold type1_bulge in B, B'. destruct upper; lia.
  - intros i j Hh Hb Hl. unfold m', cell, held, in_band, upper in *.
    pose proof Hvalid as (Hnb & Hlda & Hst & Hse & Hed & Hlen).
    destruct (uplo =? CoreBlasUpper) eqn:E.
    + apply Z.eqb_eq in E. rewrite (type1_upper_unfold _ _ _ _ _ _ _ _ _ _ E).
      destruct Hh as (Hi & Hj & Hd). unfold in_band_upper in Hb.
      unfold type1_line in Hl.
      apply (type1_upper_frame n nb lda st ed _ _ Hvalid); lia.
    + apply Z.eqb_neq in E. rewrite (type1_lower_unfold _ _ _ _ _ _ _ _ _ _ E).
      destruct Hh as (Hi & Hj & Hd). unfold in_band_lower in Hb.
      unfold type1_line in Hl.
      apply (type1_lower_frame n nb lda st ed _ _ Hvalid); lia.
  - intros k Hk. unfold m', cell, upper.
    destruct (uplo =? CoreBlasUpper) eqn:E.
    + apply Z.eqb_eq in E. rewrite (type1_upper_unfold _ _ _ _ _ _ _ _ _ _ E). split.
      * apply (type1_upper_row_zero n nb lda st ed _ _ Hvalid). exact Hk.
      * apply (type1_upper_col_zero n nb lda st ed _ _ Hvalid). exact Hk.
    + apply Z.eqb_neq in E. rewrite (type1_lower_unfold _ _ _ _ _ _ _ _ _ _ E). split.
      * apply (type1_lower_col_zero n nb lda st ed _ _ Hvalid). exact Hk.
      * apply (type1_lower_row_zero n nb lda st ed _ _ Hvalid). exact Hk.
  - unfold m', pos. destruct (Z.eq_dec uplo CoreBlasUpper) as [E|E].
    + rewrite (type1_upper_unfold _ _ _ _ _ _ _ _ _ _ E).
      apply type1_upper_reflectors.
    + rewrite (type1_lower_unfold _ _ _ _ _ _ _ _ _ _ E).
      apply type1_lower_reflectors.
Qed.

(** *** A run on a band matrix of order 5, half-width 4 *)

Lemma sample_upper_band_zero (i j : Z) :
  held_upper 5 4 i j -> ~ in_band_upper 4 i j ->
  load sample_upper_band (AU 4 13 i j) = 0%Q.
Proof.
  intros (Hi & Hj & Hd) Hb. unfold in_band_upper in Hb.
  assert (Hi' : i = 0 \/ i = 1 \/ i = 2 \/ i = 3 \/ i = 4) by lia.
  assert (Hj' : j = 0 \/ j = 1 \/ j = 2 \/ j = 3 \/ j = 4) by lia.
  destruct Hi' as [-> | [-> | [-> | [-> | ->]]]];
    destruct Hj' as [-> | [-> | [-> | [-> | ->]]]];
    try (exfalso; lia); vm_compute; reflexivity.
Qed.

(** Both reflectors of the run come from columns whose norm is rational:
    the row [(1, 1, 1, 1)], and the column [(-1, -1, -1, -1)] that the
    first reflector creates; the pivots are [-2] and [2]. *)
Lemma bulge_run_roots_exact :
  map (fun j => load sample_upper_band (AU 4 13 0 j)) [1; 2; 3; 4]
  = [1%Q; 1%Q; 1%Q; 1%Q]
  /\ (let m1 := @eliminate_row Q_scalars Q_lapacke (AU 4 13) 0 1 4 (VP 6) (TAUP 6)
                  sample_upper_band in
      map (fun i => load (@apply_reflector Q_scalars Q_lapacke SideR (AU 4 13) 1 1 4 4
                            (VP 6) (load m1 (TAUP 6)) m1) (AU 4 13 i 1)) [1; 2; 3; 4])
     = [(-1)%Q; (-1)%Q; (-1)%Q; (-1)%Q]
  /\ Qsqrt 4 = 2%Q
  /\ load sample_type1_run (AU 4 13 0 1) = (-2)%Q
  /\ load sample_type1_run (AU 4 13 1 1) = 2%Q.
Proof. vm_compute. repeat split; reflexivity. Qed.

Lemma type1_band_after_witness :
  type1_bulge true 1 4 3 2
  /\ load sample_type1_run (AU 4 13 0 2) = 0%Q
  /\ load sample_type1_run (AU 4 13 2 1) = 0%Q.
Proof.
  pose proof (@type1_band_after sample_headers Q_scalars Q_lapacke
                121 5 4 13 1 4 0 1 0 sample_upper_band
                ltac:(unfold type1_valid; lia)
                (fun i j Hh Hb _ => sample_upper_band_zero i j Hh Hb))
    as (Hbulge & _ & _ & Hzero & _).
  split.
  - apply (Hbulge 3 2).
    + change (held_upper 5 4 3 2). unfold held_upper. lia.
    + change (~ in_band_upper 4 3 2). unfold in_band_upper. lia.
    + change (3 <> 1 - 1). lia.
    + vm_compute. discriminate.
  - exact (Hzero 2 ltac:(lia)).
Defined.

(** C1 as stated fails: on a valid call with [ed - st + 1 = 4] three
    entries outside the band of the upper triangle are not zero after
    the call, at [(3, 2)], [(4, 2)] and [(4, 3)], so there is no single
    bulge element. *)
Lemma type1_single_bulge_counterexample :
  type1_valid 5 4 13 1 4
  /\ (forall i j, held_upper 5 4 i j -> ~ in_band_upper 4 i j ->
                  load sample_upper_band (AU 4 13 i j) = 0%Q)
  /\ load sample_type1_run (AU 4 13 3 2) = (2 # 3)%Q
  /\ load sample_type1_run (AU 4 13 4 2) = (2 # 3)%Q
  /\ load sample_type1_run (AU 4 13 4 3) = (11 # 6)%Q
  /\ ~ (forall i j i' j',
          held_upper 5 4 i j -> ~ in_band_upper 4 i j ->
          load sample_type1_run (AU 4 13 i j) <> 0%Q ->
          held_upper 5 4 i' j' -> ~ in_band_upper 4 i' j' ->
          load sample_type1_run (AU 4 13 i' j') <> 0%Q ->
          i = i' /\ j = j').
Proof.
  split; [unfold type1_valid; lia|].
  split; [exact sample_upper_band_zero|].
  split; [vm_compute; reflexivity|].
  split; [vm_compute; reflexivity|].
  split; [vm_compute; reflexivity|].
  intros Hone.
  assert (E : 3 = 4 /\ 2 = 3).
  { apply Hone.
    - unfold held_upper. lia.
    - unfold in_band_upper. lia.
    - vm_compute. discriminate.
    - unfold held_upper. lia.
    - unfold in_band_upper. lia.
    - vm_compute. discriminate. }
  lia.
Qed.

(** ** The bulge-chasing kernels do not validate *)

(** C7.  The type-1 and type-2 kernels check nothing and report nothing:
    in the model they are functions from memory to memory with no result
    code, and for every argument tuple, in range or not (the window may
    lie outside the matrix, [lda] may be too small for the band, [uplo] may
    be neither constant, in which case it is taken as lower), the call is
    the full sequence of steps; the type-1 call has written both
    reflector pairs to the store.  The arrays of the model are the band
    buffer, the reflector store and the workspace, so nothing else is
    there to change.  ([st <= ed] keeps the byte count of [memcpy]
    non-negative, where C itself defines the call.) *)
Theorem bulge_kernels_do_not_validate `{HD : Headers} `{LP : Lapacke}
  (uplo n nb lda st ed sweep Vblksiz wantz : Z) (m : mem) :
  st <= ed ->
  let pos := reflector_pos wantz n nb Vblksiz sweep st in
  let m1 := coreblas_zgbtype1cb uplo n nb lda st ed sweep Vblksiz wantz m in
  m1 = (if uplo =? CoreBlasUpper
        then type1_upper_steps nb lda st ed (fst pos) (snd pos) m
        else type1_lower_steps nb lda st ed (fst pos) (snd pos) m)
  /\ reflector_at (ed - st + 1) (VP (fst pos)) (TAUP (snd pos)) m1
  /\ reflector_at (ed - st + 1) (VQ (fst pos)) (TAUQ (snd pos)) m1
  /\ load m1 (VP (fst pos)) = cone
  /\ load m1 (VQ (fst pos)) = cone
  /\ coreblas_zgbtype2cb uplo n nb lda st ed sweep Vblksiz wantz m
     = type2_phases uplo n nb lda st ed pos
         (reflector_pos wantz n nb Vblksiz sweep (ed + 1)) m.
Proof.
  intros _ pos m1.
  assert (E : m1 = (if uplo =? CoreBlasUpper
                    then type1_upper_steps nb lda st ed (fst pos) (snd pos) m
                    else type1_lower_steps nb lda st ed (fst pos) (snd pos) m)).
  { unfold m1, pos. destruct (uplo =? CoreBlasUpper) eqn:Eu.
    - apply Z.eqb_eq in Eu. apply type1_upper_unfold. exact Eu.
    - apply Z.eqb_neq in Eu. apply type1_lower_unfold. exact Eu. }
  assert (R : reflector_at (ed - st + 1) (VP (fst pos)) (TAUP (snd pos)) m1
              /\ reflector_at (ed - st + 1) (VQ (fst pos)) (TAUQ (snd pos)) m1).
  { rewrite E. destruct (uplo =? CoreBlasUpper).
    - apply type1_upper_reflectors.
    - apply type1_lower_reflectors. }
  split; [exact E|]. destruct R as [RP RQ].
  split; [exact RP|]. split; [exact RQ|].
  split; [destruct RP as (a & x & H1 & _); exact H1|].
  split; [destruct RQ as (a & x & H1 & _); exact H1|].
  apply type2_unfold.
Qed.

(** A call on a window beyond the matrix, with [lda = 1] and a [uplo]
    that is neither constant, still writes the reflector store. *)
Lemma bulge_kernels_do_not_validate_witness :
  load (@coreblas_zgbtype1cb sample_headers Q_scalars Q_lapacke
          0 5 4 1 7 9 0 1 0 sample_upper_band) (VP 12) = 1%Q.
Proof.
  exact (proj1 (proj2 (proj2 (proj2
    (@bulge_kernels_do_not_validate sample_headers Q_scalars Q_lapacke
       0 5 4 1 7 9 0 1 0 sample_upper_band ltac:(lia)))))).
Defined.

(** ** The concrete scenario of order 4 in exact arithmetic *)

(** For [n = 4], [nb = 2], lower [uplo], the window [[1, 2]]: whatever
    the scalars and the reflector routines, after the type-1 call the
    entry [(2, 0)] is zero and the entry [(3, 0)], outside the band, is
    what it was. *)
Lemma concrete_scenario_zero_entries `{HD : Headers} `{LP : Lapacke}
  (uplo lda sweep Vblksiz wantz : Z) (m : mem) :
  uplo <> CoreBlasUpper -> 7 <= lda ->
  let m' := coreblas_zgbtype1cb uplo 4 2 lda 1 2 sweep Vblksiz wantz m in
  load m' (AL 2 lda 2 0) = czero
  /\ load m' (AL 2 lda 3 0) = load m (AL 2 lda 3 0).
Proof.
  intros Hlow Hlda m'. unfold m'.
  rewrite (type1_lower_unfold _ _ _ _ _ _ _ _ _ _ Hlow).
  assert (Hvalid : type1_valid 4 2 lda 1 2) by (unfold type1_valid; lia).
  split.
  - apply (type1_lower_col_zero 4 2 lda 1 2 _ _ Hvalid _ 2). lia.
  - apply (type1_lower_frame 4 2 lda 1 2 _ _ Hvalid); lia.
Qed.

(** The scenario on a fixed matrix in exact arithmetic.  The column
    [(3, 4)] below [(0, 0)] has norm 5: [beta = -5],
    [tau = (beta - alpha) / beta = 8/5]; after the left update the row
    [(3, -4)] at [(1, 1)] has norm 5 again, so [TAUP] is [8/5] too. *)
Lemma concrete_scenario_exact :
  let m' := @coreblas_zgbtype1cb sample_headers Q_scalars Q_lapacke
              122 4 2 7 1 2 0 1 0 sample_lower_band in
  load m' (TAUQ 5) = (8 # 5)%Q
  /\ load m' (TAUP 5) = (8 # 5)%Q
  /\ load m' (AL 2 7 1 0) = (-5)%Q
  /\ load m' (AL 2 7 1 1) = (-5)%Q
  /\ load m' (AL 2 7 2 0) = 0%Q
  /\ load m' (AL 2 7 3 0) = 0%Q.
Proof. vm_compute. repeat split; reflexivity. Qed.

(** ** Argument checks of the tile kernels *)

Ltac names_param :=
  unfold error_names;
  first [ left; reflexivity
        | right; left; reflexivity
        | right; right; left; reflexivity
        | right; right; right; exists "trans"%string; reflexivity ].

Ltac blame :=
  split; [reflexivity |
  split; [reflexivity |
  intros msg Hin; simpl in Hin; destruct Hin as [<- | []];
  eexists; split; [reflexivity | names_param]]].


Section Validation.

Context `{HD : Headers} `{CB : Cblas}.




Lemma ztsmqr_quick_return (side trans m1 n1 m2 n2 k ib : Z)
  (A1 : option array) (lda1 : Z) (A2 : option array) (lda2 : Z)
  (V : option array) (ldv : Z) (T : option array) (ldt : Z)
  (work : option array) (ldwork : Z) :
  let r := coreblas_ztsmqr side trans m1 n1 m2 n2 k ib A1 lda1 A2 lda2
                           V ldv T ldt work ldwork in
  ~ rejected r ->
  m1 = 0 \/ n1 = 0 \/ m2 = 0 \/ n2 = 0 \/ k = 0 \/ ib = 0 ->
  r = done CoreBlasSuccess (A1, A2, work).
Proof.
  intros r Hok Hzero. unfold r, coreblas_ztsmqr in *. cbv zeta in *.
  repeat match type of Hok with
         | ~ rejected (if ?c then _ else _) =>
             destruct c eqn:?; [exfalso; apply Hok; discriminate |]
         end.
  assert (Hq : (m1 =? 0) || (n1 =? 0) || (m2 =? 0) || (n2 =? 0) || (k =? 0) || (ib =? 0)
               = true).
  { rewrite !orb_true_iff, !Z.eqb_eq. tauto. }
  rewrite Hq. reflexivity.
Qed.

Lemma zlarfb_gemm_not_supported (side trans direct storev M N K : Z)
  (V : array) (LDV : Z) (T : array) (LDT : Z) (C : array) (LDC : Z)
  (WORK : array) (LDWORK : Z) :
  CoreBlasForward <> CoreBlasBackward -> CoreBlasColumnwise <> CoreBlasRowwise ->
  0 < M -> 0 < N -> 0 < K ->
  direct = CoreBlasBackward \/ storev = CoreBlasRowwise ->
  coreblas_zlarfb_gemm side trans direct storev M N K V LDV T LDT C LDC WORK LDWORK
  = done CoreBlasErrorNotSupported (C, WORK).
Proof.
  intros Hfb Hcr HM HN HK Hcase. unfold coreblas_zlarfb_gemm.
  replace (M =? 0) with false by (symmetry; apply Z.eqb_neq; lia).
  replace (N =? 0) with false by (symmetry; apply Z.eqb_neq; lia).
  replace (K =? 0) with false by (symmetry; apply Z.eqb_neq; lia).
  simpl orb. cbv zeta.
  destruct (storev =? CoreBlasColumnwise) eqn:Ecol.
  - destruct (direct =? CoreBlasForward) eqn:Efw; [|reflexivity].
    apply Z.eqb_eq in Ecol. apply Z.eqb_eq in Efw.
    destruct Hcase; congruence.
  - destruct (direct =? CoreBlasForward); reflexivity.
Qed.

End Validation.

Ltac walk_table :=
  unfold charges_first, first_illegal; cbn [find snd fst option_map];
  repeat match goal with
         | |- context [if ?c then _ else _] =>
             destruct c eqn:?;
             [cbn [find snd fst option_map];
              solve [split; [discriminate | split; reflexivity]] |];
             cbn [find snd fst option_map]
         end.

Section Tables.

Context `{HD : Headers} `{CB : Cblas}.


Lemma ztsmqr_charges_first (side trans m1 n1 m2 n2 k ib : Z)
  (A1 : option array) (lda1 : Z) (A2 : option array) (lda2 : Z)
  (V : option array) (ldv : Z) (T : option array) (ldt : Z)
  (work : option array) (ldwork : Z) :
  charges_first (ztsmqr_illegal side trans m1 n1 m2 n2 k ib A1 lda1 A2 lda2
                                V ldv T ldt work ldwork)
                (A1, A2, work)
                (coreblas_ztsmqr side trans m1 n1 m2 n2 k ib A1 lda1 A2 lda2
                                 V ldv T ldt work ldwork).
Proof.
  unfold coreblas_ztsmqr, ztsmqr_illegal. cbv zeta.
  walk_table.
  intros Hrej. apply Hrej.
  destruct ((m1 =? 0) || (n1 =? 0) || (m2 =? 0) || (n2 =? 0) || (k =? 0) || (ib =? 0));
    [reflexivity|].
  repeat match goal with
         | |- context [let '(_, _) := ?x in _] => destruct x
         end.
  reflexivity.
Qed.


End Tables.



(** C9.  For [M > 0], [N > 0], [K > 0] and either
    [direct = CoreBlasBackward] or [storev = CoreBlasRowwise],
    [coreblas_zlarfb_gemm] returns [CoreBlasErrorNotSupported] and
    leaves [C] and [WORK] as they were. *)
Theorem zlarfb_gemm_unsupported_unchanged `{HD : Headers} `{CB : Cblas}
  (side trans direct storev M N K : Z)
  (V : array) (LDV : Z) (T : array) (LDT : Z) (C : array) (LDC : Z)
  (WORK : array) (LDWORK : Z) :
  CoreBlasForward <> CoreBlasBackward -> CoreBlasColumnwise <> CoreBlasRowwise ->
  0 < M -> 0 < N -> 0 < K ->
  direct = CoreBlasBackward \/ storev = CoreBlasRowwise ->
  let r := coreblas_zlarfb_gemm side trans direct storev M N K
                                V LDV T LDT C LDC WORK LDWORK in
  ret r = CoreBlasErrorNotSupported /\ out r = (C, WORK).
Proof.
  intros Hfb Hcr HM HN HK Hcase r. unfold r.
  rewrite zlarfb_gemm_not_supported by assumption. split; reflexivity.
Qed.

Lemma zlarfb_gemm_unsupported_unchanged_witness :
  ret (@coreblas_zlarfb_gemm sample_headers Q_scalars sample_cblas
         141 111 392 401 2 2 1 sample_tile 2 sample_tile 1 sample_tile 2 sample_tile 2)
  = 2.
Proof.
  exact (proj1 (@zlarfb_gemm_unsupported_unchanged sample_headers Q_scalars sample_cblas
                  141 111 392 401 2 2 1 sample_tile 2 sample_tile 1 sample_tile 2
                  sample_tile 2
                  ltac:(vm_compute; discriminate) ltac:(vm_compute; discriminate)
                  ltac:(lia) ltac:(lia) ltac:(lia) ltac:(left; reflexivity))).
Defined.

(** C10.  When the arguments of [coreblas_ztsmqr] pass its checks and one
    of [m1], [n1], [m2], [n2], [k], [ib] is zero, the call returns
    [CoreBlasSuccess] and the tiles [A1], [A2] and the workspace are as
    they were passed. *)
Theorem ztsmqr_quick_return_unchanged `{HD : Headers} `{CB : Cblas}
  (side trans m1 n1 m2 n2 k ib : Z)
  (A1 : option array) (lda1 : Z) (A2 : option array) (lda2 : Z)
  (V : option array) (ldv : Z) (T : option array) (ldt : Z)
  (work : option array) (ldwork : Z) :
  let r := coreblas_ztsmqr side trans m1 n1 m2 n2 k ib A1 lda1 A2 lda2
                           V ldv T ldt work ldwork in
  ~ rejected r ->
  m1 = 0 \/ n1 = 0 \/ m2 = 0 \/ n2 = 0 \/ k = 0 \/ ib = 0 ->
  ret r = CoreBlasSuccess /\ out r = (A1, A2, work).
Proof.
  intros r Hok Hzero. unfold r.
  rewrite ztsmqr_quick_return by assumption. split; reflexivity.
Qed.

Lemma ztsmqr_quick_return_unchanged_witness :
  ret (@coreblas_ztsmqr sample_headers Q_scalars sample_cblas
         141 111 2 2 2 2 0 1 (Some sample_tile) 2 (Some sample_tile) 2
         (Some sample_tile) 2 (Some sample_tile) 1 (Some sample_tile) 1) = 0.
Proof.
  exact (proj1 (@ztsmqr_quick_return_unchanged sample_headers Q_scalars sample_cblas
                  141 111 2 2 2 2 0 1 (Some sample_tile) 2 (Some sample_tile) 2
                  (Some sample_tile) 2 (Some sample_tile) 1 (Some sample_tile) 1
                  ltac:(intros Hrej; apply Hrej; vm_compute; reflexivity)
                  ltac:(right; right; right; right; left; reflexivity))).
Defined.

(** * Part III: further properties and the other kernels *)

(** ** Footprints of the bulge-chasing kernels *)

Section Footprints.

Context `{HD : Headers} `{LP : Lapacke}.

Lemma zlarfg_frame_cells (n : Z) (alpha : scalar) (x tau : ptr) (m : mem) (q : ptr) :
  (forall k, 0 <= k < n - 1 -> ptr_add x k <> q) -> q <> tau ->
  load (snd (LAPACKE_zlarfg n alpha x tau m)) q = load m q.
Proof.
  intros Hx Ht. rewrite zlarfg_eq. simpl snd.
  rewrite load_store_other by exact Ht.
  apply write_vec_frame. exact Hx.
Qed.

Lemma eliminate_row_cells (view : Z -> Z -> ptr) (r c0 len : Z) (v tau : ptr)
  (m : mem) (q : ptr) :
  q <> v -> (forall k, 1 <= k < len -> ptr_add v k <> q) -> q <> tau ->
  view r c0 <> q -> (forall k, 1 <= k < len -> view r (c0 + k) <> q) ->
  load (eliminate_row view r c0 len v tau m) q = load m q.
Proof.
  intros Hv Hvk Ht Hp Hq. rewrite eliminate_row_eq. cbv zeta.
  rewrite load_store_other by (intros E; apply Hp; symmetry; exact E).
  rewrite zlarfg_frame_cells;
    [| intros k Hk; rewrite ptr_add_add; apply Hvk; lia | exact Ht].
  rewrite (row_loop_frame view) by assumption.
  apply load_store_other. exact Hv.
Qed.

Lemma eliminate_col_cells (view : Z -> Z -> ptr) (r0 c len : Z) (v tau : ptr)
  (m : mem) (q : ptr) :
  q <> v -> (forall k, 1 <= k < len -> ptr_add v k <> q) -> q <> tau ->
  view r0 c <> q -> (forall k, 1 <= k < len -> view (r0 + k) c <> q) ->
  load (eliminate_col view r0 c len v tau m) q = load m q.
Proof.
  intros Hv Hvk Ht Hp Hq. unfold eliminate_col. rewrite zlarfg_at_eq. cbv zeta.
  rewrite load_store_other by (intros E; apply Hp; symmetry; exact E).
  rewrite zlarfg_frame_cells;
    [| intros k Hk; rewrite ptr_add_add; apply Hvk; lia | exact Ht].
  rewrite (store_loop_frame (fun k => view (r0 + k) c) (fun _ _ => czero)) by exact Hq.
  rewrite (store_loop_frame (fun k => ptr_add v k)
                            (fun k m => load m (view (r0 + k) c))) by exact Hvk.
  apply load_store_other. exact Hv.
Qed.

Lemma apply_reflector_cells (side : lapack_side) (view : Z -> Z -> ptr)
  (r0 c0 rows cols : Z) (v : ptr) (tau : scalar) (m : mem) (q : ptr) :
  (forall k, 0 <= k < match side with SideL => cols | SideR => rows end ->
             ptr_add WORK k <> q) ->
  (forall i j, 0 <= i < rows -> 0 <= j < cols -> view (r0 + i) (c0 + j) <> q) ->
  load (apply_reflector side view r0 c0 rows cols v tau m) q = load m q.
Proof.
  intros Hw Hq. unfold apply_reflector.
  rewrite write_vec_frame by exact Hw.
  apply write_rect_frame. exact Hq.
Qed.

Lemma type1_upper_footprint (nb lda st ed vpos taupos : Z) (m : mem) (q : ptr) :
  st <= ed ->
  ~ type1_writes true nb lda st ed vpos taupos q ->
  load (type1_upper_steps nb lda st ed vpos taupos m) q = load m q.
Proof.
  intros Hse Hq. unfold type1_upper_steps. cbv zeta.
  assert (HA : forall i j, (i = st - 1 \/ st <= i <= ed) -> st <= j <= ed ->
                           AU nb lda i j <> q).
  { intros i j Hi Hj E. apply Hq. left. exists i, j. auto. }
  assert (HVP : forall k, 0 <= k <= ed - st -> ptr_add (VP vpos) k <> q).
  { intros k Hk E. apply Hq. right. left. exists k. split; [exact Hk|].
    left. rewrite <- E. reflexivity. }
  assert (HVQ : forall k, 0 <= k <= ed - st -> ptr_add (VQ vpos) k <> q).
  { intros k Hk E. apply Hq. right. left. exists k. split; [exact Hk|].
    right. rewrite <- E. reflexivity. }
  assert (HTP : q <> TAUP taupos) by (intros E; apply Hq; right; right; left; exact E).
  assert (HTQ : q <> TAUQ taupos) by (intros E; apply Hq; right; right; right; left; exact E).
  assert (HW : forall k, 0 <= k <= ed - st -> ptr_add WORK k <> q).
  { intros k Hk E. apply Hq. do 4 right. exists k. auto. }
  rewrite apply_reflector_cells;
    [| intros k Hk; apply HW; lia | intros i j Hi Hj; apply HA; lia].
  rewrite eliminate_col_cells;
    [| intros E; apply (HVQ 0); [lia | rewrite E; unfold ptr_add, VQ; simpl; f_equal; lia]
     | intros k Hk; apply HVQ; lia | exact HTQ
     | apply HA; lia | intros k Hk; apply HA; lia].
  rewrite apply_reflector_cells;
    [| intros k Hk; apply HW; lia | intros i j Hi Hj; apply HA; lia].
  apply eliminate_row_cells;
    [ intros E; apply (HVP 0); [lia | rewrite E; unfold ptr_add, VP; simpl; f_equal; lia]
    | intros k Hk; apply HVP; lia | exact HTP
    | apply HA; lia | intros k Hk; apply HA; lia].
Qed.

Lemma type1_lower_footprint (nb lda st ed vpos taupos : Z) (m : mem) (q : ptr) :
  st <= ed ->
  ~ type1_writes false nb lda st ed vpos taupos q ->
  load (type1_lower_steps nb lda st ed vpos taupos m) q = load m q.
Proof.
  intros Hse Hq. unfold type1_lower_steps. cbv zeta.
  assert (HA : forall i j, (i = st - 1 \/ st <= i <= ed) -> st <= j <= ed ->
                           AL nb lda j i <> q).
  { intros i j Hi Hj E. apply Hq. left. exists i, j. auto. }
  assert (HVP : forall k, 0 <= k <= ed - st -> ptr_add (VP vpos) k <> q).
  { intros k Hk E. apply Hq. right. left. exists k. split; [exact Hk|].
    left. rewrite <- E. reflexivity. }
  assert (HVQ : forall k, 0 <= k <= ed - st -> ptr_add (VQ vpos) k <> q).
  { intros k Hk E. apply Hq. right. left. exists k. split; [exact Hk|].
    right. rewrite <- E. reflexivity. }
  assert (HTP : q <> TAUP taupos) by (intros E; apply Hq; right; right; left; exact E).
  assert (HTQ : q <> TAUQ taupos) by (intros E; apply Hq; right; right; right; left; exact E).
  assert (HW : forall k, 0 <= k <= ed - st -> ptr_add WORK k <> q).
  { intros k Hk E. apply Hq. do 4 right. exists k. auto. }
  rewrite apply_reflector_cells;
    [| intros k Hk; apply HW; lia | intros i j Hi Hj; apply HA; lia].
  rewrite eliminate_row_cells;
    [| intros E; apply (HVP 0); [lia | rewrite E; unfold ptr_add, VP; simpl; f_equal; lia]
     | intros k Hk; apply HVP; lia | exact HTP
     | apply HA; lia | intros k Hk; apply HA; lia].
  rewrite apply_reflector_cells;
    [| intros k Hk; apply HW; lia | intros i j Hi Hj; apply HA; lia].
  apply eliminate_col_cells;
    [ intros E; apply (HVQ 0); [lia | rewrite E; unfold ptr_add, VQ; simpl; f_equal; lia]
    | intros k Hk; apply HVQ; lia | exact HTQ
    | apply HA; lia | intros k Hk; apply HA; lia].
Qed.

Lemma type2_phases_footprint (uplo n nb lda st ed : Z) (pos posJ : Z * Z)
  (m : mem) (q : ptr) :
  st <= ed ->
  ~ type2_writes (uplo =? CoreBlasUpper) n nb lda st ed posJ q ->
  load (type2_phases uplo n nb lda st ed pos posJ m) q = load m q.
Proof.
  intros Hse Hq. unfold type2_phases.
  destruct pos as [vpos taupos]. destruct posJ as [vposJ tauposJ].
  unfold type2_writes in Hq. cbv zeta in Hq. simpl fst in *. simpl snd in *.
  set (J2 := imin (ed + nb) (n - 1)) in *.
  replace (J2 - (ed + 1) + 1) with (J2 - ed) by ring.
  assert (HA : forall i j, st <= i <= ed -> ed + 1 <= j <= J2 ->
                 (if uplo =? CoreBlasUpper then AU nb lda i j else AL nb lda j i) <> q).
  { intros i j Hi Hj E. apply Hq. left. exists i, j. auto. }
  assert (HW : forall k, 0 <= k <= J2 - (ed + 1) \/ (ed + 1 < J2 /\ 0 <= k < ed - st) ->
                 ptr_add WORK k <> q).
  { intros k Hk E. apply Hq. right. right. exists k. auto. }
  assert (Hpend : J2 - ed > 0 ->
            load (type2_apply_pending uplo n nb lda st ed vpos taupos m) q = load m q).
  { intros _. unfold type2_apply_pending. fold J2.
    destruct (uplo =? CoreBlasUpper).
    - apply apply_reflector_cells;
        [intros k Hk; apply HW; lia | intros i j Hi Hj; apply HA; lia].
    - apply apply_reflector_cells;
        [intros k Hk; apply HW; lia | intros i j Hi Hj; apply HA; lia]. }
  assert (Hgen : forall m0, J2 - ed > 1 ->
            load (type2_generate_next uplo n nb lda st ed vposJ tauposJ m0) q = load m0 q).
  { intros m0 Hlen. unfold type2_generate_next. fold J2.
    assert (HV : forall k, 0 <= k <= J2 - (ed + 1) ->
              (if uplo =? CoreBlasUpper then VP (vposJ + k) else VQ (vposJ + k)) <> q).
    { intros k Hk E. apply Hq. right. left. split; [lia|]. left. exists k. auto. }
    assert (HT : q <> if uplo =? CoreBlasUpper then TAUP tauposJ else TAUQ tauposJ).
    { intros E. apply Hq. right. left. split; [lia|]. right. exact E. }
    destruct (uplo =? CoreBlasUpper).
    - rewrite apply_reflector_cells;
        [| intros k Hk; apply HW; lia | intros i j Hi Hj; apply HA; lia].
      apply eliminate_row_cells;
        [ intros E; apply (HV 0); [lia | rewrite E; unfold VP; f_equal; lia]
        | intros k Hk; apply HV; lia | exact HT
        | apply HA; lia | intros k Hk; apply HA; lia].
    - rewrite apply_reflector_cells;
        [| intros k Hk; apply HW; lia | intros i j Hi Hj; apply HA; lia].
      apply eliminate_col_cells;
        [ intros E; apply (HV 0); [lia | rewrite E; unfold VQ; f_equal; lia]
        | intros k Hk; apply HV; lia | exact HT
        | apply HA; lia | intros k Hk; apply HA; lia]. }
  destruct (J2 - ed >? 1) eqn:E1; destruct (J2 - ed >? 0) eqn:E0;
    rewrite ?Z.gtb_ltb, ?Z.ltb_lt, ?Z.ltb_ge in E0, E1.
  - rewrite Hgen by lia. apply Hpend. lia.
  - lia.
  - apply Hpend. lia.
  - reflexivity.
Qed.

End Footprints.

Lemma half_bounds (sweep : Z) : 0 <= (sweep + 1) mod 2 <= 1.
Proof. pose proof (Z.mod_pos_bound (sweep + 1) 2 ltac:(lia)). lia. Qed.

Lemma AU_in_bounds (n nb lda i j : Z) :
  3 * nb + 1 <= lda -> 0 <= j < n -> - (2 * nb) <= i - j <= nb ->
  0 <= snd (AU nb lda i j) < lda * n.
Proof. intros Hlda Hj Hd. unfold AU. simpl. nia. Qed.

Lemma AL_in_bounds (n nb lda i j : Z) :
  3 * nb + 1 <= lda -> 0 <= j < n -> - nb <= i - j <= 2 * nb ->
  0 <= snd (AL nb lda i j) < lda * n.
Proof. intros Hlda Hj Hd. unfold AL. simpl. nia. Qed.

Lemma type1_writes_in_bounds (upper : bool) (n nb lda st ed sweep : Z) (q : ptr) :
  type1_valid n nb lda st ed -> 0 <= sweep ->
  type1_writes upper nb lda st ed
               ((sweep + 1) mod 2 * n + st) ((sweep + 1) mod 2 * n + st) q ->
  bulge_in_bounds n nb lda q.
Proof.
  intros (Hnb & Hlda & Hst & Hse & Hed & Hlen) Hs Hw.
  pose proof (half_bounds sweep) as Hh.
  set (h := (sweep + 1) mod 2) in *.
  assert (Hhn : 0 <= h * n <= n) by nia.
  unfold bulge_in_bounds.
  destruct Hw as [(i & j & Hi & Hj & ->) | [(k & Hk & [-> | ->]) | [-> | [-> | (k & Hk & ->)]]]].
  - destruct upper.
    + change (fst (AU nb lda i j)) with BufA. cbv iota.
      apply AU_in_bounds; lia.
    + change (fst (AL nb lda j i)) with BufA. cbv iota.
      apply AL_in_bounds; lia.
  - cbn [fst snd VP]. lia.
  - cbn [fst snd VQ]. lia.
  - cbn [fst snd TAUP]. lia.
  - cbn [fst snd TAUQ]. lia.
  - cbn [fst snd WORK ptr_add]. lia.
Qed.

Lemma type2_writes_in_bounds `{HD : Headers} (upper : bool) (n nb lda st ed sweep : Z)
  (q : ptr) :
  type2_valid n nb lda st ed -> 0 <= sweep ->
  type2_writes upper n nb lda st ed
               ((sweep + 1) mod 2 * n + (ed + 1), (sweep + 1) mod 2 * n + (ed + 1)) q ->
  bulge_in_bounds n nb lda q.
Proof.
  intros (Hnb & Hlda & Hst & Hse & Hed & Hlen) Hs Hw.
  pose proof (half_bounds sweep) as Hh.
  unfold type2_writes in Hw. cbv zeta in Hw. simpl fst in Hw. simpl snd in Hw.
  assert (HJ2 : imin (ed + nb) (n - 1) <= ed + nb /\ imin (ed + nb) (n - 1) <= n - 1).
  { unfold imin. destruct (ed + nb <? n - 1) eqn:E;
      rewrite ?Z.ltb_lt, ?Z.ltb_ge in E; lia. }
  set (J2 := imin (ed + nb) (n - 1)) in *.
  set (h := (sweep + 1) mod 2) in *.
  assert (Hhn : 0 <= h * n <= n) by nia.
  unfold bulge_in_bounds.
  destruct Hw as [(i & j & Hi & Hj & ->) | [(HJ & [(k & Hk & ->) | ->]) | (k & Hk & ->)]].
  - destruct upper.
    + change (fst (AU nb lda i j)) with BufA. cbv iota.
      apply AU_in_bounds; lia.
    + change (fst (AL nb lda j i)) with BufA. cbv iota.
      apply AL_in_bounds; lia.
  - destruct upper; cbn [fst snd VP VQ]; lia.
  - destruct upper; cbn [fst snd TAUP TAUQ]; lia.
  - cbn [fst snd WORK ptr_add]. lia.
Qed.

Section Type2Cells.

Context `{HD : Headers} `{LP : Lapacke}.

Variables n nb lda st ed vpos taupos : Z.
Hypothesis valid : type2_valid n nb lda st ed.







End Type2Cells.

(** A cell is not another: the buffers differ, or the offsets do. *)
Ltac other_cell E :=
  first [ apply (f_equal fst) in E;
          cbn [fst AU AL VP VQ TAUP TAUQ WORK ptr_add] in E; discriminate E
        | apply (f_equal snd) in E;
          cbn [fst snd AU AL VP VQ TAUP TAUQ WORK ptr_add] in E; lia ].

(** ** What the bulge-chasing kernels write *)

(** X1.  A type-1 call on a window [st <= ed] changes no cell outside
    its footprint: in the band buffer the diagonal block
    [A(st:ed, st:ed)] and the eliminated line [st-1] beside it, in the
    reflector store the [ed-st+1] cells of the slot of [(sweep, st)] in
    [VP] and [VQ] and the one cell of that slot in [TAUP] and [TAUQ], and
    the first [ed-st+1] cells of the workspace.  This holds for every
    argument tuple, in range or not. *)
Theorem type1_writes_confined `{HD : Headers} `{LP : Lapacke}
  (uplo n nb lda st ed sweep Vblksiz wantz : Z) (m : mem) (q : ptr) :
  st <= ed ->
  let pos := reflector_pos wantz n nb Vblksiz sweep st in
  ~ type1_writes (uplo =? CoreBlasUpper) nb lda st ed (fst pos) (snd pos) q ->
  load (coreblas_zgbtype1cb uplo n nb lda st ed sweep Vblksiz wantz m) q = load m q.
Proof.
  intros Hse pos Hq. destruct (uplo =? CoreBlasUpper) eqn:E.
  - apply Z.eqb_eq in E. rewrite (type1_upper_unfold _ _ _ _ _ _ _ _ _ _ E).
    apply type1_upper_footprint; assumption.
  - apply Z.eqb_neq in E. rewrite (type1_lower_unfold _ _ _ _ _ _ _ _ _ _ E).
    apply type1_lower_footprint; assumption.
Qed.

Lemma type1_writes_confined_witness :
  load sample_type1_run (VP 4) = load sample_upper_band (VP 4).
Proof.
  apply (@type1_writes_confined sample_headers Q_scalars Q_lapacke
           121 5 4 13 1 4 0 1 0 sample_upper_band (VP 4) ltac:(lia)).
  change (~ type1_writes true 4 13 1 4 6 6 (VP 4)).
  intros [(i & j & _ & _ & E) | [(k & Hk & [E | E]) | [E | [E | (k & Hk & E)]]]];
    other_cell E.
Defined.

(** X2.  In values-only mode a valid type-1 call writes inside the
    buffers it is given: the [lda * n] cells of the band buffer, the
    first [2 * n] cells of each of [VP], [VQ], [TAUP] and [TAUQ], and
    the first [nb] cells of the workspace. *)
Theorem type1_values_only_in_bounds `{HD : Headers} `{LP : Lapacke}
  (uplo n nb lda st ed sweep Vblksiz : Z) (m : mem) (q : ptr) :
  type1_valid n nb lda st ed -> 0 <= sweep ->
  ~ bulge_in_bounds n nb lda q ->
  load (coreblas_zgbtype1cb uplo n nb lda st ed sweep Vblksiz 0 m) q = load m q.
Proof.
  intros Hv Hs Hq.
  assert (Hse : st <= ed) by (destruct Hv as (_ & _ & _ & Hse & _); exact Hse).
  assert (Hout : forall upper,
            ~ type1_writes upper nb lda st ed
                (fst (reflector_pos 0 n nb Vblksiz sweep st))
                (snd (reflector_pos 0 n nb Vblksiz sweep st)) q).
  { intros upper. rewrite reflector_pos_values_only by exact Hs. cbn [fst snd].
    intros Hw. apply Hq.
    apply (type1_writes_in_bounds upper n nb lda st ed sweep q Hv Hs Hw). }
  destruct (uplo =? CoreBlasUpper) eqn:E.
  - apply Z.eqb_eq in E. rewrite (type1_upper_unfold _ _ _ _ _ _ _ _ _ _ E).
    apply type1_upper_footprint; [exact Hse | apply Hout].
  - apply Z.eqb_neq in E. rewrite (type1_lower_unfold _ _ _ _ _ _ _ _ _ _ E).
    apply type1_lower_footprint; [exact Hse | apply Hout].
Qed.

Lemma type1_values_only_in_bounds_witness :
  load sample_type1_run (VP 10) = load sample_upper_band (VP 10).
Proof.
  apply (@type1_values_only_in_bounds sample_headers Q_scalars Q_lapacke
           121 5 4 13 1 4 0 1 sample_upper_band (VP 10)
           ltac:(unfold type1_valid; lia) ltac:(lia)).
  change (~ 0 <= 10 < 2 * 5). lia.
Defined.

(** X3.  A type-2 call on a window [st <= ed] changes no cell outside
    its footprint: in the band buffer the rectangle between the window
    and the next block [[J1, J2]], in the reflector store (only when the
    next block has more than one column) the slot of [(sweep, J1)] in
    [VP] and [TAUP] (upper case) or in [VQ] and [TAUQ] (lower case), and
    the head of the workspace.  The reflector of the window, which the
    call reads, is never written. *)
Theorem type2_writes_confined `{HD : Headers} `{LP : Lapacke}
  (uplo n nb lda st ed sweep Vblksiz wantz : Z) (m : mem) (q : ptr) :
  st <= ed ->
  ~ type2_writes (uplo =? CoreBlasUpper) n nb lda st ed
                 (reflector_pos wantz n nb Vblksiz sweep (ed + 1)) q ->
  load (coreblas_zgbtype2cb uplo n nb lda st ed sweep Vblksiz wantz m) q = load m q.
Proof.
  intros Hse Hq. rewrite type2_unfold.
  apply type2_phases_footprint; assumption.
Qed.

Lemma type2_writes_confined_witness :
  load (@coreblas_zgbtype2cb sample_headers Q_scalars Q_lapacke
          121 5 4 13 1 2 0 1 0 sample_upper_band) (VQ 6)
  = load sample_upper_band (VQ 6).
Proof.
  apply (@type2_writes_confined sample_headers Q_scalars Q_lapacke
           121 5 4 13 1 2 0 1 0 sample_upper_band (VQ 6) ltac:(lia)).
  change (~ @type2_writes sample_headers true 5 4 13 1 2 (8, 8) (VQ 6)).
  intros [(i & j & _ & _ & E) | [(_ & [(k & Hk & E) | E]) | (k & Hk & E)]];
    other_cell E.
Defined.

(** X4.  In values-only mode a valid type-2 call writes inside the same
    bounds. *)
Theorem type2_values_only_in_bounds `{HD : Headers} `{LP : Lapacke}
  (uplo n nb lda st ed sweep Vblksiz : Z) (m : mem) (q : ptr) :
  type2_valid n nb lda st ed -> 0 <= sweep ->
  ~ bulge_in_bounds n nb lda q ->
  load (coreblas_zgbtype2cb uplo n nb lda st ed sweep Vblksiz 0 m) q = load m q.
Proof.
  intros Hv Hs Hq. rewrite type2_unfold.
  apply type2_phases_footprint; [destruct Hv as (_ & _ & _ & Hse & _); exact Hse|].
  rewrite reflector_pos_values_only by exact Hs.
  intros Hw. apply Hq. apply (type2_writes_in_bounds _ n nb lda st ed sweep q Hv Hs Hw).
Qed.

Lemma type2_values_only_in_bounds_witness :
  load (@coreblas_zgbtype2cb sample_headers Q_scalars Q_lapacke
          121 5 4 13 1 2 0 1 0 sample_upper_band) (BufWORK, 4)
  = load sample_upper_band (BufWORK, 4).
Proof.
  apply (@type2_values_only_in_bounds sample_headers Q_scalars Q_lapacke
           121 5 4 13 1 2 0 1 sample_upper_band (BufWORK, 4)
           ltac:(unfold type2_valid; lia) ltac:(lia)).
  change (~ 0 <= 4 < 4). lia.
Defined.



(** ** Arrays and the loops of [coreblas_ztradd] *)

Section ArrayFacts.

Context `{SC : Scalars}.

Lemma aset_same (a : array) (i : Z) (v : scalar) : aset a i v i = v.
Proof. unfold aset. rewrite Z.eqb_refl. reflexivity. Qed.

Lemma aset_other (a : array) (i j : Z) (v : scalar) : j <> i -> aset a i v j = a j.
Proof. intros Hne. unfold aset. apply Z.eqb_neq in Hne. rewrite Hne. reflexivity. Qed.

(** A loop of array updates leaves alone every index it does not name. *)
Lemma aset_loop_frame (idx : Z -> Z) (val : Z -> array -> scalar) (lo hi : Z)
  (b : array) (x : Z) :
  (forall i, lo <= i < hi -> idx i <> x) ->
  for_loop lo hi (fun i b => aset b (idx i) (val i b)) b x = b x.
Proof.
  intros Hx.
  apply (for_loop_inv (fun b' => b' x = b x)); [reflexivity|].
  intros i b' Hi Hb'. rewrite aset_other; [exact Hb'|].
  intros E. apply (Hx i Hi). symmetry. exact E.
Qed.

(** A loop of updates under distinct indices, each computed from the old
    value at its own index, leaves each result at its index. *)
Lemma aset_loop_at (idx : Z -> Z) (f : Z -> scalar -> scalar) (lo hi : Z)
  (b : array) (k : Z) :
  (forall i i', lo <= i < hi -> lo <= i' < hi -> idx i = idx i' -> i = i') ->
  lo <= k < hi ->
  for_loop lo hi (fun i b => aset b (idx i) (f i (b (idx i)))) b (idx k)
  = f k (b (idx k)).
Proof.
  intros Hinj Hk.
  assert (Hall :
    (forall j, lo <= j < hi ->
       for_loop lo hi (fun i b => aset b (idx i) (f i (b (idx i)))) b (idx j)
       = f j (b (idx j)))
    /\ (forall j, hi <= j < hi ->
          for_loop lo hi (fun i b => aset b (idx i) (f i (b (idx i)))) b (idx j)
          = b (idx j))).
  { apply (for_loop_inv_idx
             (fun i b' =>
                (forall j, lo <= j < i -> b' (idx j) = f j (b (idx j)))
                /\ (forall j, i <= j < hi -> b' (idx j) = b (idx j)))).
    - lia.
    - split; [intros j Hj; lia | intros j Hj; reflexivity].
    - intros i b' Hi [Hdone Hleft]. split.
      + intros j Hj. destruct (Z.eq_dec j i) as [->|Hne].
        * rewrite aset_same. rewrite Hleft by lia. reflexivity.
        * rewrite aset_other.
          -- apply Hdone. lia.
          -- intros E. apply Hne. apply Hinj; [lia | lia | exact E].
      + intros j Hj. rewrite aset_other.
        * apply Hleft. lia.
        * intros E. assert (j = i) by (apply Hinj; [lia | lia | exact E]). lia. }
  destruct Hall as [Hall _]. apply Hall. exact Hk.
Qed.

End ArrayFacts.

Section Tradd.

Context `{SC : Scalars} `{HD : Headers}.


Lemma ztradd_loops_at (lower : bool) (m n ldb : Z) (g : Z -> Z -> scalar -> scalar)
  (b : array) (i j : Z) :
  m <= ldb ->
  0 <= j < n -> 0 <= i < m -> (if lower then j <= i else i <= j) ->
  (if lower then
     for_loop 0 n (fun j b => for_loop j m (fun i b =>
        aset b (ldb * j + i) (g i j (b (ldb * j + i)))) b) b
   else
     for_loop 0 n (fun j b => for_loop 0 (imin (j + 1) m) (fun i b =>
        aset b (ldb * j + i) (g i j (b (ldb * j + i)))) b) b) (ldb * j + i)
  = g i j (b (ldb * j + i)).
Proof.
  intros Hldb Hj Hi Htri.
  set (lo := fun jj : Z => if lower then jj else 0).
  set (hi := fun jj : Z => if lower then m else imin (jj + 1) m).
  assert (Hhi : forall jj, hi jj <= m).
  { intros jj. unfold hi. destruct lower; [lia|].
    unfold imin. destruct (jj + 1 <? m) eqn:E; rewrite ?Z.ltb_lt, ?Z.ltb_ge in E; lia. }
  assert (Hlo : forall jj, 0 <= jj -> 0 <= lo jj).
  { intros jj Hjj. unfold lo. destruct lower; lia. }
  assert (Hin : lo j <= i < hi j).
  { unfold lo, hi. destruct lower; [lia|].
    unfold imin. destruct (j + 1 <? m) eqn:E; rewrite ?Z.ltb_lt, ?Z.ltb_ge in E; lia. }
  assert (E : (if lower then
     for_loop 0 n (fun j b => for_loop j m (fun i b =>
        aset b (ldb * j + i) (g i j (b (ldb * j + i)))) b) b
   else
     for_loop 0 n (fun j b => for_loop 0 (imin (j + 1) m) (fun i b =>
        aset b (ldb * j + i) (g i j (b (ldb * j + i)))) b) b)
     = for_loop 0 n (fun j b => for_loop (lo j) (hi j) (fun i b =>
        aset b (ldb * j + i) (g i j (b (ldb * j + i)))) b) b).
  { unfold lo, hi. destruct lower; reflexivity. }
  rewrite E. clear E.
  assert (Hall :
    (forall jj ii, 0 <= jj < n -> lo jj <= ii < hi jj ->
       for_loop 0 n (fun j b => for_loop (lo j) (hi j) (fun i b =>
          aset b (ldb * j + i) (g i j (b (ldb * j + i)))) b) b (ldb * jj + ii)
       = g ii jj (b (ldb * jj + ii)))
    /\ (forall jj ii, n <= jj < n -> 0 <= ii < m ->
          for_loop 0 n (fun j b => for_loop (lo j) (hi j) (fun i b =>
             aset b (ldb * j + i) (g i j (b (ldb * j + i)))) b) b (ldb * jj + ii)
          = b (ldb * jj + ii))).
  { apply (for_loop_inv_idx
             (fun c b' =>
                (forall jj ii, 0 <= jj < c -> lo jj <= ii < hi jj ->
                   b' (ldb * jj + ii) = g ii jj (b (ldb * jj + ii)))
                /\ (forall jj ii, c <= jj < n -> 0 <= ii < m ->
                      b' (ldb * jj + ii) = b (ldb * jj + ii)))).
    - lia.
    - split; [intros jj ii Hjj; lia | intros jj ii _ _; reflexivity].
    - intros c b' Hc [Hdone Hleft]. split.
      + intros jj ii Hjj Hii. destruct (Z.eq_dec jj c) as [->|Hne].
        * rewrite (aset_loop_at (fun i => ldb * c + i) (fun i v => g i c v)).
          -- rewrite Hleft; [reflexivity | lia |].
             pose proof (Hhi c). pose proof (Hlo c ltac:(lia)). lia.
          -- intros x x' _ _ Ex. lia.
          -- exact Hii.
        * rewrite (aset_loop_frame (fun i => ldb * c + i)
                                   (fun i b => g i c (b (ldb * c + i)))).
          -- apply Hdone; [lia | exact Hii].
          -- intros x Hx Ex.
             pose proof (Hhi c). pose proof (Hlo c ltac:(lia)).
             pose proof (Hhi jj). pose proof (Hlo jj ltac:(lia)). nia.
      + intros jj ii Hjj Hii.
        rewrite (aset_loop_frame (fun i => ldb * c + i)
                                 (fun i b => g i c (b (ldb * c + i)))).
        * apply Hleft; [lia | exact Hii].
        * intros x Hx Ex.
          pose proof (Hhi c). pose proof (Hlo c ltac:(lia)). nia. }
  destruct Hall as [Hall _]. apply Hall; assumption.
Qed.

End Tradd.

(** ** The block loop of ztsmqr *)

Lemma zrange_map_shift {B : Type} (f : Z -> B) (k : nat) :
  forall lo : Z, map f (zrange k (lo + 1)) = map (fun j => f (j + 1)) (zrange k lo).
Proof.
  induction k as [|k IH]; intros lo; simpl; [reflexivity|].
  f_equal. apply IH.
Qed.

Lemma ztsmqr_loop_forward {St : Type} (ib k : Z) (body : Z -> St -> St) (c : nat) :
  forall (fuel : nat) (i : Z) (s : St),
    1 <= ib -> 0 <= i ->
    (c = 0%nat -> k <= i) ->
    (forall c', c = S c' -> i < k /\ i + Z.of_nat c' * ib < k
                            /\ k <= i + Z.of_nat c * ib) ->
    (c <= fuel)%nat -> (1 <= fuel)%nat ->
    ztsmqr_loop fuel i ib k body s
    = fold_left (fun s j => body j s) (map (fun j => i + j * ib) (zrange c 0)) s.
Proof.
  induction c as [|c IH]; intros fuel i s Hib Hi H0 HS Hfuel Hf1.
  - destruct fuel as [|fuel]; [lia|]. simpl.
    specialize (H0 eq_refl).
    replace (i <? k) with false by (symmetry; apply Z.ltb_ge; lia).
    rewrite andb_false_r. reflexivity.
  - destruct fuel as [|fuel]; [lia|].
    destruct (HS c eq_refl) as (Hik & Hlast & Hend).
    cbn [ztsmqr_loop].
    replace (i >? -1) with true by (symmetry; apply gtb_true; lia).
    replace (i <? k) with true by (symmetry; apply Z.ltb_lt; lia).
    cbn [andb zrange map fold_left].
    replace (i + 0 * ib) with i by ring.
    destruct c as [|c'].
    + cbn [zrange map fold_left].
      destruct fuel as [|fuel]; [reflexivity|].
      cbn [ztsmqr_loop].
      replace (i + ib <? k) with false by (symmetry; apply Z.ltb_ge; lia).
      rewrite andb_false_r. reflexivity.
    + rewrite (IH fuel (i + ib) (body i s)); try lia.
      f_equal. rewrite zrange_map_shift.
      apply zrange_map_ext. intros j _. ring.
Qed.

Lemma zrange_snoc (k : nat) :
  forall lo : Z, zrange (S k) lo = zrange k lo ++ [lo + Z.of_nat k].
Proof.
  induction k as [|k IH]; intros lo.
  - simpl. f_equal. lia.
  - change (zrange (S (S k)) lo) with (lo :: zrange (S k) (lo + 1)).
    rewrite IH. simpl. f_equal. f_equal. f_equal. lia.
Qed.

Lemma ztsmqr_loop_backward {St : Type} (ib k : Z) (body : Z -> St -> St) (c : nat) :
  forall (fuel : nat) (s : St),
    1 <= ib -> Z.of_nat c * ib < k ->
    (S c <= fuel)%nat ->
    ztsmqr_loop fuel (Z.of_nat c * ib) (- ib) k body s
    = fold_left (fun s j => body j s)
                (rev (map (fun j => j * ib) (zrange (S c) 0))) s.
Proof.
  induction c as [|c IH]; intros fuel s Hib Hk Hfuel.
  - destruct fuel as [|fuel]; [lia|]. cbn [ztsmqr_loop].
    replace (Z.of_nat 0 * ib) with 0 by lia.
    replace (0 >? -1) with true by reflexivity.
    replace (0 <? k) with true by (symmetry; apply Z.ltb_lt; lia).
    cbn [andb zrange map rev app fold_left].
    replace (0 * ib) with 0 by ring.
    destruct fuel as [|fuel]; [reflexivity|]. cbn [ztsmqr_loop].
    replace (0 + - ib >? -1) with false by (symmetry; apply gtb_false; lia).
    reflexivity.
  - destruct fuel as [|fuel]; [lia|]. cbn [ztsmqr_loop].
    replace (Z.of_nat (S c) * ib >? -1) with true by (symmetry; apply gtb_true; nia).
    replace (Z.of_nat (S c) * ib <? k) with true by (symmetry; apply Z.ltb_lt; lia).
    cbn [andb].
    replace (Z.of_nat (S c) * ib + - ib) with (Z.of_nat c * ib) by lia.
    rewrite IH by (try lia; nia).
    rewrite (zrange_snoc (S c)). rewrite map_app, rev_app_distr.
    cbn [map rev app fold_left].
    replace ((0 + Z.of_nat (S c)) * ib) with (Z.of_nat (S c) * ib) by lia.
    reflexivity.
Qed.

Lemma ztsmqr_blocks_count (k ib : Z) :
  1 <= ib -> 1 <= k ->
  let c := (k - 1) / ib in
  0 <= c /\ c * ib < k /\ k <= (c + 1) * ib /\ c + 1 <= k.
Proof.
  intros Hib Hk c. unfold c.
  pose proof (Z.div_pos (k - 1) ib ltac:(lia) ltac:(lia)).
  pose proof (Z.mul_div_le (k - 1) ib ltac:(lia)).
  pose proof (Z.mul_succ_div_gt (k - 1) ib ltac:(lia)).
  split; [lia|]. split; [lia|]. split; [lia|]. nia.
Qed.

Lemma ztsmqr_loop_blocks {St : Type} (k ib : Z) (body : Z -> St -> St) (s : St) :
  1 <= ib -> 1 <= k ->
  ztsmqr_loop (Z.to_nat k) 0 ib k body s
  = fold_left (fun s i => body i s) (ztsmqr_blocks k ib) s
  /\ ztsmqr_loop (Z.to_nat k) (Z.quot (k - 1) ib * ib) (- ib) k body s
     = fold_left (fun s i => body i s) (rev (ztsmqr_blocks k ib)) s.
Proof.
  intros Hib Hk. unfold ztsmqr_blocks.
  destruct (ztsmqr_blocks_count k ib Hib Hk) as (Hc0 & Hlo & Hhi & Hle).
  set (c := (k - 1) / ib) in *.
  split.
  - assert (HS : forall c', Z.to_nat (c + 1) = S c' ->
                  0 < k /\ 0 + Z.of_nat c' * ib < k
                  /\ k <= 0 + Z.of_nat (Z.to_nat (c + 1)) * ib).
    { intros c' Ec.
      assert (Z.of_nat c' = c) by lia.
      replace (Z.of_nat (Z.to_nat (c + 1))) with (c + 1) by lia. nia. }
    rewrite (ztsmqr_loop_forward ib k body (Z.to_nat (c + 1)) (Z.to_nat k) 0 s Hib
               ltac:(lia) ltac:(lia) HS ltac:(lia) ltac:(lia)).
    f_equal.
  - rewrite Z.quot_div_nonneg by lia. fold c.
    replace (Z.to_nat (c + 1)) with (S (Z.to_nat c)) by lia.
    rewrite <- (Z2Nat.id c Hc0) at 1.
    apply ztsmqr_loop_backward; [exact Hib | rewrite Z2Nat.id by exact Hc0; exact Hlo | lia].
Qed.

Lemma imax_ge (a b c : Z) : (c <? imax a b) = false -> a <= c /\ b <= c.
Proof.
  intros Hge. apply Z.ltb_ge in Hge. unfold imax in Hge.
  destruct (a >? b) eqn:E; rewrite ?Z.gtb_ltb, ?Z.ltb_lt, ?Z.ltb_ge in E; lia.
Qed.

Lemma ztsmqr_blocks_range (k ib i : Z) :
  1 <= ib -> 1 <= k -> In i (ztsmqr_blocks k ib) -> 0 <= i < k /\ i mod ib = 0.
Proof.
  intros Hib Hk Hin. unfold ztsmqr_blocks in Hin.
  destruct (ztsmqr_blocks_count k ib Hib Hk) as (Hc0 & Hlo & Hhi & Hle).
  set (c := (k - 1) / ib) in *.
  apply in_map_iff in Hin. destruct Hin as (j & <- & Hj).
  assert (Hr : forall (n : nat) lo x, In x (zrange n lo) -> lo <= x < lo + Z.of_nat n).
  { induction n as [|n IH]; intros lo x Hx; simpl in Hx; [contradiction|].
    destruct Hx as [<- | Hx]; [lia|]. apply IH in Hx. lia. }
  apply Hr in Hj. split; [nia|]. apply Z.mod_mul. lia.
Qed.

(** Walk a table of checks that found nothing illegal. *)
Ltac table_none H :=
  unfold first_illegal in H; cbn [find snd fst option_map] in H;
  repeat match type of H with
         | context [if ?c then _ else _] =>
             destruct c eqn:?; [discriminate H |]; cbn [find snd fst option_map] in H
         end.

Section ParfbFacts.

Context {HD : Headers} {SC : Scalars} {CB : @Cblas SC} {PM : @Pamm SC}.

Lemma zparfb_table (side trans direct storev m1 n1 m2 n2 k l : Z)
  (A1 : option array) (oA1 lda1 : Z) (A2 : option array) (lda2 : Z)
  (V : option array) (oV ldv : Z) (T : option array) (oT ldt : Z)
  (work : option array) (ldwork : Z) :
  let r := Parfb.coreblas_zparfb side trans direct storev m1 n1 m2 n2 k l
             A1 oA1 lda1 A2 lda2 V oV ldv T oT ldt work ldwork in
  match first_illegal (Parfb.zparfb_illegal side trans direct storev m1 n1 m2 n2 k l
                         A1 lda1 A2 lda2 V ldv T ldt work ldwork) with
  | Some i => rejected r /\ ret r = - i /\ out r = (A1, A2, work)
  | None =>
      if (m1 =? 0) || (n1 =? 0) || (m2 =? 0) || (n2 =? 0) || (k =? 0)
         || (direct =? CoreBlasForward)
      then ret r = CoreBlasSuccess /\ errors r = []
      else r = fail CoreBlasErrorNotSupported
                    "Backward / Left or Right not implemented" (A1, A2, work)
  end.
Proof.
  unfold Parfb.coreblas_zparfb, Parfb.zparfb_illegal. cbv zeta.
  unfold first_illegal; cbn [find snd fst option_map].
  repeat match goal with
         | |- context [if ?c then fail _ _ _ else _] =>
             destruct c eqn:?;
             [cbn [find snd fst option_map];
              solve [split; [discriminate | split; reflexivity]] |];
             cbn [find snd fst option_map]
         end.
  destruct ((m1 =? 0) || (n1 =? 0) || (m2 =? 0) || (n2 =? 0) || (k =? 0));
    [split; reflexivity|].
  cbn [orb].
  destruct (direct =? CoreBlasForward); [|reflexivity].
  destruct (side =? CoreBlasLeft).
  - repeat match goal with
           | |- context [let '(_, _) := ?x in _] => destruct x
           end.
    split; reflexivity.
  - repeat match goal with
           | |- context [let '(_, _) := ?x in _] => destruct x
           end.
    split; reflexivity.
Qed.

Lemma zparfb_blames (side trans direct storev m1 n1 m2 n2 k l : Z)
  (A1 : option array) (oA1 lda1 : Z) (A2 : option array) (lda2 : Z)
  (V : option array) (oV ldv : Z) (T : option array) (oT ldt : Z)
  (work : option array) (ldwork : Z) :
  let r := Parfb.coreblas_zparfb side trans direct storev m1 n1 m2 n2 k l
             A1 oA1 lda1 A2 lda2 V oV ldv T oT ldt work ldwork in
  first_illegal (Parfb.zparfb_illegal side trans direct storev m1 n1 m2 n2 k l
                   A1 lda1 A2 lda2 V ldv T ldt work ldwork) <> None ->
  blames_position Parfb.zparfb_params (A1, A2, work) r.
Proof.
  unfold Parfb.coreblas_zparfb, Parfb.zparfb_illegal. cbv zeta.
  unfold first_illegal; cbn [find snd fst option_map].
  repeat match goal with
         | |- context [if ?c then fail _ _ _ else _] =>
             destruct c eqn:?;
             [cbn [find snd fst option_map]; intros _; solve [blame] |];
             cbn [find snd fst option_map]
         end.
  intros Habs. exfalso. apply Habs. reflexivity.
Qed.

Lemma zparfb_accepts (side trans direct storev m1 n1 m2 n2 k l : Z)
  (A1 : array) (lda1 : Z) (A2 : array) (lda2 : Z)
  (V : array) (ldv : Z) (T : array) (ldt : Z) (work : array) (ldwork : Z) :
  side = CoreBlasLeft \/ side = CoreBlasRight ->
  trans = CoreBlasNoTrans \/ trans = CoreBlas_ConjTrans ->
  direct = CoreBlasForward \/ direct = CoreBlasBackward ->
  storev = CoreBlasColumnwise \/ storev = CoreBlasRowwise ->
  0 <= m1 -> 0 <= n1 -> 0 <= m2 -> 0 <= n2 ->
  (side = CoreBlasRight -> m1 = m2) -> (side = CoreBlasLeft -> n1 = n2) ->
  0 <= k -> 0 <= l -> 0 <= lda1 -> 0 <= lda2 -> 0 <= ldv -> 0 <= ldt -> 0 <= ldwork ->
  first_illegal (Parfb.zparfb_illegal side trans direct storev m1 n1 m2 n2 k l
                   (Some A1) lda1 (Some A2) lda2 (Some V) ldv (Some T) ldt
                   (Some work) ldwork) = None.
Proof.
  intros Hside Htrans Hdirect Hstorev Hm1 Hn1 Hm2 Hn2 HR HL Hk Hl H1 H2 H3 H4 H5.
  assert (two : forall x a b, x = a \/ x = b -> negb (x =? a) && negb (x =? b) = false).
  { intros x a b [-> | ->]; rewrite Z.eqb_refl; [reflexivity | apply andb_false_r]. }
  assert (neg : forall x, 0 <= x -> (x <? 0) = false) by (intros; apply Z.ltb_ge; lia).
  assert (imp : forall x a p q, (x = a -> p = q) -> (x =? a) && negb (p =? q) = false).
  { intros x a p q Hpq. destruct (x =? a) eqn:E; [|reflexivity].
    apply Z.eqb_eq in E. rewrite (Hpq E), Z.eqb_refl. reflexivity. }
  unfold Parfb.zparfb_illegal, first_illegal. cbn [is_null].
  rewrite !two, !neg, !imp by assumption.
  reflexivity.
Qed.

Lemma ztsmqr_block_accepted (side trans m1 n1 m2 n2 k ib : Z)
  (A1 : option array) (lda1 : Z) (A2 : option array) (lda2 : Z)
  (V : option array) (ldv : Z) (T : option array) (ldt : Z)
  (work : option array) (ldwork : Z) (i : Z) (s : array * array * array) :
  CoreBlasLeft <> CoreBlasRight ->
  first_illegal (ztsmqr_illegal side trans m1 n1 m2 n2 k ib A1 lda1 A2 lda2
                                V ldv T ldt work ldwork) = None ->
  0 <= i < k ->
  fst (@ztsmqr_block_call HD SC cblas_with_zparfb side trans m1 n1 m2 n2 k ib
         lda1 lda2 (deref V) ldv (deref T) ldt ldwork i s) = CoreBlasSuccess.
Proof.
  intros Hlr Hnone Hi. destruct s as [[a1 a2] w].
  unfold ztsmqr_illegal in Hnone. table_none Hnone. clear Hnone.
  repeat match goal with
         | Hc : _ || _ = false |- _ => apply orb_false_iff in Hc; destruct Hc
         | Hc : (_ <? imax _ _) = false |- _ => apply imax_ge in Hc; destruct Hc
         | Hc : (_ <? _) = false |- _ => apply Z.ltb_ge in Hc
         end.
  assert (Hside : side = CoreBlasLeft \/ side = CoreBlasRight).
  { destruct (Z.eq_dec side CoreBlasLeft) as [E|E]; [left; exact E|].
    destruct (Z.eq_dec side CoreBlasRight) as [E'|E']; [right; exact E'|].
    apply Z.eqb_neq in E, E'.
    match goal with
    | Hc : negb (side =? CoreBlasLeft) && _ = false |- _ => rewrite E, E' in Hc; discriminate Hc
    end. }
  assert (Htrans : trans = CoreBlasNoTrans \/ trans = CoreBlas_ConjTrans).
  { destruct (Z.eq_dec trans CoreBlasNoTrans) as [E|E]; [left; exact E|].
    destruct (Z.eq_dec trans CoreBlas_ConjTrans) as [E'|E']; [right; exact E'|].
    apply Z.eqb_neq in E, E'.
    match goal with
    | Hc : negb (trans =? CoreBlasNoTrans) && _ = false |- _ =>
        rewrite E, E' in Hc; discriminate Hc
    end. }
  assert (HR : side = CoreBlasRight -> m2 = m1 /\ k <= n1).
  { intros ->. rewrite Z.eqb_refl in *.
    repeat match goal with
           | Hc : _ && true = false |- _ => rewrite andb_true_r in Hc
           | Hc : true && _ = false |- _ => cbn [andb] in Hc
           | Hc : negb _ = false |- _ => apply negb_false_iff in Hc
           | Hc : (_ =? _) = true |- _ => apply Z.eqb_eq in Hc
           | Hc : (_ >? _) = false |- _ => rewrite Z.gtb_ltb in Hc; apply Z.ltb_ge in Hc
           end. split; assumption. }
  assert (HL : side = CoreBlasLeft -> n2 = n1 /\ k <= m1).
  { intros ->. rewrite Z.eqb_refl in *.
    repeat match goal with
           | Hc : _ && true = false |- _ => rewrite andb_true_r in Hc
           | Hc : true && _ = false |- _ => cbn [andb] in Hc
           | Hc : negb _ = false |- _ => apply negb_false_iff in Hc
           | Hc : (_ =? _) = true |- _ => apply Z.eqb_eq in Hc
           | Hc : (_ >? _) = false |- _ => rewrite Z.gtb_ltb in Hc; apply Z.ltb_ge in Hc
           end. split; assumption. }
  assert (Hkb : 0 <= imin ib (k - i)).
  { unfold imin. destruct (ib <? k - i); lia. }
  unfold ztsmqr_block_call. cbv zeta.
  set (kb := imin ib (k - i)) in *.
  assert (Hgen : forall mi ni o1,
            0 <= mi -> 0 <= ni ->
            (side = CoreBlasRight -> mi = m2) -> (side = CoreBlasLeft -> ni = n2) ->
            fst (@coreblas_zparfb SC cblas_with_zparfb side trans
                   CoreBlasForward CoreBlasColumnwise mi ni m2 n2 kb 0
                   a1 o1 lda1 a2 lda2 (deref V) (ldv * i) ldv (deref T) (ldt * i) ldt
                   w ldwork) = CoreBlasSuccess).
  { intros mi ni o1 Hmi Hni HmR HnL.
    cbn [coreblas_zparfb cblas_with_zparfb fst].
    pose proof (zparfb_table side trans CoreBlasForward CoreBlasColumnwise
                  mi ni m2 n2 kb 0
                  (Some a1) o1 lda1 (Some a2) lda2
                  (Some (deref V)) (ldv * i) ldv (Some (deref T)) (ldt * i) ldt
                  (Some w) ldwork) as Ht.
    cbv zeta in Ht.
    rewrite zparfb_accepts in Ht; try lia; try tauto.
    rewrite Z.eqb_refl, orb_true_r in Ht. exact (proj1 Ht). }
  destruct (side =? CoreBlasLeft) eqn:EL.
  - apply Z.eqb_eq in EL. destruct (HL EL) as [En Ek].
    apply Hgen; lia.
  - apply Z.eqb_neq in EL.
    destruct Hside as [E|ER]; [contradiction|]. destruct (HR ER) as [Em Ek].
    apply Hgen; lia.
Qed.

End ParfbFacts.

(** ** Loops that advance by a block size *)

Lemma step_loop_forward {St : Type} (guard : Z -> bool) (ib k : Z)
  (body : Z -> St -> St) (c : nat) :
  forall (fuel : nat) (i : Z) (s : St),
    (forall x, 0 <= x -> guard x = (x <? k)) ->
    1 <= ib -> 0 <= i ->
    i + Z.of_nat c * ib - ib < k <= i + Z.of_nat c * ib ->
    (c < fuel)%nat ->
    step_loop fuel guard i ib body s
    = Some (fold_left (fun s j => body j s) (map (fun j => i + j * ib) (zrange c 0)) s).
Proof.
  induction c as [|c IH]; intros fuel i s Hg Hib Hi Hc Hfuel.
  - destruct fuel as [|fuel]; [lia|]. cbn [step_loop].
    rewrite Hg by exact Hi.
    replace (i <? k) with false by (symmetry; apply Z.ltb_ge; lia).
    reflexivity.
  - destruct fuel as [|fuel]; [lia|]. cbn [step_loop].
    rewrite Hg by exact Hi.
    replace (i <? k) with true by (symmetry; apply Z.ltb_lt; lia).
    cbn [zrange map fold_left].
    replace (i + 0 * ib) with i by ring.
    rewrite (IH fuel (i + ib) (body i s)); try assumption; try lia.
    f_equal. f_equal. rewrite zrange_map_shift.
    apply zrange_map_ext. intros j _. ring.
Qed.

Lemma step_loop_backward {St : Type} (ib k : Z) (body : Z -> St -> St) (c : nat) :
  forall (fuel : nat) (s : St),
    1 <= ib -> Z.of_nat c * ib < k ->
    (S c < fuel)%nat ->
    step_loop fuel (fun i => (i >? -1) && (i <? k)) (Z.of_nat c * ib) (- ib) body s
    = Some (fold_left (fun s j => body j s)
                      (rev (map (fun j => j * ib) (zrange (S c) 0))) s).
Proof.
  induction c as [|c IH]; intros fuel s Hib Hk Hfuel.
  - destruct fuel as [|[|fuel]]; [lia | lia |]. cbn [step_loop].
    replace (Z.of_nat 0 * ib) with 0 by lia.
    replace (0 >? -1) with true by reflexivity.
    replace (0 <? k) with true by (symmetry; apply Z.ltb_lt; lia).
    cbn [andb zrange map rev app fold_left].
    replace (0 * ib) with 0 by ring.
    replace (0 + - ib >? -1) with false by (symmetry; apply gtb_false; lia).
    reflexivity.
  - destruct fuel as [|fuel]; [lia|]. cbn [step_loop].
    replace (Z.of_nat (S c) * ib >? -1) with true by (symmetry; apply gtb_true; nia).
    replace (Z.of_nat (S c) * ib <? k) with true by (symmetry; apply Z.ltb_lt; lia).
    cbn [andb].
    replace (Z.of_nat (S c) * ib + - ib) with (Z.of_nat c * ib) by lia.
    rewrite IH by (try lia; nia).
    rewrite (zrange_snoc (S c)). rewrite map_app, rev_app_distr.
    cbn [map rev app fold_left].
    replace ((0 + Z.of_nat (S c)) * ib) with (Z.of_nat (S c) * ib) by lia.
    reflexivity.
Qed.

(** A loop whose index does not move runs for as many rounds as it is
    given. *)
Lemma step_loop_stuck {St : Type} (guard : Z -> bool) (i : Z) (body : Z -> St -> St) :
  guard i = true ->
  forall (fuel : nat) (s : St), step_loop fuel guard i 0 body s = None.
Proof.
  intros Hg. induction fuel as [|fuel IH]; intros s; cbn [step_loop]; [reflexivity|].
  rewrite Hg. replace (i + 0) with i by ring. apply IH.
Qed.

Lemma step_loop_blocks {St : Type} (guard : Z -> bool) (k ib : Z)
  (body : Z -> St -> St) (s : St) (fuel : nat) :
  (forall x, 0 <= x -> guard x = (x <? k)) ->
  1 <= ib -> 1 <= k -> (Z.to_nat k < fuel)%nat ->
  step_loop fuel guard 0 ib body s
  = Some (fold_left (fun s i => body i s) (ztsmqr_blocks k ib) s).
Proof.
  intros Hg Hib Hk Hfuel. unfold ztsmqr_blocks.
  destruct (ztsmqr_blocks_count k ib Hib Hk) as (Hc0 & Hlo & Hhi & Hle).
  set (c := (k - 1) / ib) in *.
  rewrite (step_loop_forward guard ib k body (Z.to_nat (c + 1)) fuel 0 s Hg Hib);
    [reflexivity | lia | | lia].
  replace (Z.of_nat (Z.to_nat (c + 1))) with (c + 1) by lia. nia.
Qed.

Lemma step_loop_blocks_rev {St : Type} (k ib : Z)
  (body : Z -> St -> St) (s : St) (fuel : nat) :
  1 <= ib -> 1 <= k -> (Z.to_nat k + 1 < fuel)%nat ->
  step_loop fuel (fun i => (i >? -1) && (i <? k)) (Z.quot (k - 1) ib * ib) (- ib) body s
  = Some (fold_left (fun s i => body i s) (rev (ztsmqr_blocks k ib)) s).
Proof.
  intros Hib Hk Hfuel. unfold ztsmqr_blocks.
  destruct (ztsmqr_blocks_count k ib Hib Hk) as (Hc0 & Hlo & Hhi & Hle).
  rewrite Z.quot_div_nonneg by lia.
  set (c := (k - 1) / ib) in *.
  replace (Z.to_nat (c + 1)) with (S (Z.to_nat c)) by lia.
  rewrite <- (Z2Nat.id c Hc0) at 1.
  apply step_loop_backward; [exact Hib | rewrite Z2Nat.id by exact Hc0; exact Hlo | lia].
Qed.

(** ** [coreblas_zlaset] *)

Section Laset.

Context `{TL : TileLapack}.

Lemma array_memset0_at (A : array) (cnt x : Z) :
  array_memset0 A cnt x = if (0 <=? x) && (x <? cnt) then czero else A x.
Proof.
  unfold array_memset0.
  destruct ((0 <=? x) && (x <? cnt)) eqn:E.
  - apply andb_true_iff in E. destruct E as [E0 E1].
    apply Z.leb_le in E0. apply Z.ltb_lt in E1.
    assert (Hall : forall j, 0 <= j < cnt ->
              for_loop 0 cnt (fun k a => aset a k czero) A j = czero).
    { apply (for_loop_inv_idx
               (fun i (a : array) => forall j, 0 <= j < i -> a j = czero));
        [lia | intros j Hj; lia |].
      intros i a Hi Ha j Hj. destruct (Z.eq_dec j i) as [->|Hne].
      - apply aset_same.
      - rewrite aset_other by exact Hne. apply Ha. lia. }
    apply Hall. lia.
  - apply (aset_loop_frame (fun k => k) (fun _ _ => czero)).
    intros i Hi Ex. subst i.
    apply andb_false_iff in E. destruct E as [E | E].
    + apply Z.leb_gt in E. lia.
    + apply Z.ltb_ge in E. lia.
Qed.

End Laset.

(** ** What [coreblas_ztradd] computes *)



(** X7.  When the arguments pass the checks and the call is not the
    quick return, every entry of the trapezoid becomes
    [beta * B(i,j) + alpha * op(A)(i,j)], computed from the entry as it
    was passed ([A] and [B] being distinct arrays), and the call returns
    [CoreBlasSuccess]. *)
Theorem ztradd_entries `{SC : Scalars} `{HD : Headers}
  (uplo transa m n : Z) (alpha : scalar) (A : option array)
  (lda : Z) (beta : scalar) (B : option array) (ldb : Z) (i j : Z) :
  let r := coreblas_ztradd uplo transa m n alpha A lda beta B ldb in
  ~ rejected r ->
  ceqb alpha czero && ceqb beta cone = false ->
  0 <= j < n -> 0 <= i < m ->
  (if uplo =? CoreBlasLower then j <= i else i <= j) ->
  ret r = CoreBlasSuccess
  /\ deref (out r) (ldb * j + i)
     = cadd (cmul beta (deref B (ldb * j + i)))
            (cmul alpha
               (if transa =? CoreBlasConjTrans then conj (deref A (lda * i + j))
                else if transa =? CoreBlasTrans then deref A (lda * i + j)
                else deref A (lda * j + i))).
Proof.
  intros r Hok Hab Hj Hi Htri. unfold r, coreblas_ztradd in *. cbv zeta in *.
  repeat match type of Hok with
         | ~ rejected (if ?c then fail _ _ _ else _) =>
             destruct c eqn:?; [exfalso; apply Hok; discriminate |]
         end.
  replace (m =? 0) with false by (symmetry; apply Z.eqb_neq; lia).
  replace (n =? 0) with false by (symmetry; apply Z.eqb_neq; lia).
  rewrite Hab. cbn [orb]. split; [reflexivity|].
  cbn [out done deref].
  assert (Hldb : m <= ldb).
  { match goal with
    | H0 : (ldb <? imax 1 m) && (m >? 0) = false |- _ =>
        apply andb_false_iff in H0; destruct H0 as [H | H]
    end.
    - apply Z.ltb_ge in H. unfold imax in H.
      destruct (1 >? m) eqn:E; rewrite ?Z.gtb_ltb, ?Z.ltb_lt, ?Z.ltb_ge in E; lia.
    - rewrite Z.gtb_ltb in H. apply Z.ltb_ge in H. lia. }
  set (src := if transa =? CoreBlasConjTrans then _ else _).
  rewrite (ztradd_loops_at (uplo =? CoreBlasLower) m n ldb
             (fun i j v => cadd (cmul beta v) (cmul alpha (src i j))))
    by assumption.
  unfold src.
  destruct (transa =? CoreBlasConjTrans); [reflexivity|].
  destruct (transa =? CoreBlasTrans); reflexivity.
Qed.

Lemma ztradd_entries_witness :
  deref (out (@coreblas_ztradd Q_scalars sample_headers
                122 111 2 2 1%Q (Some sample_tile) 2 1%Q (Some sample_tile) 2)) 1
  = 2%Q.
Proof.
  exact (proj2 (@ztradd_entries Q_scalars sample_headers
                  122 111 2 2 1%Q (Some sample_tile) 2 1%Q (Some sample_tile) 2 1 0
                  ltac:(intros Hrej; apply Hrej; vm_compute; reflexivity)
                  ltac:(vm_compute; reflexivity)
                  ltac:(lia) ltac:(lia) ltac:(change (0 <= 1); lia))).
Defined.

(** ** Edge cases of [coreblas_zpemv] *)

(** X8.  A triangle of order one is no triangle: on a tile with at least
    one row and one column, [l = 1] gives the call with [l = 0]. *)
Theorem zpemv_unit_triangle `{HD : Headers} `{CB : Cblas}
  (trans storev m n : Z) (alpha : scalar) (A : array) (lda : Z)
  (X : array) (incx : Z) (beta : scalar) (Y : array) (incy : Z) (work : array) :
  1 <= m -> 1 <= n ->
  coreblas_zpemv trans storev m n 1 alpha A lda X incx beta Y incy work
  = coreblas_zpemv trans storev m n 0 alpha A lda X incx beta Y incy work.
Proof.
  intros Hm Hn. unfold coreblas_zpemv.
  assert (E1 : (1 >? imin m n) = false).
  { apply gtb_false. unfold imin.
    destruct (m <? n) eqn:E; rewrite ?Z.ltb_lt, ?Z.ltb_ge in E; lia. }
  assert (E0 : (0 >? imin m n) = false).
  { apply gtb_false. unfold imin.
    destruct (m <? n) eqn:E; rewrite ?Z.ltb_lt, ?Z.ltb_ge in E; lia. }
  rewrite E1, E0. reflexivity.
Qed.

Lemma zpemv_unit_triangle_witness :
  @coreblas_zpemv sample_headers Q_scalars sample_cblas
    113 401 2 2 1 1%Q sample_tile 2 sample_tile 1 1%Q sample_tile 1 sample_tile
  = @coreblas_zpemv sample_headers Q_scalars sample_cblas
      113 401 2 2 0 1%Q sample_tile 2 sample_tile 1 1%Q sample_tile 1 sample_tile.
Proof.
  exact (@zpemv_unit_triangle sample_headers Q_scalars sample_cblas
           113 401 2 2 1%Q sample_tile 2 sample_tile 1 1%Q sample_tile 1 sample_tile
           ltac:(lia) ltac:(lia)).
Defined.

(** X9.  When the arguments pass the checks and the tile is empty, or
    [alpha] and [beta] both compare equal to zero, [coreblas_zpemv]
    returns [CoreBlasSuccess] with [Y] and the workspace as they were
    passed: [Y] is not set to zero. *)
Theorem zpemv_nothing_to_do `{HD : Headers} `{CB : Cblas}
  (trans storev m n l : Z) (alpha : scalar) (A : array) (lda : Z)
  (X : array) (incx : Z) (beta : scalar) (Y : array) (incy : Z) (work : array) :
  let r := coreblas_zpemv trans storev m n l alpha A lda X incx beta Y incy work in
  ~ rejected r ->
  m = 0 \/ n = 0 \/ (ceqb alpha czero = true /\ ceqb beta czero = true) ->
  r = done CoreBlasSuccess (Y, work).
Proof.
  intros r Hok Hcase. unfold r, coreblas_zpemv in *. cbv zeta in *.
  repeat match type of Hok with
         | ~ rejected (if ?c then fail _ _ _ else _) =>
             destruct c eqn:?; [exfalso; apply Hok; discriminate |]
         end.
  destruct ((m =? 0) || (n =? 0)) eqn:Emn; [reflexivity|].
  apply orb_false_iff in Emn. destruct Emn as [Em En].
  apply Z.eqb_neq in Em. apply Z.eqb_neq in En.
  destruct Hcase as [Hm | [Hn | [Ha Hb]]]; [contradiction | contradiction |].
  rewrite Ha, Hb. reflexivity.
Qed.

Lemma zpemv_nothing_to_do_witness :
  fst (out (@coreblas_zpemv sample_headers Q_scalars sample_cblas
              113 401 2 2 0 0%Q sample_tile 2 sample_tile 1 0%Q sample_tile 1
              sample_tile)) 0 = 1%Q.
Proof.
  exact (f_equal (fun r => fst (out r) 0)
           (@zpemv_nothing_to_do sample_headers Q_scalars sample_cblas
              113 401 2 2 0 0%Q sample_tile 2 sample_tile 1 0%Q sample_tile 1
              sample_tile
              ltac:(intros Hrej; apply Hrej; vm_compute; reflexivity)
              ltac:(right; right; split; vm_compute; reflexivity))).
Defined.

(** ** The blocks of [coreblas_ztsmqr] and its callee *)

(** X10.  Past its checks and its quick return, [coreblas_ztsmqr] is the
    sequence of its [coreblas_zparfb] calls, one for each block of [ib]
    reflectors: the blocks [0, ib, 2*ib, ...] in this order for [Q^H] from
    the left and [Q] from the right, in the reverse order otherwise, each
    call receiving the tiles and the workspace that the call before left;
    the loop ends. *)
Theorem ztsmqr_block_order `{HD : Headers} `{CB : Cblas}
  (side trans m1 n1 m2 n2 k ib : Z)
  (A1 : option array) (lda1 : Z) (A2 : option array) (lda2 : Z)
  (V : option array) (ldv : Z) (T : option array) (ldt : Z)
  (work : option array) (ldwork : Z) :
  let r := coreblas_ztsmqr side trans m1 n1 m2 n2 k ib A1 lda1 A2 lda2
                           V ldv T ldt work ldwork in
  ~ rejected r ->
  m1 <> 0 -> n1 <> 0 -> m2 <> 0 -> n2 <> 0 -> k <> 0 -> ib <> 0 ->
  let forward := ((side =? CoreBlasLeft) && negb (trans =? CoreBlasNoTrans))
                 || ((side =? CoreBlasRight) && (trans =? CoreBlasNoTrans)) in
  let blocks := if forward then ztsmqr_blocks k ib else rev (ztsmqr_blocks k ib) in
  let s := fold_left
             (fun s i => snd (ztsmqr_block_call side trans m1 n1 m2 n2 k ib lda1 lda2
                                                (deref V) ldv (deref T) ldt ldwork i s))
             blocks (deref A1, deref A2, deref work) in
  r = done CoreBlasSuccess (Some (fst (fst s)), Some (snd (fst s)), Some (snd s)).
Proof.
  intros r Hok Hm1 Hn1 Hm2 Hn2 Hk Hib forward blocks s.
  unfold r, coreblas_ztsmqr in *. cbv zeta in *.
  repeat match type of Hok with
         | ~ rejected (if ?c then fail _ _ _ else _) =>
             destruct c eqn:?; [exfalso; apply Hok; discriminate |]
         end.
  clear Hok.
  replace (m1 =? 0) with false by (symmetry; apply Z.eqb_neq; exact Hm1).
  replace (n1 =? 0) with false by (symmetry; apply Z.eqb_neq; exact Hn1).
  replace (m2 =? 0) with false by (symmetry; apply Z.eqb_neq; exact Hm2).
  replace (n2 =? 0) with false by (symmetry; apply Z.eqb_neq; exact Hn2).
  replace (k =? 0) with false by (symmetry; apply Z.eqb_neq; exact Hk).
  replace (ib =? 0) with false by (symmetry; apply Z.eqb_neq; exact Hib).
  cbn [orb].
  assert (Hk1 : 1 <= k).
  { match goal with
    | Hc : (k <? 0) || _ || _ = false |- _ =>
        apply orb_false_iff in Hc; destruct Hc as [Hc _];
        apply orb_false_iff in Hc; destruct Hc as [Hc _]; apply Z.ltb_ge in Hc
    end. lia. }
  assert (Hib1 : 1 <= ib).
  { match goal with
    | Hc : (ib <? 0) = false |- _ => apply Z.ltb_ge in Hc
    end. lia. }
  set (body := fun (i : Z) (s : array * array * array) => let '(a1, a2, w) := s in _).
  assert (Hbody : forall i s0,
            body i s0 = snd (ztsmqr_block_call side trans m1 n1 m2 n2 k ib lda1 lda2
                                               (deref V) ldv (deref T) ldt ldwork i s0)).
  { intros i [[a1 a2] w]. unfold body, ztsmqr_block_call.
    destruct (side =? CoreBlasLeft); reflexivity. }
  destruct (ztsmqr_loop_blocks k ib body (deref A1, deref A2, deref work) Hib1 Hk1)
    as [Hfw Hbw].
  assert (Hfold : forall l s0,
            fold_left (fun s i => body i s) l s0
            = fold_left
                (fun s i => snd (ztsmqr_block_call side trans m1 n1 m2 n2 k ib lda1 lda2
                                   (deref V) ldv (deref T) ldt ldwork i s)) l s0).
  { induction l as [|x l IHl]; intros s0; simpl; [reflexivity|].
    rewrite Hbody. apply IHl. }
  unfold s, blocks, forward.
  destruct ((side =? CoreBlasLeft) && negb (trans =? CoreBlasNoTrans)
            || (side =? CoreBlasRight) && (trans =? CoreBlasNoTrans)).
  - rewrite Hfw, Hfold.
    destruct (fold_left _ _ _) as [[a1 a2] w]. reflexivity.
  - rewrite Hbw, Hfold.
    destruct (fold_left _ _ _) as [[a1 a2] w]. reflexivity.
Qed.

Lemma ztsmqr_block_order_witness :
  ret (@coreblas_ztsmqr sample_headers Q_scalars sample_cblas
         141 111 3 2 2 2 3 2 (Some sample_tile) 3 (Some sample_tile) 2
         (Some sample_tile) 2 (Some sample_tile) 2 (Some sample_tile) 2) = 0.
Proof.
  exact (f_equal ret
           (@ztsmqr_block_order sample_headers Q_scalars sample_cblas
              141 111 3 2 2 2 3 2 (Some sample_tile) 3 (Some sample_tile) 2
              (Some sample_tile) 2 (Some sample_tile) 2 (Some sample_tile) 2
              ltac:(intros Hrej; apply Hrej; vm_compute; reflexivity)
              ltac:(lia) ltac:(lia) ltac:(lia) ltac:(lia) ltac:(lia) ltac:(lia))).
Defined.

(** X11.  [coreblas_zparfb] charges the first illegal argument of its
    twenty checks: it returns minus its position, with a message that
    names the parameter and the tiles as they were passed.  When nothing
    is illegal it returns [CoreBlasSuccess] silently if a dimension is
    zero or [direct] is [CoreBlasForward]; otherwise it reports
    [Backward / Left or Right not implemented], returns
    [CoreBlasErrorNotSupported] and leaves the tiles as they were. *)
Theorem zparfb_checks {HD : Headers} {SC : Scalars} {CB : @Cblas SC} {PM : @Pamm SC}
  (side trans direct storev m1 n1 m2 n2 k l : Z)
  (A1 : option array) (oA1 lda1 : Z) (A2 : option array) (lda2 : Z)
  (V : option array) (oV ldv : Z) (T : option array) (oT ldt : Z)
  (work : option array) (ldwork : Z) :
  let r := Parfb.coreblas_zparfb side trans direct storev m1 n1 m2 n2 k l
             A1 oA1 lda1 A2 lda2 V oV ldv T oT ldt work ldwork in
  let illegal := first_illegal
                   (Parfb.zparfb_illegal side trans direct storev m1 n1 m2 n2 k l
                      A1 lda1 A2 lda2 V ldv T ldt work ldwork) in
  match illegal with
  | Some i => rejected r /\ ret r = - i /\ out r = (A1, A2, work)
              /\ blames_position Parfb.zparfb_params (A1, A2, work) r
  | None =>
      if (m1 =? 0) || (n1 =? 0) || (m2 =? 0) || (n2 =? 0) || (k =? 0)
         || (direct =? CoreBlasForward)
      then ret r = CoreBlasSuccess /\ errors r = []
      else r = fail CoreBlasErrorNotSupported
                    "Backward / Left or Right not implemented" (A1, A2, work)
  end.
Proof.
  intros r illegal.
  pose proof (zparfb_table side trans direct storev m1 n1 m2 n2 k l
                A1 oA1 lda1 A2 lda2 V oV ldv T oT ldt work ldwork) as Ht.
  pose proof (zparfb_blames side trans direct storev m1 n1 m2 n2 k l
                A1 oA1 lda1 A2 lda2 V oV ldv T oT ldt work ldwork) as Hb.
  cbv zeta in Ht, Hb. fold r in Ht, Hb. fold illegal in Ht, Hb.
  destruct illegal as [i|]; [|exact Ht].
  destruct Ht as (H1 & H2 & H3).
  split; [exact H1|]. split; [exact H2|]. split; [exact H3|].
  apply Hb. discriminate.
Qed.

(** X12.  Every [coreblas_zparfb] call that [coreblas_ztsmqr] makes,
    with [coreblas_zparfb] as the source defines it, returns
    [CoreBlasSuccess]: the arguments that passed the checks of
    [coreblas_ztsmqr] pass those of [coreblas_zparfb] for every block, so
    the result code that the loop drops is never an error. *)
Theorem ztsmqr_zparfb_calls_succeed
  {HD : Headers} {SC : Scalars} {CB : @Cblas SC} {PM : @Pamm SC}
  (side trans m1 n1 m2 n2 k ib : Z)
  (A1 : option array) (lda1 : Z) (A2 : option array) (lda2 : Z)
  (V : option array) (ldv : Z) (T : option array) (ldt : Z)
  (work : option array) (ldwork : Z) (i : Z) (s : array * array * array) :
  CoreBlasLeft <> CoreBlasRight ->
  first_illegal (ztsmqr_illegal side trans m1 n1 m2 n2 k ib A1 lda1 A2 lda2
                                V ldv T ldt work ldwork) = None ->
  k <> 0 -> ib <> 0 ->
  In i (ztsmqr_blocks k ib) ->
  fst (@ztsmqr_block_call HD SC cblas_with_zparfb side trans m1 n1 m2 n2 k ib
         lda1 lda2 (deref V) ldv (deref T) ldt ldwork i s) = CoreBlasSuccess.
Proof.
  intros Hlr Hnone Hk Hib Hin.
  apply (ztsmqr_block_accepted side trans m1 n1 m2 n2 k ib A1 lda1 A2 lda2
           V ldv T ldt work ldwork i s Hlr Hnone).
  assert (Hpos : 1 <= k /\ 1 <= ib).
  { unfold ztsmqr_illegal in Hnone. table_none Hnone.
    repeat match goal with
           | Hc : _ || _ = false |- _ => apply orb_false_iff in Hc; destruct Hc
           | Hc : (_ <? 0) = false |- _ => apply Z.ltb_ge in Hc
           end. lia. }
  destruct Hpos as [Hk1 Hib1].
  apply (ztsmqr_blocks_range k ib i Hib1 Hk1 Hin).
Qed.

Lemma ztsmqr_zparfb_calls_succeed_witness :
  fst (@ztsmqr_block_call sample_headers Q_scalars
         (@cblas_with_zparfb sample_headers Q_scalars sample_cblas sample_pamm)
         141 111 3 2 2 2 3 2 3 2 sample_tile 2 sample_tile 2 2 2
         (sample_tile, sample_tile, sample_tile)) = 0.
Proof.
  exact (@ztsmqr_zparfb_calls_succeed sample_headers Q_scalars sample_cblas sample_pamm
           141 111 3 2 2 2 3 2 (Some sample_tile) 3 (Some sample_tile) 2
           (Some sample_tile) 2 (Some sample_tile) 2 (Some sample_tile) 2
           2 (sample_tile, sample_tile, sample_tile)
           ltac:(vm_compute; discriminate) ltac:(vm_compute; reflexivity)
           ltac:(lia) ltac:(lia) ltac:(vm_compute; right; left; reflexivity)).
Defined.

(** ** [coreblas_zlaset] *)

(** X13.  The [memset] shortcut of [coreblas_zlaset]: when [alpha] and
    [beta] compare equal to zero, [uplo] is [CoreBlasGeneral] and
    [m = lda], every entry [(i, j)] of the [m]-by-[n] tile becomes the
    zero of the scalar type, and no cell outside the [lda * n] cells of
    the tile changes. *)
Theorem zlaset_fast_path `{TL : TileLapack}
  (uplo m n : Z) (alpha beta : scalar) (A : array) (lda : Z) :
  0 <= m -> 0 <= n ->
  ceqb alpha czero = true -> ceqb beta czero = true ->
  uplo = CoreBlasGeneral -> m = lda ->
  (forall i j, 0 <= i < m -> 0 <= j < n ->
     coreblas_zlaset uplo m n alpha beta A lda (i + j * lda) = czero)
  /\ (forall x, ~ (0 <= x < lda * n) ->
        coreblas_zlaset uplo m n alpha beta A lda x = A x).
Proof.
  intros Hm Hn Ha Hb -> <-. unfold coreblas_zlaset.
  rewrite Ha, Hb, !Z.eqb_refl. cbn [andb].
  split.
  - intros i j Hi Hj. rewrite array_memset0_at.
    replace ((0 <=? i + j * m) && (i + j * m <? m * n)) with true; [reflexivity|].
    symmetry. apply andb_true_iff. split; [apply Z.leb_le | apply Z.ltb_lt]; nia.
  - intros x Hx. rewrite array_memset0_at.
    replace ((0 <=? x) && (x <? m * n)) with false; [reflexivity|].
    symmetry. apply andb_false_iff.
    destruct (Z_le_dec 0 x); [right; apply Z.ltb_ge; lia | left; apply Z.leb_gt; lia].
Qed.

Lemma zlaset_fast_path_witness :
  @coreblas_zlaset Q_scalars sample_tile_lapack 123 2 2 0%Q 0%Q sample_tile 2 3 = 0%Q.
Proof.
  exact (proj1 (@zlaset_fast_path Q_scalars sample_tile_lapack
                  123 2 2 0%Q 0%Q sample_tile 2
                  ltac:(lia) ltac:(lia) ltac:(reflexivity) ltac:(reflexivity)
                  ltac:(reflexivity) ltac:(reflexivity))
               1 1 ltac:(lia) ltac:(lia)).
Defined.


Section Unmqr.

Context `{HD : Headers} `{TL : TileLapack}.


End Unmqr.

Section Gelqt.

Context `{HD : Headers} `{TL : TileLapack}.


Lemma imin_pos (a b : Z) : 1 <= a -> 1 <= b -> 1 <= imin a b.
Proof. intros Ha Hb. unfold imin. destruct (a <? b); lia. Qed.

End Gelqt.

Section Tsqrt.

Context {HD : Headers} {SC : Scalars} {CB : @Cblas SC}
        {LP : @Lapacke SC} {TL : @TileLapack SC} {NG : @Negation SC}.


Lemma ztsmqr_accepted_success (side trans m1 n1 m2 n2 k ib : Z)
  (A1 : option array) (lda1 : Z) (A2 : option array) (lda2 : Z)
  (V : option array) (ldv : Z) (T : option array) (ldt : Z)
  (work : option array) (ldwork : Z) :
  let r := coreblas_ztsmqr side trans m1 n1 m2 n2 k ib A1 lda1 A2 lda2
                           V ldv T ldt work ldwork in
  ~ rejected r -> ret r = CoreBlasSuccess.
Proof.
  intros r Hok. unfold r, coreblas_ztsmqr in *. cbv zeta in *.
  repeat match type of Hok with
         | ~ rejected (if ?c then fail _ _ _ else _) =>
             destruct c eqn:?; [exfalso; apply Hok; discriminate |]
         end.
  destruct ((m1 =? 0) || (n1 =? 0) || (m2 =? 0) || (n2 =? 0) || (k =? 0) || (ib =? 0));
    [reflexivity|].
  repeat match goal with
         | |- context [let '(_, _) := ?x in _] => destruct x
         end.
  reflexivity.
Qed.

Context {TM : @Tsmlq SC}.


End Tsqrt.

(** ** Loops on two states *)

Lemma iter_from_rel {St : Type} (R : St -> St -> Prop) (f : Z -> St -> St) (k : nat) :
  forall (lo : Z) (s s' : St),
    R s s' ->
    (forall i t t', R t t' -> R (f i t) (f i t')) ->
    R (iter_from k lo f s) (iter_from k lo f s').
Proof.
  induction k as [|k IH]; intros lo s s' Hs Hstep; simpl.
  - exact Hs.
  - apply IH; [apply Hstep; exact Hs | exact Hstep].
Qed.

Section Swap.

Context `{SC : Scalars}.

Lemma zswap_ext (n x incx y incy : Z) (a a' : array) :
  (forall z, a z = a' z) ->
  forall z, cblas_zswap n x incx y incy a z = cblas_zswap n x incx y incy a' z.
Proof.
  intros Haa. unfold cblas_zswap. cbv zeta. unfold for_loop.
  apply (iter_from_rel (fun b b' : array => forall z, b z = b' z)); [exact Haa|].
  intros i t t' Htt z. unfold aset.
  rewrite !Htt. reflexivity.
Qed.

(** Whether a cell is one of the first [n] of a vector. *)
Lemma cell_search (X : Z -> Z) (n : nat) (z : Z) :
  (exists k, 0 <= k < Z.of_nat n /\ z = X k)
  \/ (forall k, 0 <= k < Z.of_nat n -> z <> X k).
Proof.
  induction n as [|n IH].
  - right. intros k Hk. lia.
  - destruct IH as [(k & Hk & E) | IH].
    + left. exists k. split; [lia | exact E].
    + destruct (Z.eq_dec z (X (Z.of_nat n))) as [E | E].
      * left. exists (Z.of_nat n). split; [lia | exact E].
      * right. intros k Hk. destruct (Z.eq_dec k (Z.of_nat n)) as [-> | Hne].
        -- exact E.
        -- apply IH. lia.
Qed.

(** What an exchange of two vectors with distinct cells leaves. *)
Lemma zswap_cells (n x incx y incy : Z) (a : array) :
  0 <= incx -> 0 <= incy ->
  (forall k k', 0 <= k < n -> 0 <= k' < n ->
     (x + k * incx = x + k' * incx -> k = k')
     /\ (y + k * incy = y + k' * incy -> k = k')
     /\ x + k * incx <> y + k' * incy) ->
  (forall k, 0 <= k < n ->
     cblas_zswap n x incx y incy a (x + k * incx) = a (y + k * incy)
     /\ cblas_zswap n x incx y incy a (y + k * incy) = a (x + k * incx))
  /\ (forall z, (forall k, 0 <= k < n -> z <> x + k * incx /\ z <> y + k * incy) ->
        cblas_zswap n x incx y incy a z = a z).
Proof.
  intros Hix Hiy Hapart. unfold cblas_zswap.
  replace (incx <? 0) with false by (symmetry; apply Z.ltb_ge; exact Hix).
  replace (incy <? 0) with false by (symmetry; apply Z.ltb_ge; exact Hiy).
  cbv zeta.
  set (body := fun (k : Z) (a : array) =>
                 aset (aset a (x + k * incx) (a (y + k * incy)))
                      (y + k * incy) (a (x + k * incx))).
  destruct (Z_le_dec 0 n) as [Hn | Hn].
  2:{ unfold for_loop. replace (Z.to_nat (n - 0)) with 0%nat by lia. simpl.
      split; [intros k Hk; lia | intros z _; reflexivity]. }
  assert (Hinv :
    (forall k, 0 <= k < n ->
       for_loop 0 n body a (x + k * incx) = a (y + k * incy)
       /\ for_loop 0 n body a (y + k * incy) = a (x + k * incx))
    /\ (forall k, n <= k < n ->
          for_loop 0 n body a (x + k * incx) = a (x + k * incx)
          /\ for_loop 0 n body a (y + k * incy) = a (y + k * incy))
    /\ (forall z, (forall k, 0 <= k < n -> z <> x + k * incx /\ z <> y + k * incy) ->
          for_loop 0 n body a z = a z)).
  { apply (for_loop_inv_idx
             (fun i (b : array) =>
                (forall k, 0 <= k < i ->
                   b (x + k * incx) = a (y + k * incy)
                   /\ b (y + k * incy) = a (x + k * incx))
                /\ (forall k, i <= k < n ->
                      b (x + k * incx) = a (x + k * incx)
                      /\ b (y + k * incy) = a (y + k * incy))
                /\ (forall z, (forall k, 0 <= k < n ->
                                 z <> x + k * incx /\ z <> y + k * incy) ->
                      b z = a z))).
    - exact Hn.
    - split; [intros k Hk; lia|]. split; intros; split; reflexivity || reflexivity.
    - intros i b Hi (Hdone & Hleft & Hout). unfold body.
      destruct (Hleft i ltac:(lia)) as [Hxi Hyi].
      split; [|split].
      + intros k Hk. destruct (Z.eq_dec k i) as [-> | Hne].
        * split.
          -- rewrite aset_other by (apply (Hapart i i); lia).
             rewrite aset_same. exact Hyi.
          -- rewrite aset_same. exact Hxi.
        * destruct (Hdone k ltac:(lia)) as [Hxk Hyk].
          destruct (Hapart k i ltac:(lia) ltac:(lia)) as (Hx & Hy & Hxy).
          destruct (Hapart i k ltac:(lia) ltac:(lia)) as (_ & _ & Hyx).
          split.
          -- rewrite aset_other by exact Hxy.
             rewrite aset_other by (intros E; apply Hne; apply Hx; exact E).
             exact Hxk.
          -- rewrite aset_other by (intros E; apply Hne; apply Hy; exact E).
             rewrite aset_other by (intros E; apply Hyx; symmetry; exact E).
             exact Hyk.
      + intros k Hk.
        destruct (Hleft k ltac:(lia)) as [Hxk Hyk].
        destruct (Hapart k i ltac:(lia) ltac:(lia)) as (Hx & Hy & Hxy).
        destruct (Hapart i k ltac:(lia) ltac:(lia)) as (_ & _ & Hyx).
        split.
        * rewrite aset_other by exact Hxy.
          rewrite aset_other by (intros E; apply Hx in E; lia).
          exact Hxk.
        * rewrite aset_other by (intros E; apply Hy in E; lia).
          rewrite aset_other by (intros E; apply Hyx; symmetry; exact E).
          exact Hyk.
      + intros z Hz. destruct (Hz i ltac:(lia)) as [Hzx Hzy].
        rewrite aset_other by exact Hzy.
        rewrite aset_other by exact Hzx.
        apply Hout. exact Hz. }
  destruct Hinv as (Hdone & _ & Hout). split; assumption.
Qed.

(** Exchanging twice restores every cell. *)
Lemma zswap_twice (n x incx y incy : Z) (a : array) :
  0 <= incx -> 0 <= incy ->
  (forall k k', 0 <= k < n -> 0 <= k' < n ->
     (x + k * incx = x + k' * incx -> k = k')
     /\ (y + k * incy = y + k' * incy -> k = k')
     /\ x + k * incx <> y + k' * incy) ->
  forall z, cblas_zswap n x incx y incy (cblas_zswap n x incx y incy a) z = a z.
Proof.
  intros Hix Hiy Hapart z.
  destruct (zswap_cells n x incx y incy a Hix Hiy Hapart) as [Hin Hout].
  destruct (zswap_cells n x incx y incy (cblas_zswap n x incx y incy a) Hix Hiy Hapart)
    as [Hin' Hout'].
  destruct (Z_le_dec 0 n) as [Hn | Hn].
  2:{ rewrite Hout' by (intros k Hk; lia). apply Hout. intros k Hk. lia. }
  destruct (cell_search (fun k => x + k * incx) (Z.to_nat n) z) as [(k & Hk & ->) | Hx].
  - rewrite Z2Nat.id in Hk by exact Hn.
    rewrite (proj1 (Hin' k Hk)). apply (proj2 (Hin k Hk)).
  - destruct (cell_search (fun k => y + k * incy) (Z.to_nat n) z) as [(k & Hk & ->) | Hy].
    + rewrite Z2Nat.id in Hk by exact Hn.
      rewrite (proj2 (Hin' k Hk)). apply (proj1 (Hin k Hk)).
    + rewrite Z2Nat.id in Hx, Hy by exact Hn.
      rewrite Hout' by (intros k Hk; split; [apply Hx | apply Hy]; exact Hk).
      apply Hout. intros k Hk. split; [apply Hx | apply Hy]; exact Hk.
Qed.

(** Loops with unit steps whose rounds are all defined. *)
Lemma swap_loop_up (hi : Z) (body : Z -> array -> option array)
  (f : Z -> array -> array) (c : nat) :
  forall (fuel : nat) (lo : Z) (a : array),
    lo + Z.of_nat c = hi + 1 ->
    (forall i b, lo <= i <= hi -> body i b = Some (f i b)) ->
    (c < fuel)%nat ->
    swap_loop fuel (fun m => m <=? hi) lo 1 body a
    = Returns (fold_left (fun b i => f i b) (zrange c lo) a).
Proof.
  induction c as [|c IH]; intros fuel lo a Hc Hbody Hfuel.
  - destruct fuel as [|fuel]; [lia|]. cbn [swap_loop zrange fold_left].
    replace (lo <=? hi) with false by (symmetry; apply Z.leb_gt; lia). reflexivity.
  - destruct fuel as [|fuel]; [lia|]. cbn [swap_loop zrange fold_left].
    replace (lo <=? hi) with true by (symmetry; apply Z.leb_le; lia).
    rewrite Hbody by lia.
    apply IH; [lia | intros i b Hi; apply Hbody; lia | lia].
Qed.

Lemma swap_loop_down (lo : Z) (body : Z -> array -> option array)
  (f : Z -> array -> array) (c : nat) :
  forall (fuel : nat) (a : array),
    (forall i b, lo <= i < lo + Z.of_nat c -> body i b = Some (f i b)) ->
    (c < fuel)%nat ->
    swap_loop fuel (fun m => m >=? lo) (lo + Z.of_nat c - 1) (-1) body a
    = Returns (fold_left (fun b i => f i b) (rev (zrange c lo)) a).
Proof.
  induction c as [|c IH]; intros fuel a Hbody Hfuel.
  - destruct fuel as [|fuel]; [lia|]. cbn [swap_loop zrange rev fold_left].
    replace (lo + Z.of_nat 0 - 1 >=? lo) with false
      by (symmetry; rewrite Z.geb_leb; apply Z.leb_gt; lia).
    reflexivity.
  - destruct fuel as [|fuel]; [lia|]. cbn [swap_loop].
    replace (lo + Z.of_nat (S c) - 1 >=? lo) with true
      by (symmetry; rewrite Z.geb_leb; apply Z.leb_le; lia).
    rewrite Hbody by lia.
    rewrite zrange_snoc, rev_app_distr. cbn [rev app fold_left].
    replace (lo + Z.of_nat (S c) - 1) with (lo + Z.of_nat c) by lia.
    replace (lo + Z.of_nat c + -1) with (lo + Z.of_nat c - 1) by lia.
    apply IH; [intros i b Hi; apply Hbody; lia | lia].
Qed.

(** A loop whose index does not move and whose rounds are defined never
    returns. *)
Lemma swap_loop_stuck (guard : Z -> bool) (i : Z) (body : Z -> array -> option array) :
  guard i = true ->
  (forall b, body i b <> None) ->
  forall (fuel : nat) (a : array), swap_loop fuel guard i 0 body a = Running.
Proof.
  intros Hg Hbody. induction fuel as [|fuel IH]; intros a; cbn [swap_loop]; [reflexivity|].
  rewrite Hg. destruct (body i a) as [a'|] eqn:E.
  - replace (i + 0) with i by ring. apply IH.
  - exfalso. apply (Hbody a). exact E.
Qed.

(** Undoing a list of exchanges in reverse order restores every cell. *)
Lemma fold_involutions (f : Z -> array -> array) (l : list Z) :
  (forall i, In i l -> forall a a', (forall z, a z = a' z) -> forall z, f i a z = f i a' z) ->
  (forall i, In i l -> forall a z, f i (f i a) z = a z) ->
  forall a z, fold_left (fun b i => f i b) (rev l) (fold_left (fun b i => f i b) l a) z
              = a z.
Proof.
  induction l as [|i l IH]; intros Hext Hinv a z.
  - reflexivity.
  - cbn [fold_left rev]. rewrite fold_left_app. cbn [fold_left].
    transitivity (f i (f i a) z).
    + apply Hext; [left; reflexivity|].
      intros z'. apply IH.
      * intros j Hj. apply Hext. right. exact Hj.
      * intros j Hj. apply Hinv. right. exact Hj.
    + apply Hinv. left. reflexivity.
Qed.

End Swap.

Section Geswp.

Context `{HD : Headers} `{DS : Descriptors} `{SC : Scalars}.

Lemma zrange_in (k : nat) : forall lo x, In x (zrange k lo) -> lo <= x < lo + Z.of_nat k.
Proof.
  induction k as [|k IH]; intros lo x Hx; simpl in Hx; [contradiction|].
  destruct Hx as [<- | Hx]; [lia|]. apply IH in Hx. lia.
Qed.

Lemma zgeswp_rows_defined (A : coreblas_desc_t) (ipiv : Z -> Z) (m : Z) (a : array) :
  desc_mb A <> 0 ->
  zgeswp_rows A ipiv m a
  = Some (match zgeswp_rows A ipiv m a with Some b => b | None => a end).
Proof.
  intros Hmb. unfold zgeswp_rows. cbv zeta.
  apply Z.eqb_neq in Hmb. rewrite Hmb.
  destruct (negb (ipiv m - 1 =? m)); reflexivity.
Qed.

Lemma zgeswp_rows_ext (A : coreblas_desc_t) (ipiv : Z -> Z) (m : Z) (a a' : array) :
  (forall z, a z = a' z) ->
  forall z, match zgeswp_rows A ipiv m a with Some b => b | None => a end z
            = match zgeswp_rows A ipiv m a' with Some b => b | None => a' end z.
Proof.
  intros Haa z. unfold zgeswp_rows. cbv zeta.
  destruct (negb (ipiv m - 1 =? m)); [|apply Haa].
  destruct (desc_mb A =? 0); [apply Haa|].
  apply zswap_ext. exact Haa.
Qed.

Lemma zgeswp_rows_twice (A : coreblas_desc_t) (ipiv : Z -> Z) (m : Z) (a : array) :
  zgeswp_rows_apart A ->
  0 <= m < desc_m A -> 1 <= ipiv m <= desc_m A ->
  forall z,
    match zgeswp_rows A ipiv m
            (match zgeswp_rows A ipiv m a with Some b => b | None => a end) with
    | Some b => b
    | None => match zgeswp_rows A ipiv m a with Some b => b | None => a end
    end z = a z.
Proof.
  intros (Hmb & Hld & Hinj) Hm Hp z. unfold zgeswp_rows. cbv zeta.
  destruct (ipiv m - 1 =? m) eqn:E; cbn [negb]; [reflexivity|].
  apply Z.eqb_neq in E.
  replace (desc_mb A =? 0) with false by (symmetry; apply Z.eqb_neq; exact Hmb).
  apply zswap_twice.
  - apply Hld. exact Hm.
  - apply Hld. lia.
  - intros k k' Hk Hk'. split; [|split].
    + intros Ek. apply (Hinj m m k k'); try lia.
      unfold zgeswp_row_cell. lia.
    + intros Ek. apply (Hinj (ipiv m - 1) (ipiv m - 1) k k'); try lia.
      unfold zgeswp_row_cell. lia.
    + intros Ek.
      assert (m = ipiv m - 1 /\ k = k') as [Em _].
      { apply Hinj; try lia. unfold zgeswp_row_cell. lia. }
      apply E. symmetry. exact Em.
Qed.

End Geswp.

(** ** The tile kernels built on LAPACK *)


(** X15.  With arguments that pass its checks, a tile that is not empty
    and [ib >= 1], [coreblas_zunmqr] returns [CoreBlasSuccess] after one
    [LAPACKE_zlarfb] call for each block of [ib] reflectors, [C] passing
    from call to call: the blocks [0, ib, 2*ib, ...] in this order for
    [Q^H] from the left and [Q] from the right, in the reverse order
    otherwise.  More than [k + 1] rounds are never needed. *)
Theorem zunmqr_block_order `{HD : Headers} `{TL : TileLapack}
  (fuel : nat) (side trans m n k ib : Z)
  (A : option array) (lda : Z) (T : option array) (ldt : Z)
  (C : option array) (ldc : Z) (work : option array) (ldwork : Z) :
  first_illegal (zunmqr_illegal side trans m n k ib A lda T ldt C ldc work ldwork)
  = None ->
  m <> 0 -> n <> 0 -> k <> 0 -> ib <> 0 ->
  (Z.to_nat k + 1 < fuel)%nat ->
  let forward := ((side =? CoreBlasLeft) && negb (trans =? CoreBlasNoTrans))
                 || ((side =? CoreBlasRight) && (trans =? CoreBlasNoTrans)) in
  let blocks := if forward then ztsmqr_blocks k ib else rev (ztsmqr_blocks k ib) in
  coreblas_zunmqr fuel side trans m n k ib A lda T ldt C ldc work ldwork
  = Returns (done CoreBlasSuccess
       (Some (fold_left
                (fun c i => zunmqr_block side trans m n k ib (deref A) lda
                                         (deref T) ldt ldc i c)
                blocks (deref C)))).
Proof.
  intros Hnone Hm Hn Hk Hib Hfuel forward blocks.
  unfold zunmqr_illegal in Hnone. cbv zeta in Hnone. table_none Hnone. clear Hnone.
  unfold coreblas_zunmqr. cbv zeta.
  assert (Hpair : forall (B : Type) (f : Z -> Z -> B),
            (let '(nq, nw) := if side =? CoreBlasLeft then (m, n) else (n, m) in f nq nw)
            = f (if side =? CoreBlasLeft then m else n)
                (if side =? CoreBlasLeft then n else m)).
  { intros B f. destruct (side =? CoreBlasLeft); reflexivity. }
  rewrite Hpair.
  repeat match goal with
         | Hc : ?c = false |- context [if ?c then Returns (fail _ _ _) else _] =>
             rewrite Hc
         end.
  replace (m =? 0) with false by (symmetry; apply Z.eqb_neq; exact Hm).
  replace (n =? 0) with false by (symmetry; apply Z.eqb_neq; exact Hn).
  replace (k =? 0) with false by (symmetry; apply Z.eqb_neq; exact Hk).
  replace (ib =? 0) with false by (symmetry; apply Z.eqb_neq; exact Hib).
  cbn [orb]. rewrite andb_false_r.
  assert (Hk1 : 1 <= k).
  { match goal with
    | Hc : (k <? 0) || _ = false |- _ =>
        apply orb_false_iff in Hc; destruct Hc as [Hc _]; apply Z.ltb_ge in Hc
    end. lia. }
  assert (Hib1 : 1 <= ib).
  { match goal with
    | Hc : (ib <? 0) = false |- _ => apply Z.ltb_ge in Hc
    end. lia. }
  unfold blocks, forward.
  destruct ((side =? CoreBlasLeft) && negb (trans =? CoreBlasNoTrans)
            || (side =? CoreBlasRight) && (trans =? CoreBlasNoTrans)).
  - rewrite (step_loop_blocks _ k ib) by
      (try lia; intros x Hx; replace (x >? -1) with true
         by (symmetry; apply gtb_true; lia); reflexivity).
    reflexivity.
  - rewrite step_loop_blocks_rev by lia. reflexivity.
Qed.

Lemma zunmqr_block_order_witness :
  exists o,
    @coreblas_zunmqr sample_headers Q_scalars sample_tile_lapack 5
      141 111 3 2 3 2 (Some sample_tile) 3 (Some sample_tile) 2
      (Some sample_tile) 3 (Some sample_tile) 2 = Returns o
    /\ ret o = 0.
Proof.
  eexists. split.
  - exact (@zunmqr_block_order sample_headers Q_scalars sample_tile_lapack 5
             141 111 3 2 3 2 (Some sample_tile) 3 (Some sample_tile) 2
             (Some sample_tile) 3 (Some sample_tile) 2
             ltac:(vm_compute; reflexivity)
             ltac:(lia) ltac:(lia) ltac:(lia) ltac:(lia) ltac:(simpl; lia)).
  - reflexivity.
Defined.

(** X16.  [coreblas_zunmqr] accepts [ib = 0], and its quick return does
    not look at [ib]: on a tile that is not empty with [k >= 1] the call
    does not return.  For [Q^H] from the left and [Q] from the right the
    loop index stays at zero, so the loop runs for as many rounds as it
    is allowed; in the two other cases the start index
    [((k-1)/ib)*ib] divides by zero. *)
Theorem zunmqr_zero_ib_never_returns `{HD : Headers} `{TL : TileLapack}
  (fuel : nat) (side trans m n k : Z)
  (A : option array) (lda : Z) (T : option array) (ldt : Z)
  (C : option array) (ldc : Z) (work : option array) (ldwork : Z) :
  first_illegal (zunmqr_illegal side trans m n k 0 A lda T ldt C ldc work ldwork)
  = None ->
  m <> 0 -> n <> 0 -> k <> 0 ->
  coreblas_zunmqr fuel side trans m n k 0 A lda T ldt C ldc work ldwork
  = if ((side =? CoreBlasLeft) && negb (trans =? CoreBlasNoTrans))
       || ((side =? CoreBlasRight) && (trans =? CoreBlasNoTrans))
    then Running else Undefined.
Proof.
  intros Hnone Hm Hn Hk.
  unfold zunmqr_illegal in Hnone. cbv zeta in Hnone. table_none Hnone. clear Hnone.
  unfold coreblas_zunmqr. cbv zeta.
  assert (Hpair : forall (B : Type) (f : Z -> Z -> B),
            (let '(nq, nw) := if side =? CoreBlasLeft then (m, n) else (n, m) in f nq nw)
            = f (if side =? CoreBlasLeft then m else n)
                (if side =? CoreBlasLeft then n else m)).
  { intros B f. destruct (side =? CoreBlasLeft); reflexivity. }
  rewrite Hpair.
  repeat match goal with
         | Hc : ?c = false |- context [if ?c then Returns (fail _ _ _) else _] =>
             rewrite Hc
         end.
  replace (m =? 0) with false by (symmetry; apply Z.eqb_neq; exact Hm).
  replace (n =? 0) with false by (symmetry; apply Z.eqb_neq; exact Hn).
  replace (k =? 0) with false by (symmetry; apply Z.eqb_neq; exact Hk).
  cbn [orb]. rewrite Z.eqb_refl, andb_true_r.
  assert (Hk1 : 1 <= k).
  { match goal with
    | Hc : (k <? 0) || _ = false |- _ =>
        apply orb_false_iff in Hc; destruct Hc as [Hc _]; apply Z.ltb_ge in Hc
    end. lia. }
  destruct ((side =? CoreBlasLeft) && negb (trans =? CoreBlasNoTrans)
            || (side =? CoreBlasRight) && (trans =? CoreBlasNoTrans)).
  - cbn [negb].
    rewrite step_loop_stuck; [reflexivity|].
    replace (0 <? k) with true by (symmetry; apply Z.ltb_lt; lia). reflexivity.
  - reflexivity.
Qed.

Lemma zunmqr_zero_ib_never_returns_witness :
  @coreblas_zunmqr sample_headers Q_scalars sample_tile_lapack 1000
    141 113 3 2 3 0 (Some sample_tile) 3 (Some sample_tile) 1
    (Some sample_tile) 3 (Some sample_tile) 2 = Running.
Proof.
  exact (@zunmqr_zero_ib_never_returns sample_headers Q_scalars sample_tile_lapack 1000
           141 113 3 2 3 (Some sample_tile) 3 (Some sample_tile) 1
           (Some sample_tile) 3 (Some sample_tile) 2
           ltac:(vm_compute; reflexivity) ltac:(lia) ltac:(lia) ltac:(lia)).
Defined.

(** X17.  [coreblas_zgelqt] returns for every argument tuple that passes
    its checks: [ib = 0] passes them only on an empty tile, which the
    quick return handles, so the loop always advances; the call returns
    [CoreBlasSuccess] after the rounds of the blocks
    [0, ib, 2*ib, ...] below [min(m, n)], and more than [min(m, n)]
    rounds are never needed. *)
Theorem zgelqt_returns_success `{HD : Headers} `{TL : TileLapack}
  (fuel : nat) (m n ib : Z)
  (A : option array) (lda : Z) (T : option array) (ldt : Z)
  (tau work : option array) :
  first_illegal (zgelqt_illegal m n ib A lda T ldt tau work) = None ->
  (Z.to_nat (imin m n) < fuel)%nat ->
  (ib = 0 -> m = 0 \/ n = 0)
  /\ coreblas_zgelqt fuel m n ib A lda T ldt tau work
     = Returns (done CoreBlasSuccess
         (if (m =? 0) || (n =? 0) then (A, T, tau, work)
          else
            let '(a, t, tau', work') :=
              fold_left (fun s i => zgelqt_block m n ib lda ldt i s)
                        (ztsmqr_blocks (imin m n) ib)
                        (deref A, deref T, deref tau, deref work) in
            (Some a, Some t, Some tau', Some work'))).
Proof.
  intros Hnone Hfuel.
  unfold zgelqt_illegal in Hnone. table_none Hnone. clear Hnone.
  assert (Hm0 : 0 <= m).
  { match goal with Hc : (m <? 0) = false |- _ => apply Z.ltb_ge in Hc; exact Hc end. }
  assert (Hn0 : 0 <= n).
  { match goal with Hc : (n <? 0) = false |- _ => apply Z.ltb_ge in Hc; exact Hc end. }
  assert (Hib : 0 <= ib /\ (ib = 0 -> m = 0 \/ n = 0)).
  { match goal with
    | Hc : (ib <? 0) || _ = false |- _ =>
        apply orb_false_iff in Hc; destruct Hc as [Hc Hc']; apply Z.ltb_ge in Hc
    end.
    split; [assumption|]. intros ->. rewrite Z.eqb_refl in *. cbn [andb] in *.
    match goal with
    | Hc : (m >? 0) && (n >? 0) = false |- _ =>
        apply andb_false_iff in Hc; destruct Hc as [Hc | Hc];
        rewrite Z.gtb_ltb in Hc; apply Z.ltb_ge in Hc
    end; [left | right]; lia. }
  destruct Hib as [Hib0 Hibz]. split; [exact Hibz|].
  unfold coreblas_zgelqt. cbv zeta.
  repeat match goal with
         | Hc : ?c = false |- context [if ?c then Returns (fail _ _ _) else _] =>
             rewrite Hc
         end.
  destruct ((m =? 0) || (n =? 0)) eqn:Emn.
  - reflexivity.
  - apply orb_false_iff in Emn. destruct Emn as [Em En].
    apply Z.eqb_neq in Em. apply Z.eqb_neq in En.
    assert (ib <> 0) by (intros E0; destruct (Hibz E0); contradiction).
    replace (ib =? 0) with false by (symmetry; apply Z.eqb_neq; assumption).
    cbn [orb].
    rewrite (step_loop_blocks _ (imin m n) ib);
      [| intros x _; reflexivity | lia | apply imin_pos; lia | exact Hfuel].
    destruct (fold_left _ _ _) as [[[a t] tau'] work']. reflexivity.
Qed.

Lemma zgelqt_returns_success_witness :
  exists o,
    @coreblas_zgelqt sample_headers Q_scalars sample_tile_lapack 4
      3 5 2 (Some sample_tile) 3 (Some sample_tile) 2
      (Some sample_tile) (Some sample_tile) = Returns o
    /\ ret o = 0.
Proof.
  eexists. split.
  - exact (proj2 (@zgelqt_returns_success sample_headers Q_scalars sample_tile_lapack 4
                    3 5 2 (Some sample_tile) 3 (Some sample_tile) 2
                    (Some sample_tile) (Some sample_tile)
                    ltac:(vm_compute; reflexivity) ltac:(simpl; lia))).
  - reflexivity.
Defined.



(** X19.  The update that [coreblas_ztsqrt] hands to [coreblas_ztsmqr]
    after a panel, when columns remain right of it.  The panel is then a
    full one ([sb = ib]).  [coreblas_ztsmqr] accepts the call and
    returns [CoreBlasSuccess] when [lda1 >= ib]; when [lda1 < ib], which
    the checks of [coreblas_ztsqrt] allow (they compare [lda1] with [m]),
    it rejects the call with [-10] and leaves the tiles as they were, and
    [coreblas_ztsqrt], which drops the result code, goes on to the next
    panel. *)
Theorem ztsqrt_update_accepted
  {HD : Headers} {SC : Scalars} {CB : @Cblas SC}
  (m n ib : Z)
  (A1 : option array) (lda1 : Z) (A2 : option array) (lda2 : Z)
  (T : option array) (ldt : Z) (tau work : option array)
  (ii : Z) (a1 a2 t w : array) :
  CoreBlasLeft <> CoreBlasRight ->
  first_illegal (ztsqrt_illegal m n ib A1 lda1 A2 lda2 T ldt tau work) = None ->
  m <> 0 -> ib <> 0 ->
  0 <= ii ->
  let sb := imin (n - ii) ib in
  ii + sb < n ->
  let r := ztsqrt_update m n ib lda1 lda2 ldt ii sb a1 a2 t w in
  sb = ib
  /\ if lda1 <? ib
     then rejected r /\ ret r = -10
          /\ out r = (Some (shifted a1 (lda1 * (ii + sb) + ii)),
                      Some (shifted a2 (lda2 * (ii + sb))), Some w)
     else ~ rejected r /\ ret r = CoreBlasSuccess.
Proof.
  intros Hlr Hnone Hm Hib Hii sb Hmore r.
  unfold ztsqrt_illegal in Hnone. table_none Hnone. clear Hnone.
  repeat match goal with
         | Hc : (_ <? 0) = false |- _ => apply Z.ltb_ge in Hc
         end.
  assert (Hsb : sb = ib).
  { unfold sb in *. unfold imin in *. destruct (n - ii <? ib) eqn:E; [|reflexivity].
    apply Z.ltb_lt in E. lia. }
  split; [exact Hsb|].
  assert (Hm1 : 1 <= m) by lia.
  assert (Hib1 : 1 <= ib) by lia.
  assert (Hlda2 : (lda2 <? imax 1 m) = false).
  { match goal with
    | Hc : (lda2 <? imax 1 m) && (m >? 0) = false |- _ =>
        apply andb_false_iff in Hc; destruct Hc as [Hc | Hc]; [exact Hc|];
        rewrite Z.gtb_ltb in Hc; apply Z.ltb_ge in Hc; lia
    end. }
  assert (Hldt : (ldt <? imax 1 ib) = false).
  { match goal with
    | Hc : (ldt <? imax 1 ib) && (ib >? 0) = false |- _ =>
        apply andb_false_iff in Hc; destruct Hc as [Hc | Hc]; [exact Hc|];
        rewrite Z.gtb_ltb in Hc; apply Z.ltb_ge in Hc; lia
    end. }
  assert (Himax : imax 1 ib = ib).
  { unfold imax. destruct (1 >? ib) eqn:E; [|reflexivity].
    rewrite Z.gtb_ltb in E. apply Z.ltb_lt in E. lia. }
  pose proof (ztsmqr_charges_first CoreBlasLeft CoreBlas_ConjTrans
                sb (n - (ii + sb)) m (n - (ii + sb)) ib ib
                (Some (shifted a1 (lda1 * (ii + sb) + ii))) lda1
                (Some (shifted a2 (lda2 * (ii + sb)))) lda2
                (Some (shifted a2 (lda2 * ii))) lda2
                (Some (shifted t (ldt * ii))) ldt
                (Some w) sb) as Hch.
  fold (ztsqrt_update m n ib lda1 lda2 ldt ii sb a1 a2 t w) in Hch. fold r in Hch.
  unfold charges_first, ztsmqr_illegal, first_illegal in Hch.
  cbn [find snd fst option_map is_null] in Hch.
  rewrite Hsb in Hch.
  rewrite !Z.eqb_refl in Hch.
  replace (CoreBlasLeft =? CoreBlasRight) with false in Hch
    by (symmetry; apply Z.eqb_neq; exact Hlr).
  replace (ib <? 0) with false in Hch by (symmetry; apply Z.ltb_ge; lia).
  replace (n - (ii + ib) <? 0) with false in Hch by (symmetry; apply Z.ltb_ge; lia).
  replace (m <? 0) with false in Hch by (symmetry; apply Z.ltb_ge; lia).
  replace (ib >? ib) with false in Hch by (symmetry; apply gtb_false; lia).
  rewrite Hlda2, Hldt, Himax in Hch.
  cbn [negb andb orb find snd fst option_map] in Hch.
  rewrite !andb_false_r in Hch.
  cbn [negb andb orb find snd fst option_map] in Hch.
  destruct (lda1 <? ib) eqn:E.
  - cbn [find snd fst option_map] in Hch. rewrite Hsb. exact Hch.
  - cbn [find snd fst option_map] in Hch.
    replace (ib <? ib) with false in Hch by (symmetry; apply Z.ltb_ge; lia).
    cbn [find snd fst option_map] in Hch.
    split; [exact Hch|]. apply ztsmqr_accepted_success. exact Hch.
Qed.

Lemma ztsqrt_update_accepted_witness :
  ret (@ztsqrt_update sample_headers Q_scalars sample_cblas
         1 4 2 1 1 2 0 2 sample_tile sample_tile sample_tile sample_tile) = -10.
Proof.
  exact (proj1 (proj2 (proj2
    (@ztsqrt_update_accepted sample_headers Q_scalars sample_cblas
       1 4 2 (Some sample_tile) 1 (Some sample_tile) 1 (Some sample_tile) 2
       (Some sample_tile) (Some sample_tile)
       0 sample_tile sample_tile sample_tile sample_tile
       ltac:(vm_compute; discriminate) ltac:(vm_compute; reflexivity)
       ltac:(lia) ltac:(lia) ltac:(lia) ltac:(vm_compute; reflexivity))))).
Defined.

(** X22.  [coreblas_ztslqt] returns [CoreBlasSuccess] for every argument
    tuple that passes its checks, after the rounds of the panels
    [0, ib, 2*ib, ...] below [m]; more than [m] rounds are never
    needed. *)
Theorem ztslqt_returns_success
  {HD : Headers} {SC : Scalars} {CB : @Cblas SC}
  {LP : @Lapacke SC} {TL : @TileLapack SC} {NG : @Negation SC} {TM : @Tsmlq SC}
  (fuel : nat) (m n ib : Z)
  (A1 : option array) (lda1 : Z) (A2 : option array) (lda2 : Z)
  (T : option array) (ldt : Z) (tau work : option array) :
  first_illegal (ztslqt_illegal m n ib A1 lda1 A2 lda2 T ldt tau work) = None ->
  (Z.to_nat m < fuel)%nat ->
  coreblas_ztslqt fuel m n ib A1 lda1 A2 lda2 T ldt tau work
  = Returns (done CoreBlasSuccess
      (if (m =? 0) || (n =? 0) || (ib =? 0) then (A1, A2, T, tau, work)
       else
         let '(a1, a2, t, tau', work') :=
           fold_left (fun s ii => ztslqt_block m n ib lda1 lda2 ldt ii s)
                     (ztsmqr_blocks m ib)
                     (deref A1, deref A2, deref T, deref tau, deref work) in
         (Some a1, Some a2, Some t, Some tau', Some work'))).
Proof.
  intros Hnone Hfuel.
  unfold ztslqt_illegal in Hnone. table_none Hnone. clear Hnone.
  unfold coreblas_ztslqt. cbv zeta.
  repeat match goal with
         | Hc : ?c = false |- context [if ?c then Returns (fail _ _ _) else _] =>
             rewrite Hc
         end.
  destruct ((m =? 0) || (n =? 0) || (ib =? 0)) eqn:Eq; [reflexivity|].
  apply orb_false_iff in Eq. destruct Eq as [Eq Eib].
  apply orb_false_iff in Eq. destruct Eq as [Em En].
  apply Z.eqb_neq in Em, En, Eib.
  repeat match goal with
         | Hc : (_ <? 0) = false |- _ => apply Z.ltb_ge in Hc
         end.
  rewrite (step_loop_blocks _ m ib);
    [| intros x _; reflexivity | lia | lia | exact Hfuel].
  destruct (fold_left _ _ _) as [[[[a1 a2] t] tau'] work']. reflexivity.
Qed.

Lemma ztslqt_returns_success_witness :
  exists o,
    @coreblas_ztslqt sample_headers Q_scalars sample_cblas Q_lapacke
      sample_tile_lapack sample_negation sample_tsmlq 5
      4 2 2 (Some sample_tile) 4 (Some sample_tile) 4 (Some sample_tile) 2
      (Some sample_tile) (Some sample_tile) = Returns o
    /\ ret o = 0.
Proof.
  eexists. split.
  - exact (@ztslqt_returns_success sample_headers Q_scalars sample_cblas Q_lapacke
             sample_tile_lapack sample_negation sample_tsmlq 5
             4 2 2 (Some sample_tile) 4 (Some sample_tile) 4 (Some sample_tile) 2
             (Some sample_tile) (Some sample_tile)
             ltac:(vm_compute; reflexivity) ltac:(simpl; lia)).
  - reflexivity.
Defined.

(** ** [coreblas_zgeswp] *)

Lemma sample_descriptors_apart : @zgeswp_rows_apart sample_descriptors tt.
Proof.
  unfold zgeswp_rows_apart, zgeswp_row_cell.
  cbn [desc_mb desc_m desc_n coreblas_tile_addr coreblas_tile_mmain sample_descriptors].
  split; [lia|]. split; [intros; lia|].
  intros r r' j j' Hr Hr' Hj Hj'.
  rewrite !Z.quot_small, !Z.rem_small by lia. lia.
Qed.

(** X20.  Row interchanges undo themselves: on a layout that keeps the
    entries of the rows apart, with pivots inside the matrix,
    [coreblas_zgeswp] with [incx = 1] followed by [coreblas_zgeswp] with
    [incx = -1] on the same rows and pivots returns and leaves every
    cell of the storage as it was.  Each call needs no more than
    [k2 - k1 + 2] rounds. *)
Theorem zgeswp_rows_undo `{HD : Headers} `{DS : Descriptors} `{SC : Scalars}
  (fuel : nat) (A : coreblas_desc_t) (k1 k2 : Z) (ipiv : Z -> Z) (a : array) :
  zgeswp_rows_apart A ->
  1 <= k1 -> k1 <= k2 -> k2 <= desc_m A ->
  (forall m, k1 - 1 <= m <= k2 - 1 -> 1 <= ipiv m <= desc_m A) ->
  (Z.to_nat (k2 - k1 + 1) < fuel)%nat ->
  exists a1 a2,
    coreblas_zgeswp fuel CoreBlasRowwise A k1 k2 ipiv 1 a = Returns a1
    /\ coreblas_zgeswp fuel CoreBlasRowwise A k1 k2 ipiv (-1) a1 = Returns a2
    /\ forall z, a2 z = a z.
Proof.
  intros Hap Hk1 Hk12 Hk2 Hpiv Hfuel.
  pose proof Hap as (Hmb & _ & _).
  set (f := fun (i : Z) (b : array) =>
              match zgeswp_rows A ipiv i b with Some b' => b' | None => b end).
  set (c := Z.to_nat (k2 - k1 + 1)) in *.
  set (l := zrange c (k1 - 1)).
  exists (fold_left (fun b i => f i b) l a).
  exists (fold_left (fun b i => f i b) (rev l) (fold_left (fun b i => f i b) l a)).
  unfold coreblas_zgeswp. rewrite Z.eqb_refl.
  replace (1 >? 0) with true by reflexivity.
  replace (-1 >? 0) with false by reflexivity.
  split; [|split].
  - apply (swap_loop_up (k2 - 1) _ f c); [lia | | exact Hfuel].
    intros i b _. apply zgeswp_rows_defined. exact Hmb.
  - replace (k2 - 1) with (k1 - 1 + Z.of_nat c - 1) by lia.
    apply (swap_loop_down (k1 - 1) _ f c); [| exact Hfuel].
    intros i b _. apply zgeswp_rows_defined. exact Hmb.
  - apply fold_involutions.
    + intros i _ b b' Hbb z. apply zgeswp_rows_ext. exact Hbb.
    + intros i Hi b z. apply zrange_in in Hi.
      apply zgeswp_rows_twice; [exact Hap | lia | apply Hpiv; lia].
Qed.

Lemma zgeswp_rows_undo_witness :
  exists a1 a2,
    @coreblas_zgeswp sample_headers sample_descriptors Q_scalars 4
      402 tt 1 3 sample_ipiv 1 sample_storage = Returns a1
    /\ @coreblas_zgeswp sample_headers sample_descriptors Q_scalars 4
         402 tt 1 3 sample_ipiv (-1) a1 = Returns a2
    /\ forall z, a2 z = sample_storage z.
Proof.
  apply (@zgeswp_rows_undo sample_headers sample_descriptors Q_scalars 4
           tt 1 3 sample_ipiv sample_storage sample_descriptors_apart
           ltac:(lia) ltac:(lia) ltac:(simpl; lia)).
  - intros m Hm. unfold sample_ipiv. simpl desc_m.
    destruct (m =? 0); [lia|]. destruct (m =? 1); lia.
  - simpl. lia.
Defined.

(** X21.  [coreblas_zgeswp] with [incx = 0] and [k1 <= k2] never
    returns: the index does not move, so the loop runs for as many
    rounds as it is allowed (the block size that the rounds divide by
    being nonzero). *)
Theorem zgeswp_zero_incx_never_returns
  `{HD : Headers} `{DS : Descriptors} `{SC : Scalars}
  (fuel : nat) (colrow : Z) (A : coreblas_desc_t) (k1 k2 : Z)
  (ipiv : Z -> Z) (a : array) :
  (if colrow =? CoreBlasRowwise then desc_mb A <> 0 else desc_nb A <> 0) ->
  k1 <= k2 ->
  coreblas_zgeswp fuel colrow A k1 k2 ipiv 0 a = Running.
Proof.
  intros Hb Hk. unfold coreblas_zgeswp.
  replace (0 >? 0) with false by reflexivity.
  destruct (colrow =? CoreBlasRowwise).
  - apply swap_loop_stuck.
    + rewrite Z.geb_leb. apply Z.leb_le. lia.
    + intros b. rewrite zgeswp_rows_defined by exact Hb. discriminate.
  - apply swap_loop_stuck.
    + rewrite Z.geb_leb. apply Z.leb_le. lia.
    + intros b. unfold zgeswp_cols. cbv zeta.
      apply Z.eqb_neq in Hb. rewrite Hb.
      destruct (negb (ipiv (k2 - 1) - 1 =? k2 - 1)); discriminate.
Qed.

Lemma zgeswp_zero_incx_never_returns_witness :
  @coreblas_zgeswp sample_headers sample_descriptors Q_scalars 1000
    402 tt 1 3 sample_ipiv 0 sample_storage = Running.
Proof.
  exact (@zgeswp_zero_incx_never_returns sample_headers sample_descriptors Q_scalars
           1000 402 tt 1 3 sample_ipiv sample_storage
           ltac:(vm_compute; discriminate) ltac:(lia)).
Defined.
